(** * Kerr squeezing: the split-step engine of [kerrlib.py] and the index
      tables of [QSS.py]

    The numpy arrays of the source are lists: a one-dimensional array is a
    list of entries, a two-dimensional one a list of rows.  Python floats are
    the real numbers of the Standard Library and complex floats pairs of them,
    so every operation is the exact one: rounding is not part of the model.
    Calls that numpy, scipy or the interpreter can refuse (an FFT of no data
    points, shapes that do not broadcast, an index outside an array, a name
    that is not bound) return in the error monad [result]. *)

From Stdlib Require Import String.
From Stdlib Require Import Reals Lra Lia ZArith List Bool.
From Stdlib Require Import ClassicalEpsilon.
Import ListNotations.

Open Scope R_scope.

(** ** Complex numbers *)

Record C : Type := mkC { Re : R; Im : R }.

Definition RtoC (x : R) : C := mkC x 0.
Definition C0 : C := RtoC 0.
Definition C1 : C := RtoC 1.
(** Python's [1j]. *)
Definition Ci : C := mkC 0 1.

Definition Cadd (a b : C) : C := mkC (Re a + Re b) (Im a + Im b).
Definition Copp (a : C) : C := mkC (- Re a) (- Im a).
Definition Csub (a b : C) : C := Cadd a (Copp b).
Definition Cmul (a b : C) : C :=
  mkC (Re a * Re b - Im a * Im b) (Re a * Im b + Im a * Re b).
Definition Cconj (a : C) : C := mkC (Re a) (- Im a).
(** A complex array divided or multiplied by a float. *)
Definition Cdivr (a : C) (x : R) : C := mkC (Re a / x) (Im a / x).
Definition Cmulr (a : C) (x : R) : C := mkC (Re a * x) (Im a * x).
(** [np.abs] of a complex number. *)
Definition Cabs (a : C) : R := sqrt (Re a * Re a + Im a * Im a).
(** [np.exp] of a complex number. *)
Definition Cexp (a : C) : C :=
  mkC (exp (Re a) * cos (Im a)) (exp (Re a) * sin (Im a)).

Declare Scope C_scope.
Delimit Scope C_scope with C.
Bind Scope C_scope with C.
Infix "+" := Cadd : C_scope.
Infix "-" := Csub : C_scope.
Infix "*" := Cmul : C_scope.
Notation "- a" := (Copp a) : C_scope.

(** ** Errors

    The exceptions the modelled calls can raise. *)

Inductive error : Type := ValueError | IndexError | NameError.

Inductive result (A : Type) : Type :=
| Ok (a : A)
| Err (e : error).

Arguments Ok {A} a.
Arguments Err {A} e.

Definition bind {A B : Type} (c : result A) (k : A -> result B) : result B :=
  match c with
  | Ok a => k a
  | Err e => Err e
  end.

Declare Scope result_scope.
Delimit Scope result_scope with result.
Notation "x <- c ;; k" := (bind c (fun x => k))
  (at level 61, c at next level, right associativity) : result_scope.
Notation "' p <- c ;; k" := (bind c (fun x => let p := x in k))
  (at level 61, p pattern, c at next level, right associativity) : result_scope.
Open Scope result_scope.

Definition is_ok {A : Type} (c : result A) : bool :=
  match c with Ok _ => true | Err _ => false end.

Fixpoint mapM {A B : Type} (f : A -> result B) (l : list A) : result (list B) :=
  match l with
  | [] => Ok []
  | x :: t => y <- f x ;; r <- mapM f t ;; Ok (y :: r)
  end.

Fixpoint zipM {A B D : Type} (f : A -> B -> result D)
  (a : list A) (b : list B) : result (list D) :=
  match a, b with
  | x :: a', y :: b' => z <- f x y ;; r <- zipM f a' b' ;; Ok (z :: r)
  | _, _ => Ok []
  end.

(** The loop [for _ in range(k): s = body(s)], stopped by the first error. *)
Fixpoint iterM {St : Type} (k : nat) (body : St -> result St) (s : St)
  : result St :=
  match k with
  | O => Ok s
  | S k' => s' <- body s ;; iterM k' body s'
  end.

(** ** Arrays *)

Definition vec := list C.
Definition mat := list (list C).

(** numpy broadcasting of an elementwise operation along one axis: equal
    lengths pair up, an axis of length one is stretched, anything else is
    refused. *)
Definition bzip {A B D : Type} (f : A -> B -> result D)
  (a : list A) (b : list B) : result (list D) :=
  if (length a =? length b)%nat then zipM f a b
  else match a, b with
       | [x], _ => mapM (f x) b
       | _, [y] => mapM (fun x => f x y) a
       | _, _ => Err ValueError
       end.

Definition vmul (a b : vec) : result vec :=
  bzip (fun x y => Ok (x * y)%C) a b.

(** Two-dimensional broadcasting is broadcasting of rows whose pairs are
    broadcast in turn. *)
Definition madd (a b : mat) : result mat :=
  bzip (bzip (fun x y => Ok (x + y)%C)) a b.

Fixpoint Csum (n : nat) (f : nat -> C) : C :=
  match n with
  | O => C0
  | S k => (Csum k f + f k)%C
  end.

Definition nrows {A : Type} (m : list (list A)) : nat := length m.
Definition ncols {A : Type} (m : list (list A)) : nat :=
  match m with
  | [] => O
  | r :: _ => length r
  end.

Definition entry (m : mat) (i j : nat) : C := nth j (nth i m []) C0.

Definition mk_mat (r c : nat) (f : nat -> nat -> C) : mat :=
  map (fun i => map (fun j => f i j) (seq 0 c)) (seq 0 r).

(** [a.T] *)
Definition transpose (a : mat) : mat :=
  mk_mat (ncols a) (nrows a) (fun i j => entry a j i).

(** [a.conj()], [-a], [z * a] *)
Definition mconj (a : mat) : mat := map (map Cconj) a.
Definition mopp (a : mat) : mat := map (map Copp) a.
Definition mscale (z : C) (a : mat) : mat := map (map (Cmul z)) a.

(** [a @ b] on two-dimensional arrays: the inner dimensions must agree. *)
Definition mm (a b : mat) : result mat :=
  if (ncols a =? nrows b)%nat
  then Ok (mk_mat (nrows a) (ncols b)
             (fun i j => Csum (nrows b) (fun k => entry a i k * entry b k j)%C))
  else Err ValueError.

(** [np.identity(k)] *)
Definition identity (k : nat) : mat :=
  mk_mat k k (fun i j => if (i =? j)%nat then C1 else C0).

(** [np.zeros(n)]: a one-dimensional array; a negative length is refused. *)
Definition np_zeros (n : Z) : result vec :=
  if (n <? 0)%Z then Err ValueError else Ok (repeat C0 (Z.to_nat n)).

(** [K[0:n, 0:n]] and [K[0:n, n:2 * n]] for [0 <= n]. *)
Definition top_left (n : nat) (K : mat) : mat :=
  map (firstn n) (firstn n K).
Definition top_right (n : nat) (K : mat) : mat :=
  map (fun r => firstn (2 * n - n) (skipn n r)) (firstn n K).

(** [np.block([[a, b], [c, d]])] *)
Definition hstack (a b : mat) : result mat :=
  if (nrows a =? nrows b)%nat then Ok (map (fun p => fst p ++ snd p) (combine a b))
  else Err ValueError.
Definition vstack (a b : mat) : result mat :=
  if (ncols a =? ncols b)%nat then Ok (a ++ b) else Err ValueError.
Definition np_block (a b c d : mat) : result mat :=
  top <- hstack a b ;; bot <- hstack c d ;; vstack top bot.

(** [v[i]] for a Python integer [i]: negative indices count from the end. *)
Definition index1 {A : Type} (v : list A) (i : Z) : result A :=
  let len := Z.of_nat (length v) in
  let k := if (i <? 0)%Z then (i + len)%Z else i in
  if ((0 <=? k) && (k <? len))%Z
  then match nth_error v (Z.to_nat k) with
       | Some x => Ok x
       | None => Err IndexError
       end
  else Err IndexError.

(** [v[idx]] for a two-dimensional integer array [idx]. *)
Definition gather {A : Type} (v : list A) (idx : list (list Z))
  : result (list (list A)) :=
  mapM (mapM (index1 v)) idx.

(** ** numpy.fft *)

(** The discrete Fourier sum of numpy's documentation,
    [sum_m a[m] * exp(sgn * 2 pi i * m k / n)]. *)
Definition dft_entry (sgn : R) (a : vec) (k : nat) : C :=
  Csum (length a)
    (fun m => (nth m a C0 *
               Cexp (mkC 0 (sgn * (2 * PI * INR m * INR k / INR (length a)))))%C).

(** [np.fft.fft] and [np.fft.ifft] of a one-dimensional array; both refuse an
    array with no data points. *)
Definition fft (a : vec) : result vec :=
  match a with
  | [] => Err ValueError
  | _ => Ok (map (dft_entry (-1) a) (seq 0 (length a)))
  end.

Definition ifft (a : vec) : result vec :=
  match a with
  | [] => Err ValueError
  | _ => Ok (map (fun m => Cdivr (dft_entry 1 a m) (INR (length a)))
               (seq 0 (length a)))
  end.

(** [np.fft.fftshift] rolls by [n // 2], [np.fft.ifftshift] by [-(n // 2)]. *)
Definition fftshift {A : Type} (x : list A) : list A :=
  let n := length x in
  skipn (n - n / 2) x ++ firstn (n - n / 2) x.

Definition ifftshift {A : Type} (x : list A) : list A :=
  let n := length x in
  skipn (n / 2) x ++ firstn (n / 2) x.

(** ** scipy.linalg.expm

    The matrix exponential is the limit, entry by entry, of the partial sums
    of its power series.  A matrix that is not square is refused. *)

Definition Rlim (u : nat -> R) : R :=
  epsilon (inhabits 0) (fun l => Un_cv u l).

Definition Clim (f : nat -> C) : C :=
  mkC (Rlim (fun k => Re (f k))) (Rlim (fun k => Im (f k))).

Definition mm_sq (d : nat) (a b : mat) : mat :=
  mk_mat d d (fun i j => Csum d (fun k => entry a i k * entry b k j)%C).

Fixpoint mpow (d : nat) (a : mat) (k : nat) : mat :=
  match k with
  | O => identity d
  | S k' => mm_sq d a (mpow d a k')
  end.

Definition exp_partial (d : nat) (a : mat) (i j N : nat) : C :=
  Csum (S N) (fun k => Cdivr (entry (mpow d a k) i j) (INR (fact k))).

Definition is_square (a : mat) : bool :=
  forallb (fun r => (length r =? length a)%nat) a.

Definition expm (a : mat) : result mat :=
  if is_square a
  then Ok (mk_mat (length a) (length a)
             (fun i j => Clim (exp_partial (length a) a i j)))
  else Err ValueError.

(** ** n-dimensional arrays

    [P_loss] starts its moments as one-dimensional arrays and lets [@] and [+]
    turn them into matrices, so its moments are arrays of either rank. *)

Inductive ndarray : Type :=
| Arr0 (z : C)
| Arr1 (v : vec)
| Arr2 (a : mat).

Definition mv (a : mat) (v : vec) : result vec :=
  if (ncols a =? length v)%nat
  then Ok (map (fun r => Csum (length v) (fun k => nth k r C0 * nth k v C0)%C) a)
  else Err ValueError.

Definition vm (v : vec) (b : mat) : result vec :=
  if (length v =? nrows b)%nat
  then Ok (map (fun j => Csum (nrows b) (fun k => nth k v C0 * entry b k j)%C)
             (seq 0 (ncols b)))
  else Err ValueError.

Definition dot (v w : vec) : result C :=
  if (length v =? length w)%nat
  then Ok (Csum (length v) (fun k => nth k v C0 * nth k w C0)%C)
  else Err ValueError.

Definition nd_matmul (x y : ndarray) : result ndarray :=
  match x, y with
  | Arr2 a, Arr2 b => r <- mm a b ;; Ok (Arr2 r)
  | Arr2 a, Arr1 v => r <- mv a v ;; Ok (Arr1 r)
  | Arr1 v, Arr2 b => r <- vm v b ;; Ok (Arr1 r)
  | Arr1 v, Arr1 w => r <- dot v w ;; Ok (Arr0 r)
  | _, _ => Err ValueError
  end.

Definition vadd (a b : vec) : result vec :=
  bzip (fun x y => Ok (x + y)%C) a b.

Definition nd_add (x y : ndarray) : result ndarray :=
  match x, y with
  | Arr0 a, Arr0 b => Ok (Arr0 (a + b))
  | Arr0 a, Arr1 w => Ok (Arr1 (map (Cadd a) w))
  | Arr0 a, Arr2 b => Ok (Arr2 (map (map (Cadd a)) b))
  | Arr1 v, Arr0 b => Ok (Arr1 (map (fun z => z + b)%C v))
  | Arr2 a, Arr0 b => Ok (Arr2 (map (map (fun z => z + b)%C) a))
  | Arr1 v, Arr1 w => r <- vadd v w ;; Ok (Arr1 r)
  | Arr1 v, Arr2 b => r <- madd [v] b ;; Ok (Arr2 r)
  | Arr2 a, Arr1 w => r <- madd a [w] ;; Ok (Arr2 r)
  | Arr2 a, Arr2 b => r <- madd a b ;; Ok (Arr2 r)
  end.

Definition nd_T (x : ndarray) : ndarray :=
  match x with
  | Arr2 a => Arr2 (transpose a)
  | _ => x
  end.

Definition nd_conj (x : ndarray) : ndarray :=
  match x with
  | Arr0 z => Arr0 (Cconj z)
  | Arr1 v => Arr1 (map Cconj v)
  | Arr2 a => Arr2 (mconj a)
  end.

(** A float times a complex number, and times an array. *)
Definition Rscal (r : R) (z : C) : C := mkC (r * Re z) (r * Im z).

Definition mrscale (r : R) (a : mat) : mat := map (map (Rscal r)) a.

Definition nd_scale (r : R) (x : ndarray) : ndarray :=
  match x with
  | Arr0 z => Arr0 (Rscal r z)
  | Arr1 v => Arr1 (map (Rscal r) v)
  | Arr2 a => Arr2 (mrscale r a)
  end.

(** [@] and [+] on operands that may already have failed. *)
Definition matmulR (x y : result ndarray) : result ndarray :=
  a <- x ;; b <- y ;; nd_matmul a b.
Definition addR (x y : result ndarray) : result ndarray :=
  a <- x ;; b <- y ;; nd_add a b.

Declare Scope nd_scope.
Delimit Scope nd_scope with nd.
Infix "@@" := matmulR (at level 40, left associativity) : nd_scope.
Infix "+" := addR : nd_scope.

(** ** Names

    A call reads a free name from the globals of its module and then from the
    builtins; a name bound in neither raises [NameError]. *)

Inductive pyval : Type :=
| PyStr (s : string)
| PyObj.

Definition namespace := list (string * pyval).

Definition lookup_name (g : namespace) (x : string) : result pyval :=
  match find (fun p => String.eqb (fst p) x) g with
  | Some p => Ok (snd p)
  | None => Err NameError
  end.

Definition pyval_eqb (a b : pyval) : bool :=
  match a, b with
  | PyStr s, PyStr t => String.eqb s t
  | _, _ => false
  end.

(** The builtins, as far as [kerrlib.py] calls them; no builtin of Python
    is named [Dcheck]. *)
Definition py_builtins : namespace :=
  [("abs", PyObj); ("range", PyObj); ("print", PyObj)]%string.

(** ** Real helpers of numpy *)

Definition Rsign (x : R) : R :=
  if Rlt_dec 0 x then 1 else if Rlt_dec x 0 then -1 else 0.

Definition np_max (y : list R) : result R :=
  match y with
  | [] => Err ValueError
  | a :: t => Ok (fold_left Rmax t a)
  end.

(** [np.where(p(d))[0]]: the positions at which [p] holds. *)
Definition np_where (p : R -> bool) (d : list R) : list Z :=
  map (fun q => Z.of_nat (fst q))
      (filter (fun q => p (snd q)) (combine (seq 0 (length d)) d)).

(** [np.full(n, v)]: [v] broadcast to the shape [(n,)]. *)
Definition np_full (n : Z) (v : list R) : result (list R) :=
  if (n <? 0)%Z then Err ValueError
  else if (length v =? Z.to_nat n)%nat then Ok v
  else match v with
       | [x] => Ok (repeat x (Z.to_nat n))
       | _ => Err ValueError
       end.

(** [np.diag(d)] of a one-dimensional array. *)
Definition np_diag (d : list R) : mat :=
  mk_mat (length d) (length d)
    (fun i j => if (i =? j)%nat then RtoC (nth i d 0) else C0).

(** [np.log10] and [np.linalg.norm] of a one-dimensional complex array. *)
Definition np_log10 (x : R) : R := ln x / ln 10.

Definition np_norm (v : vec) : R :=
  sqrt (fold_right (fun z acc => Cabs z ^ 2 + acc) 0 v).

(** ** kerrlib.py *)

Module kerrlib.

(** The names the module binds when it is imported. *)
Definition globals : namespace :=
  [("np", PyObj); ("expm", PyObj); ("gaussian", PyObj); ("sech", PyObj);
   ("rect", PyObj); ("lorentzian", PyObj); ("FWHM", PyObj); ("myfft", PyObj);
   ("myifft", PyObj); ("opD", PyObj); ("opN", PyObj); ("P_mean_field", PyObj);
   ("s", PyObj); ("m", PyObj); ("A", PyObj); ("B", PyObj); ("Q", PyObj);
   ("P_no_loss", PyObj); ("P_loss", PyObj); ("P_Nico", PyObj);
   ("norm_check", PyObj); ("expected_squeezing_g", PyObj)]%string.

(** The pulse shapes, on an array of grid points. *)
Definition gaussian (z : list R) : list R :=
  map (fun x => exp (- x ^ 2 / 2)) z.

Definition sech (z : list R) : list R :=
  map (fun x => 1 / cosh x) z.

(** The default width [l] of [rect]. *)
Definition rect_default_l : R := 2 * sqrt (2 * ln 2).

Definition rect (z : list R) (l : R) : list Z :=
  map (fun x => if Rle_dec (Rabs x) (0.5 * l) then 1%Z else 0%Z) z.

Definition lorentzian (z : list R) : list R :=
  map (fun x => 1 / sqrt (1 + x ^ 2)) z.

Definition FWHM (X Y : list R) : result (list R) :=
  mx <- np_max Y ;;
  let half_max := mx / 2 in
  let d := map (fun p => Rsign (half_max - fst p) - Rsign (half_max - snd p))
               (combine (removelast Y) (tl Y)) in
  let left_idx := np_where (fun x => if Rlt_dec 0 x then true else false) d in
  let right_idx := np_where (fun x => if Rlt_dec x 0 then true else false) d in
  xr <- mapM (index1 X) right_idx ;;
  xl <- mapM (index1 X) left_idx ;;
  bzip (fun a b => Ok (a - b)) xr xl.

Definition myfft (z : vec) (dz : R) : result vec :=
  f <- fft z ;;
  Ok (fftshift (map (fun x => Cdivr (Cmulr x dz) (sqrt (2 * PI))) f)).

Definition myifft (k : vec) (dk : R) (n : Z) : result vec :=
  f <- ifft k ;;
  Ok (ifftshift
        (map (fun x => Cdivr (Cmulr (Cmulr x dk) (IZR n)) (sqrt (2 * PI))) f)).

Definition opD (u : vec) (TD G : R) (kk : list R) (dt : R) : result vec :=
  k <- fft u ;;
  p <- vmul (map (fun kv =>
                    Cexp (Rscal (dt / 2) (Cdivr (Ci * RtoC (kv ^ 2)) (2 * TD))))
                 kk) k ;;
  r <- ifft p ;;
  Ok (map (fun z => Cmulr z (exp (dt / 2 * (- G / 2)))) r).

Definition opN (u : vec) (TN : R) (ui : vec) (dt : R) : result vec :=
  vmul (map (fun z => Cexp (Cmulr (Cdivr (RtoC dt * Ci) TN) (Cabs z ^ 2))) ui) u.

(** [g] is the global namespace the call runs in. *)
Definition P_mean_field (g : namespace) (u : vec) (TD TN G : R)
  (zz : list R) (dz : R) (kk : list R) (N : Z) (dt : R) : result vec :=
  Dcheck <- lookup_name (g ++ py_builtins) "Dcheck" ;;
  _ <- (if pyval_eqb Dcheck (PyStr "True")
        then FWHM1 <- FWHM zz (map (fun z => Cabs z ^ 2) u) ;; Ok tt
        else Ok tt) ;;
  iterM (Z.to_nat N)
    (fun u =>
       let ui := u in
       u <- opD u TD G kk dt ;;
       u <- opN u TN ui dt ;;
       opD u TD G kk dt)
    u.

Definition s (u : vec) (TN dz : R) : result vec :=
  f <- myfft (map (fun z => z * z)%C u) dz ;;
  Ok (map (fun x => Cdivr x TN) f).

Definition m (u : vec) (TN dz : R) : result vec :=
  f <- myfft (map (fun z => RtoC (Cabs z ^ 2)) u) dz ;;
  Ok (map (fun x => Cdivr x TN) f).

Definition A (u : vec) (TD TN dz : R) (ks : list R) (dk : R)
  (im : list (list Z)) (n : Z) : result mat :=
  mk <- m u TN dz ;;
  d <- np_full n (map (fun k => k ^ 2 / (2 * TD)) ks) ;;
  let D := np_diag d in
  g <- gather mk im ;;
  madd D (map (map (fun x => Cdivr (Rscal (2 * dk) x) (sqrt (2 * PI)))) g).

Definition B (u : vec) (TN dz dk : R) (ip : list (list Z)) : result mat :=
  sk <- s u TN dz ;;
  g <- gather sk ip ;;
  Ok (map (map (fun x => Cdivr (Rscal dk x) (sqrt (2 * PI)))) g).

Definition Q (u : vec) (TD TN dz : R) (ks : list R) (dk : R)
  (im ip : list (list Z)) (n : Z) : result mat :=
  a <- A u TD TN dz ks dk im n ;;
  b <- B u TN dz dk ip ;;
  np_block a b (mopp (transpose (mconj b))) (mopp (mconj a)).

(** The propagators are modelled at their default flags [UWcheck="False"],
    [MNcheck="False"]: the branches these guard only print. *)

Definition P_no_loss (u : vec) (TD TN dz : R) (kk ks : list R) (dk : R)
  (im ip : list (list Z)) (tf : Z) (dt : R) (n : Z)
  : result (vec * mat * mat) :=
  M <- np_zeros n ;;
  N <- np_zeros n ;;
  let K := identity (Z.to_nat (2 * n)) in
  '(u, K) <- iterM (Z.to_nat tf)
    (fun '(u, K) =>
       let ui := u in
       u <- opD u TD 0 kk dt ;;
       u <- opN u TN ui dt ;;
       u <- opD u TD 0 kk dt ;;
       q <- Q u TD TN dz ks dk im ip n ;;
       e <- expm (mscale (Ci * RtoC dt) q) ;;
       K <- mm e K ;;
       Ok (u, K))
    (u, K) ;;
  let U := top_left (Z.to_nat n) K in
  let W := top_right (Z.to_nat n) K in
  M <- mm U (transpose W) ;;
  N <- mm (mconj W) (transpose W) ;;
  Ok (u, M, N).

Definition P_loss (u : vec) (TD TN G dz : R) (kk ks : list R) (dk : R)
  (im ip : list (list Z)) (tf : Z) (dt : R) (n : Z)
  : result (vec * ndarray * ndarray) :=
  M <- np_zeros n ;;
  N <- np_zeros n ;;
  iterM (Z.to_nat tf)
    (fun '(u, M, N) =>
       let ui := u in
       u <- opD u TD G kk dt ;;
       u <- opN u TN ui dt ;;
       u <- opD u TD G kk dt ;;
       q <- Q u TD TN dz ks dk im ip n ;;
       K <- expm (mscale (Ci * RtoC dt) q) ;;
       let U := Arr2 (top_left (Z.to_nat n) K) in
       let W := Arr2 (top_right (Z.to_nat n) K) in
       M <- (Ok U @@ Ok M @@ Ok (nd_T U)
             + Ok W @@ Ok (nd_conj M) @@ Ok (nd_T W)
             + Ok W @@ Ok N @@ Ok (nd_T U)
             + Ok U @@ Ok (nd_T N) @@ Ok (nd_T W)
             + Ok U @@ Ok (nd_T W))%nd ;;
       N <- (Ok (nd_conj W) @@ Ok M @@ Ok (nd_T U)
             + Ok (nd_conj U) @@ Ok (nd_conj M) @@ Ok (nd_T W)
             + Ok (nd_conj U) @@ Ok N @@ Ok (nd_T U)
             + Ok (nd_conj W) @@ Ok (nd_T N) @@ Ok (nd_T W)
             + Ok (nd_conj W) @@ Ok (nd_T W))%nd ;;
       let M := nd_scale (1 - G * dt) M in
       let N := nd_scale (1 - G * dt) N in
       Ok (u, M, N))
    (u, Arr1 M, Arr1 N).

Definition P_Nico (u : vec) (TD TN G dz : R) (kk ks : list R) (dk : R)
  (im ip : list (list Z)) (tf : Z) (dt : R) (n : Z)
  : result (vec * mat * mat) :=
  M <- np_zeros n ;;
  N <- np_zeros n ;;
  let K := identity (Z.to_nat (2 * n)) in
  '(u, K) <- iterM (Z.to_nat tf)
    (fun '(u, K) =>
       let ui := u in
       u <- opD u TD G kk dt ;;
       u <- opN u TN ui dt ;;
       u <- opD u TD G kk dt ;;
       q <- Q u TD TN dz ks dk im ip n ;;
       e <- expm (mscale (Ci * RtoC dt) q) ;;
       K <- mm e K ;;
       Ok (u, K))
    (u, K) ;;
  let U := top_left (Z.to_nat n) K in
  let W := top_right (Z.to_nat n) K in
  M <- mm U (transpose W) ;;
  N <- mm (mconj W) (transpose W) ;;
  let M := mrscale (exp (- G * dt * IZR tf)) M in
  let N := mrscale (exp (- G * dt * IZR tf)) N in
  Ok (u, M, N).

(** [norm_check] prints two numbers; the model returns what has been
    printed together with the outcome of the call. *)
Definition norm_check (u : vec) (dz dk : R) : list C * result unit :=
  match dot u (map Cconj u) with
  | Err e => ([], Err e)
  | Ok d1 =>
      let out := [Cmulr d1 dz] in
      match myfft u dz with
      | Err e => (out, Err e)
      | Ok a =>
          match dot a (map Cconj a) with
          | Err e => (out, Err e)
          | Ok d2 => (out ++ [Cmulr d2 dk], Ok tt)
          end
      end
  end.

Definition expected_squeezing_g (n_phi : R) : R :=
  10 * np_log10
         (1 + 2 * n_phi ^ 2 / sqrt 3
          - (sqrt 2 * n_phi + 2 * sqrt 2 * n_phi ^ 3 / 3)
            / sqrt (1 + 2 * n_phi ^ 2 / 3)).

End kerrlib.

(** ** QSS.py: the grids and the index tables of the driver *)

(** [np.rint]: the nearest integer, ties to the even one. *)
Definition rint (x : R) : Z :=
  let f := Int_part x in
  let r := frac_part x in
  if Rlt_dec r (1 / 2) then f
  else if Rlt_dec (1 / 2) r then (f + 1)%Z
  else if Z.even f then f else (f + 1)%Z.

(** [np.clip(x, lo, hi)] is [minimum(hi, maximum(x, lo))]. *)
Definition clip (x lo hi : R) : R := Rmin hi (Rmax x lo).

(** [.astype(int)] of a float: truncation towards zero. *)
Definition astype_int (x : R) : Z :=
  if Rle_dec 0 x then Int_part x else (- Int_part (- x))%Z.

(** [np.linspace(a, b, n)] *)
Definition linspace (a b : R) (n : Z) : result (list R) :=
  if (n <? 0)%Z then Err ValueError
  else Ok (map (fun i => INR i * ((b - a) / (IZR n - 1)) + a)
             (seq 0 (Z.to_nat n))).

(** [np.fft.fftfreq(n, d)]: the integers [0 .. (n-1)//2] and then
    [-(n//2) .. -1], each times [1 / (n d)]. *)
Definition fftfreq (n : Z) (d : R) : list R :=
  let val := 1 / (IZR n * d) in
  let p1 := map Z.of_nat (seq 0 (Z.to_nat ((n - 1) / 2 + 1))) in
  let p2 := map (fun i => (Z.of_nat i - n / 2)%Z) (seq 0 (Z.to_nat (n / 2))) in
  map (fun i => IZR i * val) (p1 ++ p2).

(** [np.meshgrid(x, y)] *)
Definition meshgrid {T : Type} (x y : list T) : list (list T) * list (list T) :=
  (map (fun _ => x) y, map (fun yi => map (fun _ => yi) x) y).

(** An elementwise operation on two arrays of one shape. *)
Definition map2 {T U V : Type} (f : T -> U -> V) (a : list T) (b : list U)
  : list V :=
  map (fun p => f (fst p) (snd p)) (combine a b).

Module QSS.

Record qss : Type := mk_qss {
  c : R;
  zf : R;
  n : Z;
  zz : list R;
  dz : R;
  kk : list R;
  ks : list R;
  dk : R
}.

(** [qss.__init__] *)
Definition init (zf : R) (n : Z) : result qss :=
  zz <- linspace (- zf) zf n ;;
  z1 <- index1 zz 1 ;;
  z0 <- index1 zz 0 ;;
  let dz := z1 - z0 in
  let kk := map (fun f => f * (2 * PI)) (fftfreq n dz) in
  let ks := fftshift kk in
  k1 <- index1 kk 1 ;;
  k0 <- index1 kk 0 ;;
  let dk := k1 - k0 in
  Ok (mk_qss 299792458 zf n zz dz kk ks dk).

(** The block of [qss.evolution] that sets up the k-space index tables
    [(im, ip)]. *)
Definition index_tables (self : qss) : list (list Z) * list (list Z) :=
  let '(xx, yy) := meshgrid (ks self) (ks self) in
  let xx := map (map (fun x => x / dk self)) xx in
  let yy := map (map (fun y => y / dk self)) yy in
  let half := (IZR (n self) - 1) / 2 in
  let im := map2 (map2 (fun x y => IZR (rint (x - y)) + half)) xx yy in
  let ip := map2 (map2 (fun x y => IZR (rint (x + y)) + half)) xx yy in
  let im := map (map (fun x => astype_int (clip x 0 (IZR (n self) - 1)))) im in
  let ip := map (map (fun x => astype_int (clip x 0 (IZR (n self) - 1)))) ip in
  (im, ip).

(** [qss.evolution] called with a user array [u]; [TN] and [TD] are the
    optional overrides of the derived parameters. *)
Definition evolution (self : qss) (L G T0 P0 ng b2 g : R) (u : vec)
  (loss : bool) (TN TD : option R) (scale_factor : R)
  : result (vec * ndarray * ndarray) :=
  if negb (Z.of_nat (length u) =? n self)%Z then Err ValueError
  else
    let v := c self / ng in
    let TN := match TN with
              | None => 1 / (g * P0 * v) * scale_factor
              | Some t => t
              end in
    let TD := match TD with
              | None => (T0 * v) ^ 2 / (b2 * v ^ 3) * scale_factor
              | Some t => t
              end in
    let dt := dz self in
    let tf := rint (L / (v * dt) * scale_factor) in
    let '(im, ip) := index_tables self in
    if negb loss
    then '(u, M, N) <- kerrlib.P_no_loss u TD TN (dz self) (kk self) (ks self)
                         (dk self) im ip tf dt (n self) ;;
         Ok (u, Arr2 M, Arr2 N)
    else kerrlib.P_loss u TD TN G (dz self) (kk self) (ks self)
           (dk self) im ip tf dt (n self).

(** The argument [u] of [qss.evolution]: left at its default [None], one of
    the names of the built-in shapes, or an array. *)
Inductive pump : Type :=
| PumpNone
| PumpStr (name : string)
| PumpArray (u : vec).

(** The head of [qss.evolution]: the pump array that the argument [u]
    stands for and the duration [T0] converted for its shape. *)
Definition pump_shape (self : qss) (u : pump) (T0 : R) : result (vec * R) :=
  match u with
  | PumpNone =>
      Ok (map RtoC (kerrlib.gaussian (zz self)), T0 / (2 * sqrt (ln 2)))
  | PumpStr name =>
      if String.eqb name "Gaussian"
      then Ok (map RtoC (kerrlib.gaussian (zz self)), T0 / (2 * sqrt (ln 2)))
      else if String.eqb name "Rect"
      then Ok (map (fun k => RtoC (IZR k))
                 (kerrlib.rect (zz self) kerrlib.rect_default_l), T0)
      else if String.eqb name "Sech"
      then Ok (map RtoC (kerrlib.sech (zz self)),
               T0 / (2 * sqrt (1 + ln (sqrt 2))))
      else if String.eqb name "Lorentzian"
      then Ok (map RtoC (kerrlib.lorentzian (zz self)), T0)
      else Err ValueError
  | PumpArray u => Ok (u, T0)
  end.

(** [qss.evolution] for any argument [u]. *)
Definition evolution_pump (self : qss) (L G T0 P0 ng b2 g : R) (u : pump)
  (loss : bool) (TN TD : option R) (scale_factor : R)
  : result (vec * ndarray * ndarray) :=
  '(u, T0) <- pump_shape self u T0 ;;
  evolution self L G T0 P0 ng b2 g u loss TN TD scale_factor.

(** [qss.squeezing] *)
Definition squeezing (self : qss) (u_ev : vec) (M N : mat)
  : result (list R * list R) :=
  phi <- linspace 0 PI 100 ;;
  f <- kerrlib.myfft u_ev (dz self) ;;
  let f := map (fun z => Cdivr z (np_norm f)) f in
  r1 <- vm (map Cconj f) M ;;
  p1 <- dot r1 (map Cconj f) ;;
  r2 <- vm f N ;;
  p2 <- dot r2 (map Cconj f) ;;
  grid <- linspace 0 PI 100 ;;
  let q1 := map (fun x => (Cexp (Cmul (mkC 0 2) (RtoC x)) * p1)%C) grid in
  let q2 := p2 in
  let tp := map (fun q => (q + Cconj q + Cmul (RtoC 2) q2 + C1)%C) q1 in
  let sq := map (fun t => 10 * np_log10 (Re t)) tp in
  Ok (phi, sq).

End QSS.

(** ** The propagation engine as the specification describes it

    One transition of the state machine: a half dispersion/loss step, the
    nonlinear step whose reference is the field before that half step, a
    second half dispersion/loss step, the generator built from the new field,
    and the advance of the fluctuation state, which is what the variants
    differ in.  [engine_run] unfolds at its last transition. *)

Section Engine.

Variables (TD TN dz : R) (kk ks : list R) (dk : R) (im ip : list (list Z)).
Variables (dt : R) (n : Z).

Definition field_step (G : R) (u : vec) : result vec :=
  let reference := u in
  u1 <- kerrlib.opD u TD G kk dt ;;
  u2 <- kerrlib.opN u1 TN reference dt ;;
  kerrlib.opD u2 TD G kk dt.

Definition engine_step {F : Type} (G : R) (advance : mat -> F -> result F)
  (st : vec * F) : result (vec * F) :=
  u' <- field_step G (fst st) ;;
  q <- kerrlib.Q u' TD TN dz ks dk im ip n ;;
  f' <- advance q (snd st) ;;
  Ok (u', f').

Fixpoint engine_run {F : Type} (G : R) (advance : mat -> F -> result F)
  (k : nat) (init : vec * F) : result (vec * F) :=
  match k with
  | O => Ok init
  | S k' => st <- engine_run G advance k' init ;; engine_step G advance st
  end.

(** The fresh transfer matrix of one step. *)
Definition step_transfer (q : mat) : result mat :=
  expm (mscale (Ci * RtoC dt) q).

(** Lossless advance: the running product is multiplied on the left. *)
Definition accumulate (q K : mat) : result mat :=
  E <- step_transfer q ;; mm E K.

(** The moments read off a transfer matrix. *)
Definition moments_of (K : mat) : result (mat * mat) :=
  let U := top_left (Z.to_nat n) K in
  let W := top_right (Z.to_nat n) K in
  M <- mm U (transpose W) ;;
  N <- mm (mconj W) (transpose W) ;;
  Ok (M, N).

(** The accumulated-transfer-matrix computation with loss rate [G] in the
    field steps. *)
Definition accumulated_transfer (G : R) (u : vec) (tf : Z)
  : result (vec * mat * mat) :=
  _ <- np_zeros n ;;
  '(u', K) <- engine_run G accumulate (Z.to_nat tf)
                (u, identity (Z.to_nat (2 * n))) ;;
  '(M, N) <- moments_of K ;;
  Ok (u', M, N).

(** The two recursions for the moments of the lossy variant, on the blocks
    [U], [W] of the fresh transfer matrix.  [M_next] is the first assignment
    of the loop body.  In [N_next] the argument [Mr] is the pair moment on
    its right-hand side. *)
Definition M_next (U W M N : ndarray) : result ndarray :=
  (Ok U @@ Ok M @@ Ok (nd_T U)
   + Ok W @@ Ok (nd_conj M) @@ Ok (nd_T W)
   + Ok W @@ Ok N @@ Ok (nd_T U)
   + Ok U @@ Ok (nd_T N) @@ Ok (nd_T W)
   + Ok U @@ Ok (nd_T W))%nd.

Definition N_next (U W Mr N : ndarray) : result ndarray :=
  (Ok (nd_conj W) @@ Ok Mr @@ Ok (nd_T U)
   + Ok (nd_conj U) @@ Ok (nd_conj Mr) @@ Ok (nd_T W)
   + Ok (nd_conj U) @@ Ok N @@ Ok (nd_T U)
   + Ok (nd_conj W) @@ Ok (nd_T N) @@ Ok (nd_T W)
   + Ok (nd_conj W) @@ Ok (nd_T W))%nd.

(** The simultaneous recursion of the specification: both right-hand sides
    read the moments from before the step. *)
Definition simultaneous_advance (G : R) (q : mat) (MN : ndarray * ndarray)
  : result (ndarray * ndarray) :=
  K <- step_transfer q ;;
  let U := Arr2 (top_left (Z.to_nat n) K) in
  let W := Arr2 (top_right (Z.to_nat n) K) in
  M' <- M_next U W (fst MN) (snd MN) ;;
  N' <- N_next U W (fst MN) (snd MN) ;;
  Ok (nd_scale (1 - G * dt) M', nd_scale (1 - G * dt) N').

(** The recursion as [P_loss] runs it: [N] is assigned after [M] and reads
    the new [M]. *)
Definition sequential_advance (G : R) (q : mat) (MN : ndarray * ndarray)
  : result (ndarray * ndarray) :=
  K <- step_transfer q ;;
  let U := Arr2 (top_left (Z.to_nat n) K) in
  let W := Arr2 (top_right (Z.to_nat n) K) in
  M' <- M_next U W (fst MN) (snd MN) ;;
  N' <- N_next U W M' (snd MN) ;;
  Ok (nd_scale (1 - G * dt) M', nd_scale (1 - G * dt) N').

End Engine.

(** [np.zeros((r, c))] and hermiticity, symmetry and block shape of a
    matrix. *)
Definition zeros2 (r c : nat) : mat := mk_mat r c (fun _ _ => C0).

Definition is_matrix (r c : nat) (a : mat) : Prop :=
  length a = r /\ Forall (fun row => length row = c) a.

Definition hermitian (d : nat) (a : mat) : Prop :=
  is_matrix d d a /\
  forall i j, (i < d)%nat -> (j < d)%nat -> entry a j i = Cconj (entry a i j).

Definition symmetric (d : nat) (a : mat) : Prop :=
  is_matrix d d a /\
  forall i j, (i < d)%nat -> (j < d)%nat -> entry a j i = entry a i j.

(** The round trip of the transforms on a grid of spacing [dz], with the
    reciprocal spacing [dk = 2 pi / (n dz)]. *)
Definition round_trip (x : vec) (dz : R) : result vec :=
  let n := length x in
  k <- kerrlib.myfft x dz ;;
  kerrlib.myifft k (2 * PI / (INR n * dz)) (Z.of_nat n).

(** The unit impulse at position [0]. *)
Definition impulse (n : nat) : vec :=
  match n with
  | O => []
  | S k => C1 :: repeat C0 k
  end.

(** An index table of a grid of [n] points: [n] rows of [n] indices, each
    within [0 .. n-1]. *)
Definition index_table (n : nat) (t : list (list Z)) : Prop :=
  length t = n /\
  Forall (fun row => length row = n /\
                     Forall (fun i => (0 <= i < Z.of_nat n)%Z) row) t.

(** A matrix of size [2n] whose two off-diagonal [n x n] blocks vanish. *)
Definition off_block (n i j : nat) : Prop :=
  (i < n /\ n <= j)%nat \/ (j < n /\ n <= i)%nat.

Definition block_diagonal (n : nat) (K : mat) : Prop :=
  is_matrix (2 * n) (2 * n) K /\
  forall i j, (i < 2 * n)%nat -> (j < 2 * n)%nat -> off_block n i j ->
              entry K i j = C0.

(** The entry [t[i, j]] of an index table. *)
Definition table_get (t : list (list Z)) (i j : nat) : Z :=
  nth j (nth i t []) 0%Z.

(** The arrays [mk] and [sk] that [A] and [B] gather from: the shifted,
    scaled transforms of [|u|^2] and of [u^2]. *)
Definition spectrum (x : vec) (TN dz : R) : vec :=
  map (fun y => Cdivr y TN)
    (fftshift (map (fun y => Cdivr (Cmulr y dz) (sqrt (2 * PI)))
                 (map (dft_entry (-1) x) (seq 0 (length x))))).

Definition intensity (u : vec) : vec := map (fun z => RtoC (Cabs z ^ 2)) u.
Definition square (u : vec) : vec := map (fun z => z * z)%C u.

(** The generator assembled from its blocks [a] and [b], entry by entry. *)
Definition generator_entry (n : nat) (a b : nat -> nat -> C) (i j : nat) : C :=
  if (i <? n)%nat
  then if (j <? n)%nat then a i j else b i (j - n)%nat
  else if (j <? n)%nat then (- Cconj (b j (i - n)%nat))%C
       else (- Cconj (a (i - n) (j - n))%nat)%C.

(** The dispersion diagonal [ks ** 2 / (2 TD)]. *)
Definition dispersion (TD : R) (ks : list R) : list R :=
  map (fun k => k ^ 2 / (2 * TD)) ks.

(** An array of real numbers stored as complex ones. *)
Definition real_valued (x : vec) : Prop := Forall (fun z => Im z = 0) x.

(** The index of the grid point nearest to the offset [k] from the centre
    [c] of a grid of [2c + 1] points, clipped into the grid. *)
Definition clip_index (c : nat) (k : Z) : Z :=
  Z.min (2 * Z.of_nat c) (Z.max (k + Z.of_nat c) 0).

(** The tables the driver builds, entry by entry: the difference table and
    the sum table of the centred grid. *)
Definition difference_table (c : nat) (t : list (list Z)) : Prop :=
  index_table (2 * c + 1) t /\
  forall i j, (i < 2 * c + 1)%nat -> (j < 2 * c + 1)%nat ->
    table_get t i j = clip_index c (Z.of_nat j - Z.of_nat i).

Definition sum_table (c : nat) (t : list (list Z)) : Prop :=
  index_table (2 * c + 1) t /\
  forall i j, (i < 2 * c + 1)%nat -> (j < 2 * c + 1)%nat ->
    table_get t i j
    = clip_index c ((Z.of_nat j - Z.of_nat c) + (Z.of_nat i - Z.of_nat c)).

(** The centred frequency grid of [2c + 1] points in units of its spacing:
    the offsets [-c .. c]. *)
Definition centred_grid (c : nat) (self : QSS.qss) : Prop :=
  QSS.n self = Z.of_nat (2 * c + 1)
  /\ length (QSS.ks self) = (2 * c + 1)%nat
  /\ forall p, (p < 2 * c + 1)%nat ->
       nth p (QSS.ks self) 0 / QSS.dk self
       = IZR (Z.of_nat p - Z.of_nat c).

(** ** Quantities used to state further properties *)

(** The discrete Fourier sums of an array, as a list. *)
Definition dft (sgn : R) (x : vec) : vec :=
  map (dft_entry sgn x) (seq 0 (length x)).

(** The energy [sum |v_k|^2] of an array; [np_norm] is its square root. *)
Definition energy (v : vec) : R :=
  fold_right (fun z acc => Cabs z ^ 2 + acc) 0 v.

(** The array [[f 0; ...; f (n - 1)]]. *)
Definition tabulate (n : nat) (f : nat -> C) : vec := map f (seq 0 n).

(** The phase and the damping that [opD] applies in reciprocal space. *)
Definition dispersion_phase (TD dt kv : R) : C :=
  Cexp (Rscal (dt / 2) (Cdivr (Ci * RtoC (kv ^ 2)) (2 * TD))).

Definition damping (G dt : R) : R := exp (dt / 2 * (- G / 2)).

(** The phase that [opN] applies at a point where the reference field is
    [z]. *)
Definition kerr_phase (TN dt : R) (z : C) : C :=
  Cexp (Cmulr (Cdivr (RtoC dt * Ci) TN) (Cabs z ^ 2)).

(** The differences of signs around the level [h] between the neighbours of
    a profile, as [FWHM] forms them. *)
Definition crossings (h : R) (Y : list R) : list R :=
  map (fun p => Rsign (h - fst p) - Rsign (h - snd p))
      (combine (removelast Y) (tl Y)).

(** The positions, counted from [s], at which [p] holds. *)
Definition where_from (s : nat) (p : R -> bool) (d : list R) : list Z :=
  map (fun q => Z.of_nat (fst q))
      (filter (fun q => p (snd q)) (combine (seq s (length d)) d)).

(** A top-hat profile: [a] points at [lo], then [b] at [hi], then [c] at
    [lo]. *)
Definition top_hat (lo hi : R) (a b c : nat) : list R :=
  repeat lo a ++ repeat hi b ++ repeat lo c.

(** Python's reading of an index into an array of [n] entries: a negative
    index counts from the end. *)
Definition wrap_index (n : nat) (k : Z) : Z :=
  if (k <? 0)%Z then (k + Z.of_nat n)%Z else k.

(** Some entry of the table [t] is not an index of an array of [n]
    entries. *)
Definition falls_off (n : nat) (t : list (list Z)) : Prop :=
  exists row k, In row t /\ In k row
                /\ ((k < - Z.of_nat n)%Z \/ (Z.of_nat n <= k)%Z).

(** The frequency grid of an even number [2c] of points in units of its
    spacing: the offsets [-c .. c - 1], with the zero frequency at
    position [c]. *)
Definition even_grid (c : nat) (self : QSS.qss) : Prop :=
  QSS.n self = Z.of_nat (2 * c)
  /\ length (QSS.ks self) = (2 * c)%nat
  /\ forall p, (p < 2 * c)%nat ->
       nth p (QSS.ks self) 0 / QSS.dk self = IZR (Z.of_nat p - Z.of_nat c).

(** The index that the driver's tables hold for the frequency offset [k] on
    a grid of [2c] points. *)
Definition clip_index_even (c : nat) (k : Z) : Z :=
  Z.min (2 * Z.of_nat c - 1) (Z.max (k + Z.of_nat c - 1) 0).
Lemma C_eq (a b : C) : Re a = Re b -> Im a = Im b -> a = b.
Proof. destruct a, b; simpl; intros -> ->; reflexivity. Qed.

Ltac csimp := apply C_eq; simpl; try ring; try lra.

Lemma Cadd_0_l a : (C0 + a)%C = a.
Proof. csimp. Qed.
Lemma Cadd_0_r a : (a + C0)%C = a.
Proof. csimp. Qed.
Lemma Cadd_comm a b : (a + b)%C = (b + a)%C.
Proof. csimp. Qed.
Lemma Cadd_assoc a b c : (a + (b + c))%C = (a + b + c)%C.
Proof. csimp. Qed.
Lemma Cmul_0_l a : (C0 * a)%C = C0.
Proof. csimp. Qed.
Lemma Cmul_0_r a : (a * C0)%C = C0.
Proof. csimp. Qed.
Lemma Cmul_1_l a : (C1 * a)%C = a.
Proof. csimp. Qed.
Lemma Cmul_1_r a : (a * C1)%C = a.
Proof. csimp. Qed.
Lemma Cmul_comm a b : (a * b)%C = (b * a)%C.
Proof. csimp. Qed.
Lemma Cmul_assoc a b c : (a * (b * c))%C = (a * b * c)%C.
Proof. csimp. Qed.
Lemma Cmul_add_distr_r a b c : ((a + b) * c)%C = (a * c + b * c)%C.
Proof. csimp. Qed.
Lemma Cmul_add_distr_l a b c : (a * (b + c))%C = (a * b + a * c)%C.
Proof. csimp. Qed.
Lemma Copp_def a : (a + - a)%C = C0.
Proof. csimp. Qed.
Lemma Copp_0 : (- C0)%C = C0.
Proof. csimp. Qed.
Lemma Cconj_0 : Cconj C0 = C0.
Proof. csimp. Qed.
Lemma Cconj_add a b : Cconj (a + b) = (Cconj a + Cconj b)%C.
Proof. csimp. Qed.
Lemma Cconj_mul a b : Cconj (a * b) = (Cconj a * Cconj b)%C.
Proof. csimp. Qed.
Lemma Cconj_involutive a : Cconj (Cconj a) = a.
Proof. csimp. Qed.
Lemma Cconj_RtoC x : Cconj (RtoC x) = RtoC x.
Proof. csimp. Qed.
Lemma Cmulr_0 x : Cmulr C0 x = C0.
Proof. csimp. Qed.
Lemma Cdivr_0 x : Cdivr C0 x = C0.
Proof. apply C_eq; simpl; unfold Rdiv; ring. Qed.

Lemma C_ring_theory :
  ring_theory C0 C1 Cadd Cmul Csub Copp (@eq C).
Proof.
  constructor; intros; try reflexivity; csimp.
Qed.

Add Ring C_ring : C_ring_theory.

Lemma Cexp_0 : Cexp C0 = C1.
Proof.
  unfold Cexp; simpl. rewrite exp_0, cos_0, sin_0. csimp.
Qed.

Lemma Cexp_add a b : Cexp (a + b) = (Cexp a * Cexp b)%C.
Proof.
  unfold Cexp; apply C_eq; simpl;
    rewrite exp_plus, ?cos_plus, ?sin_plus; ring.
Qed.


(** ** The error monad and loops *)

Lemma bind_assoc {A B D : Type} (c : result A) (f : A -> result B)
  (g : B -> result D) :
  bind (bind c f) g = bind c (fun a => bind (f a) g).
Proof. destruct c; reflexivity. Qed.

Lemma bind_ext {A B : Type} (c : result A) (f g : A -> result B) :
  (forall a, f a = g a) -> bind c f = bind c g.
Proof. intros H; destruct c; simpl; auto. Qed.

Lemma iterM_ext {St : Type} (f g : St -> result St) :
  (forall s, f s = g s) -> forall k s, iterM k f s = iterM k g s.
Proof.
  intros H k; induction k as [|k IH]; intros s; simpl; auto.
  rewrite H. apply bind_ext; auto.
Qed.

Lemma iterM_last {St : Type} (f : St -> result St) k s :
  iterM (S k) f s = bind (iterM k f s) f.
Proof.
  revert s; induction k as [|k IH]; intros s.
  - simpl. destruct (f s); reflexivity.
  - change (iterM (S (S k)) f s) with (bind (f s) (iterM (S k) f)).
    change (iterM (S k) f s) with (bind (f s) (iterM k f)).
    rewrite bind_assoc. apply bind_ext; intros a. apply IH.
Qed.

Section EngineFacts.

Variables (TD TN dz : R) (kk ks : list R) (dk : R) (im ip : list (list Z)).
Variables (dt : R) (n : Z).

Lemma engine_run_iterM {F : Type} G (advance : mat -> F -> result F) k init :
  iterM k (engine_step TD TN dz kk ks dk im ip dt n G advance) init
  = engine_run TD TN dz kk ks dk im ip dt n G advance k init.
Proof.
  induction k as [|k IH]; [reflexivity|].
  rewrite iterM_last, IH. reflexivity.
Qed.

End EngineFacts.

Ltac split_binds :=
  repeat match goal with
         | |- context [bind ?c _] =>
             match c with
             | context [bind _ _] => fail 1
             | _ => destruct c; simpl; try reflexivity
             end
         end.

(** ** Sums and matrices *)

Lemma Csum_ext n f g :
  (forall k, (k < n)%nat -> f k = g k) -> Csum n f = Csum n g.
Proof.
  induction n as [|n IH]; intros H; simpl; [reflexivity|].
  rewrite IH, H by (intros; try apply H; lia). reflexivity.
Qed.

Lemma Csum_zero n f :
  (forall k, (k < n)%nat -> f k = C0) -> Csum n f = C0.
Proof.
  induction n as [|n IH]; intros H; simpl; [reflexivity|].
  rewrite IH, H by (intros; try apply H; lia). apply Cadd_0_l.
Qed.

Lemma Csum_single n f j :
  (j < n)%nat -> (forall k, (k < n)%nat -> k <> j -> f k = C0) ->
  Csum n f = f j.
Proof.
  induction n as [|n IH]; intros Hj H; [lia|]. simpl.
  destruct (Nat.eq_dec j n) as [->|Hne].
  - rewrite Csum_zero by (intros; apply H; lia). apply Cadd_0_l.
  - rewrite IH by (try lia; intros; apply H; lia).
    rewrite (H n) by lia. apply Cadd_0_r.
Qed.

Lemma Csum_conj n f : Cconj (Csum n f) = Csum n (fun k => Cconj (f k)).
Proof.
  induction n as [|n IH]; simpl; [apply Cconj_0|].
  rewrite Cconj_add, IH. reflexivity.
Qed.

Lemma length_mk_mat r c f : length (mk_mat r c f) = r.
Proof. unfold mk_mat. rewrite length_map, length_seq. reflexivity. Qed.

Lemma nth_map_seq {T : Type} (g : nat -> T) d len i :
  (i < len)%nat -> nth i (map g (seq 0 len)) d = g i.
Proof.
  intros H. rewrite (nth_indep _ d (g 0%nat)) by (rewrite length_map, length_seq; lia).
  rewrite (map_nth g (seq 0 len) 0%nat i), seq_nth by lia. reflexivity.
Qed.

Lemma entry_mk_mat r c f i j :
  (i < r)%nat -> (j < c)%nat -> entry (mk_mat r c f) i j = f i j.
Proof.
  intros Hi Hj. unfold entry, mk_mat.
  rewrite (nth_map_seq (fun i => map (fun j => f i j) (seq 0 c))) by lia.
  apply nth_map_seq; lia.
Qed.

Lemma ncols_mk_mat r c f : (0 < r)%nat -> ncols (mk_mat r c f) = c.
Proof.
  intros H. destruct r as [|r]; [lia|]. unfold mk_mat, ncols.
  simpl. rewrite length_map, length_seq. reflexivity.
Qed.

Lemma mk_mat_ext r c f g :
  (forall i j, (i < r)%nat -> (j < c)%nat -> f i j = g i j) ->
  mk_mat r c f = mk_mat r c g.
Proof.
  intros H. unfold mk_mat. apply map_ext_in; intros i Hi.
  apply map_ext_in; intros j Hj. apply in_seq in Hi, Hj. apply H; lia.
Qed.

Lemma is_matrix_mk_mat r c f : is_matrix r c (mk_mat r c f).
Proof.
  split; [apply length_mk_mat|]. unfold mk_mat. apply Forall_forall.
  intros row Hin. apply in_map_iff in Hin. destruct Hin as [i [<- _]].
  rewrite length_map, length_seq. reflexivity.
Qed.

Lemma map_seq_shift {T : Type} (g : nat -> T) a len :
  map g (seq a len) = map (fun j => g (a + j)%nat) (seq 0 len).
Proof.
  revert a; induction len as [|len IH]; intros a; simpl; [reflexivity|].
  rewrite Nat.add_0_r. f_equal.
  rewrite (IH (S a)), <- (seq_shift len 0), map_map.
  apply map_ext; intros j. f_equal. lia.
Qed.

Lemma firstn_seq k a len : firstn k (seq a len) = seq a (Nat.min k len).
Proof.
  revert a len; induction k as [|k IH]; intros a [|len]; simpl; try reflexivity.
  f_equal. apply IH.
Qed.

Lemma top_left_mk_mat k r c f :
  (k <= r)%nat -> (k <= c)%nat -> top_left k (mk_mat r c f) = mk_mat k k f.
Proof.
  intros Hr Hc. unfold top_left, mk_mat.
  rewrite firstn_map, firstn_seq, Nat.min_l, map_map by lia.
  apply map_ext; intros i.
  rewrite firstn_map, firstn_seq, Nat.min_l by lia. reflexivity.
Qed.

Lemma top_right_mk_mat k r c f :
  (k <= r)%nat -> (2 * k <= c)%nat ->
  top_right k (mk_mat r c f) = mk_mat k k (fun i j => f i (k + j)%nat).
Proof.
  intros Hr Hc. unfold top_right, mk_mat.
  rewrite firstn_map, firstn_seq, Nat.min_l, map_map by lia.
  apply map_ext; intros i.
  rewrite skipn_map, skipn_seq, firstn_map, firstn_seq, Nat.min_l by lia.
  replace (2 * k - k)%nat with k by lia. simpl.
  apply (map_seq_shift (fun j => f i j)).
Qed.

Lemma transpose_mk_mat r c f :
  (0 < r)%nat -> transpose (mk_mat r c f) = mk_mat c r (fun i j => f j i).
Proof.
  intros Hr. unfold transpose, nrows.
  rewrite ncols_mk_mat, length_mk_mat by lia.
  apply mk_mat_ext; intros i j Hi Hj. apply entry_mk_mat; lia.
Qed.

Lemma mconj_mk_mat r c f :
  mconj (mk_mat r c f) = mk_mat r c (fun i j => Cconj (f i j)).
Proof.
  unfold mconj, mk_mat. rewrite map_map. apply map_ext; intros i.
  rewrite map_map. reflexivity.
Qed.

Lemma mm_mk_mat r c d f g :
  (0 < r)%nat -> (0 < c)%nat ->
  mm (mk_mat r c f) (mk_mat c d g)
  = Ok (mk_mat r d (fun i j => Csum c (fun k => f i k * g k j)%C)).
Proof.
  intros Hr Hc. unfold mm, nrows.
  rewrite !length_mk_mat, !ncols_mk_mat, Nat.eqb_refl by lia.
  f_equal. apply mk_mat_ext; intros i j Hi Hj.
  apply Csum_ext; intros k Hk. rewrite !entry_mk_mat by lia. reflexivity.
Qed.

Lemma np_zeros_nat k : np_zeros (Z.of_nat k) = Ok (repeat C0 k).
Proof.
  unfold np_zeros. destruct (Z.ltb_spec (Z.of_nat k) 0); [lia|].
  rewrite Nat2Z.id. reflexivity.
Qed.

Lemma moments_of_identity k :
  moments_of (Z.of_nat k) (identity (Z.to_nat (2 * Z.of_nat k)))
  = Ok (zeros2 k k, zeros2 k k).
Proof.
  unfold moments_of. rewrite Nat2Z.id.
  replace (Z.to_nat (2 * Z.of_nat k)) with (2 * k)%nat by lia.
  destruct k as [|k]; [reflexivity|].
  unfold identity.
  rewrite top_left_mk_mat, top_right_mk_mat by lia.
  rewrite transpose_mk_mat, mconj_mk_mat by lia.
  rewrite !mm_mk_mat by lia. cbn [bind]. unfold zeros2.
  f_equal. f_equal; apply mk_mat_ext; intros i j Hi Hj;
    apply Csum_zero; intros l Hl;
    (destruct (Nat.eqb_spec j (S k + l)); [lia|]);
    rewrite ?Cconj_0; ring.
Qed.

(** ** The three propagators are runs of the engine *)

Section Variants.

Variables (TD TN dz : R) (kk ks : list R) (dk : R) (im ip : list (list Z)).
Variables (dt : R) (n : Z).

Let run {F : Type} := @engine_run TD TN dz kk ks dk im ip dt n F.

Lemma P_no_loss_accumulated u tf :
  kerrlib.P_no_loss u TD TN dz kk ks dk im ip tf dt n
  = accumulated_transfer TD TN dz kk ks dk im ip dt n 0 u tf.
Proof.
  unfold kerrlib.P_no_loss, accumulated_transfer.
  destruct (np_zeros n) as [z|e]; [|reflexivity]. cbn [bind].
  rewrite <- engine_run_iterM.
  rewrite (iterM_ext _ (engine_step TD TN dz kk ks dk im ip dt n 0 (accumulate dt))).
  - destruct (iterM _ _ _) as [[u' K]|e]; [|reflexivity]. cbn [bind].
    unfold moments_of. split_binds.
  - intros [u0 K0]. unfold engine_step, field_step, accumulate, step_transfer.
    cbn [fst snd]. split_binds.
Qed.

Lemma P_Nico_accumulated G u tf :
  kerrlib.P_Nico u TD TN G dz kk ks dk im ip tf dt n
  = ('(u', M, N) <- accumulated_transfer TD TN dz kk ks dk im ip dt n G u tf ;;
     Ok (u', mrscale (exp (- G * dt * IZR tf)) M,
             mrscale (exp (- G * dt * IZR tf)) N)).
Proof.
  unfold kerrlib.P_Nico, accumulated_transfer.
  destruct (np_zeros n) as [z|e]; [|reflexivity]. cbn [bind].
  rewrite <- engine_run_iterM.
  rewrite (iterM_ext _ (engine_step TD TN dz kk ks dk im ip dt n G (accumulate dt))).
  - destruct (iterM _ _ _) as [[u' K]|e]; [|reflexivity]. cbn [bind].
    unfold moments_of. split_binds.
  - intros [u0 K0]. unfold engine_step, field_step, accumulate, step_transfer.
    cbn [fst snd]. split_binds.
Qed.

Lemma iterM_assoc_state {X Y Z : Type}
  (f : X * Y * Z -> result (X * Y * Z)) (g : X * (Y * Z) -> result (X * (Y * Z))) :
  (forall x y z,
      g (x, (y, z)) = ('(x', y', z') <- f (x, y, z) ;; Ok (x', (y', z')))) ->
  forall k x y z,
    iterM k g (x, (y, z))
    = ('(x', y', z') <- iterM k f (x, y, z) ;; Ok (x', (y', z'))).
Proof.
  intros H k; induction k as [|k IH]; intros x y z; [reflexivity|].
  cbn [iterM]. rewrite H.
  destruct (f (x, y, z)) as [[[x' y'] z']|e]; [|reflexivity].
  cbn [bind]. apply IH.
Qed.

Lemma P_loss_sequential G u tf :
  kerrlib.P_loss u TD TN G dz kk ks dk im ip tf dt n
  = (M0 <- np_zeros n ;;
     N0 <- np_zeros n ;;
     '(u', MN) <- run G (sequential_advance dt n G) (Z.to_nat tf)
                    (u, (Arr1 M0, Arr1 N0)) ;;
     Ok (u', fst MN, snd MN)).
Proof.
  unfold kerrlib.P_loss, run.
  destruct (np_zeros n) as [z|e]; [|reflexivity]. cbn [bind].
  rewrite <- engine_run_iterM.
  rewrite (iterM_assoc_state
             (fun '(u, M, N) =>
                let ui := u in
                u <- kerrlib.opD u TD G kk dt ;;
                u <- kerrlib.opN u TN ui dt ;;
                u <- kerrlib.opD u TD G kk dt ;;
                q <- kerrlib.Q u TD TN dz ks dk im ip n ;;
                K <- expm (mscale (Ci * RtoC dt) q) ;;
                let U := Arr2 (top_left (Z.to_nat n) K) in
                let W := Arr2 (top_right (Z.to_nat n) K) in
                M <- (Ok U @@ Ok M @@ Ok (nd_T U)
                      + Ok W @@ Ok (nd_conj M) @@ Ok (nd_T W)
                      + Ok W @@ Ok N @@ Ok (nd_T U)
                      + Ok U @@ Ok (nd_T N) @@ Ok (nd_T W)
                      + Ok U @@ Ok (nd_T W))%nd ;;
                N <- (Ok (nd_conj W) @@ Ok M @@ Ok (nd_T U)
                      + Ok (nd_conj U) @@ Ok (nd_conj M) @@ Ok (nd_T W)
                      + Ok (nd_conj U) @@ Ok N @@ Ok (nd_T U)
                      + Ok (nd_conj W) @@ Ok (nd_T N) @@ Ok (nd_T W)
                      + Ok (nd_conj W) @@ Ok (nd_T W))%nd ;;
                let M := nd_scale (1 - G * dt) M in
                let N := nd_scale (1 - G * dt) N in
                Ok (u, M, N))).
  - destruct (iterM _ _ (u, Arr1 z, Arr1 z)) as [[[u' M] N]|e]; reflexivity.
  - intros u0 M N. unfold engine_step, field_step, sequential_advance,
      step_transfer, M_next, N_next. cbn [fst snd].
    destruct (kerrlib.opD u0 TD G kk dt) as [u1|]; [|reflexivity]. cbn [bind].
    destruct (kerrlib.opN u1 TN u0 dt) as [u2|]; [|reflexivity]. cbn [bind].
    destruct (kerrlib.opD u2 TD G kk dt) as [u3|]; [|reflexivity]. cbn [bind].
    destruct (kerrlib.Q u3 TD TN dz ks dk im ip n) as [q|]; [|reflexivity].
    cbn [bind].
    destruct (expm _) as [K|]; [|reflexivity]. cbn [bind].
    match goal with |- bind (bind ?c _) _ = _ => destruct c as [M'|] end;
      [|reflexivity].
    cbn [bind].
    match goal with |- bind (bind ?c _) _ = _ => destruct c as [N'|] end;
      reflexivity.
Qed.

End Variants.

Lemma top_blocks_identity k :
  top_left k (identity (2 * k)) = identity k
  /\ top_right k (identity (2 * k)) = zeros2 k k.
Proof.
  unfold identity. rewrite top_left_mk_mat, top_right_mk_mat by lia.
  split; [reflexivity|]. apply mk_mat_ext; intros i j Hi Hj.
  destruct (Nat.eqb_spec i (k + j)); [lia | reflexivity].
Qed.

Lemma mrscale_1 a : mrscale 1 a = a.
Proof.
  unfold mrscale. rewrite <- (map_id a) at 2. apply map_ext; intros row.
  rewrite <- (map_id row) at 2. apply map_ext; intros z.
  apply C_eq; simpl; ring.
Qed.

(** C4.  [P_no_loss] runs the engine from the identity of size [2n]; each
    transition multiplies the transfer matrix on the left by
    [expm(i dt Q)] of the new field; the moments returned are [U @ W.T] and
    [conj(W) @ W.T] for the top-left and top-right blocks [U], [W] of the
    final transfer matrix.  With no step the transfer matrix is the identity,
    whose blocks are [U = I] and [W = 0], and both moments are zero. *)
Theorem P_no_loss_transfer_matrix
  (TD TN dz : R) (kk ks : list R) (dk : R) (im ip : list (list Z)) (dt : R)
  (n : nat) (u : vec) (tf : Z) :
  let run := fun k =>
    engine_run TD TN dz kk ks dk im ip dt (Z.of_nat n) 0 (accumulate dt) k
      (u, identity (2 * n)) in
  run O = Ok (u, identity (2 * n))
  /\ (forall k,
        run (S k)
        = ('(uk, K) <- run k ;;
           u' <- field_step TD TN kk dt 0 uk ;;
           q <- kerrlib.Q u' TD TN dz ks dk im ip (Z.of_nat n) ;;
           E <- expm (mscale (Ci * RtoC dt) q) ;;
           K' <- mm E K ;;
           Ok (u', K')))
  /\ kerrlib.P_no_loss u TD TN dz kk ks dk im ip tf dt (Z.of_nat n)
     = ('(u', K) <- run (Z.to_nat tf) ;;
        let U := top_left n K in
        let W := top_right n K in
        M <- mm U (transpose W) ;;
        N <- mm (mconj W) (transpose W) ;;
        Ok (u', M, N))
  /\ top_left n (identity (2 * n)) = identity n
  /\ top_right n (identity (2 * n)) = zeros2 n n
  /\ kerrlib.P_no_loss u TD TN dz kk ks dk im ip 0 dt (Z.of_nat n)
     = Ok (u, zeros2 n n, zeros2 n n).
Proof.
  intros run. split; [reflexivity|]. split.
  - intros k. unfold run. cbn [engine_run].
    apply bind_ext; intros [uk K]. unfold engine_step, accumulate, step_transfer.
    cbn [fst snd]. split_binds.
  - assert (H2 : Z.to_nat (2 * Z.of_nat n) = (2 * n)%nat) by lia.
    split; [|split; [apply top_blocks_identity|split;
                       [apply top_blocks_identity|]]].
    + rewrite P_no_loss_accumulated. unfold accumulated_transfer, run.
      rewrite np_zeros_nat, H2. cbn [bind].
      apply bind_ext; intros [u' K]. unfold moments_of. rewrite Nat2Z.id.
      split_binds.
    + rewrite P_no_loss_accumulated. unfold accumulated_transfer.
      rewrite np_zeros_nat. cbn [bind Z.to_nat engine_run].
      rewrite moments_of_identity. reflexivity.
Qed.

(** C5.  Each propagator is a run of the engine, whose transition applies in
    this order: the half dispersion/loss step, the nonlinear step with the
    field from before that half step as its reference, the second half
    dispersion/loss step, the generator [Q] of the resulting field, and then
    the advance of the variant.  [P_no_loss] uses loss rate [0] in the half
    steps, [P_loss] and [P_Nico] use [G]. *)
Theorem split_step_order
  (TD TN G dz : R) (kk ks : list R) (dk : R) (im ip : list (list Z)) (dt : R)
  (n : Z) (u : vec) (tf : Z) :
  (forall (F : Type) (g : R) (advance : mat -> F -> result F) (v : vec) (s : F),
      engine_step TD TN dz kk ks dk im ip dt n g advance (v, s)
      = (let ui := v in
         v1 <- kerrlib.opD v TD g kk dt ;;
         v2 <- kerrlib.opN v1 TN ui dt ;;
         v3 <- kerrlib.opD v2 TD g kk dt ;;
         q <- kerrlib.Q v3 TD TN dz ks dk im ip n ;;
         s' <- advance q s ;;
         Ok (v3, s')))
  /\ kerrlib.P_no_loss u TD TN dz kk ks dk im ip tf dt n
     = (_ <- np_zeros n ;;
        '(u', K) <- engine_run TD TN dz kk ks dk im ip dt n 0 (accumulate dt)
                      (Z.to_nat tf) (u, identity (Z.to_nat (2 * n))) ;;
        '(M, N) <- moments_of n K ;;
        Ok (u', M, N))
  /\ kerrlib.P_loss u TD TN G dz kk ks dk im ip tf dt n
     = (M0 <- np_zeros n ;;
        N0 <- np_zeros n ;;
        '(u', MN) <- engine_run TD TN dz kk ks dk im ip dt n G
                       (sequential_advance dt n G) (Z.to_nat tf)
                       (u, (Arr1 M0, Arr1 N0)) ;;
        Ok (u', fst MN, snd MN))
  /\ kerrlib.P_Nico u TD TN G dz kk ks dk im ip tf dt n
     = (_ <- np_zeros n ;;
        '(u', K) <- engine_run TD TN dz kk ks dk im ip dt n G (accumulate dt)
                      (Z.to_nat tf) (u, identity (Z.to_nat (2 * n))) ;;
        '(M, N) <- moments_of n K ;;
        Ok (u', mrscale (exp (- G * dt * IZR tf)) M,
                mrscale (exp (- G * dt * IZR tf)) N)).
Proof.
  split; [|split; [|split]].
  - intros F g advance v s. unfold engine_step, field_step. cbn [fst snd].
    split_binds.
  - apply P_no_loss_accumulated.
  - apply P_loss_sequential.
  - rewrite P_Nico_accumulated. unfold accumulated_transfer.
    destruct (np_zeros n); [|reflexivity]. cbn [bind].
    destruct (engine_run _ _ _ _ _ _ _ _ _ _ _ _ _ _) as [[u' K]|];
      [|reflexivity].
    cbn [bind]. destruct (moments_of n K) as [[M N]|]; reflexivity.
Qed.

(** C7.  [P_Nico] is the accumulated-transfer-matrix computation of
    [P_no_loss] with the loss rate [G] in place of [0] in the field steps,
    and its two moments scaled once, after the loop, by [exp(-G dt tf)];
    at [G = 0] the two propagators coincide. *)
Theorem P_Nico_is_scaled_P_no_loss
  (TD TN G dz : R) (kk ks : list R) (dk : R) (im ip : list (list Z)) (dt : R)
  (n : Z) (u : vec) (tf : Z) :
  kerrlib.P_no_loss u TD TN dz kk ks dk im ip tf dt n
  = accumulated_transfer TD TN dz kk ks dk im ip dt n 0 u tf
  /\ kerrlib.P_Nico u TD TN G dz kk ks dk im ip tf dt n
     = ('(u', M, N) <- accumulated_transfer TD TN dz kk ks dk im ip dt n G u tf ;;
        Ok (u', mrscale (exp (- G * dt * IZR tf)) M,
                mrscale (exp (- G * dt * IZR tf)) N))
  /\ kerrlib.P_Nico u TD TN 0 dz kk ks dk im ip tf dt n
     = kerrlib.P_no_loss u TD TN dz kk ks dk im ip tf dt n.
Proof.
  split; [apply P_no_loss_accumulated|]. split; [apply P_Nico_accumulated|].
  rewrite P_Nico_accumulated, P_no_loss_accumulated.
  replace (exp (- 0 * dt * IZR tf)) with 1
    by (replace (- 0 * dt * IZR tf) with 0 by ring; symmetry; apply exp_0).
  destruct (accumulated_transfer _ _ _ _ _ _ _ _ _ _ _ _ _) as [[[u' M] N]|];
    [|reflexivity].
  cbn [bind]. rewrite !mrscale_1. reflexivity.
Qed.

(** ** The transforms *)

Lemma sqrt_2PI_pos : 0 < sqrt (2 * PI).
Proof. apply sqrt_lt_R0. pose proof PI_RGT_0. lra. Qed.

Lemma sqrt_2PI_sqr : sqrt (2 * PI) * sqrt (2 * PI) = 2 * PI.
Proof. apply sqrt_sqrt. pose proof PI_RGT_0. lra. Qed.

Lemma mapM_pure {A B : Type} (f : A -> B) l :
  mapM (fun x => Ok (f x)) l = Ok (map f l).
Proof.
  induction l as [|x l IH]; [reflexivity|]. cbn [mapM bind map].
  rewrite IH. reflexivity.
Qed.

Lemma zipM_pure {A B D : Type} (f : A -> B -> D) a b :
  zipM (fun x y => Ok (f x y)) a b = Ok (map2 f a b).
Proof.
  revert b; induction a as [|x a IH]; intros [|y b]; try reflexivity.
  cbn [zipM bind]. rewrite IH. reflexivity.
Qed.

Lemma bzip_same {A B D : Type} (f : A -> B -> result D) a b :
  length a = length b -> bzip f a b = zipM f a b.
Proof. intros H. unfold bzip. rewrite H, Nat.eqb_refl. reflexivity. Qed.

Lemma length_map2 {T U V : Type} (f : T -> U -> V) a b :
  length a = length b -> length (map2 f a b) = length a.
Proof.
  intros H. unfold map2. rewrite length_map, length_combine, <- H.
  apply Nat.min_id.
Qed.

Lemma nth_map2 {T U V : Type} (f : T -> U -> V) a b i da db dv :
  (i < length a)%nat -> length a = length b ->
  nth i (map2 f a b) dv = f (nth i a da) (nth i b db).
Proof.
  intros Hi H. unfold map2.
  rewrite (nth_indep _ dv (f da db))
    by (rewrite length_map, length_combine, <- H, Nat.min_id; exact Hi).
  pose proof (map_nth (fun p => f (fst p) (snd p)) (combine a b) (da, db) i)
    as E.
  cbn [fst snd] in E. rewrite E, combine_nth by exact H. reflexivity.
Qed.

Lemma fft_ok a :
  a <> [] -> fft a = Ok (map (dft_entry (-1) a) (seq 0 (length a))).
Proof. destruct a; [congruence | reflexivity]. Qed.

Lemma ifft_ok a :
  a <> [] ->
  ifft a = Ok (map (fun m => Cdivr (dft_entry 1 a m) (INR (length a)))
                 (seq 0 (length a))).
Proof. destruct a; [congruence | reflexivity]. Qed.

Lemma length_fftshift {T : Type} (x : list T) : length (fftshift x) = length x.
Proof.
  unfold fftshift. rewrite length_app, length_skipn, length_firstn.
  pose proof (Nat.Div0.div_le_upper_bound (length x) 2 (length x)). lia.
Qed.

Lemma length_ifftshift {T : Type} (x : list T) :
  length (ifftshift x) = length x.
Proof.
  unfold ifftshift. rewrite length_app, length_skipn, length_firstn. lia.
Qed.

Lemma half_le k : (k / 2 <= k)%nat.
Proof. apply Nat.Div0.div_le_upper_bound. lia. Qed.

(** [fftshift] rolls forward by [n // 2] ... *)
Lemma nth_fftshift {T : Type} (x : list T) d i :
  (i < length x)%nat ->
  nth i (fftshift x) d
  = if (i <? length x / 2)%nat
    then nth (length x - length x / 2 + i) x d
    else nth (i - length x / 2) x d.
Proof.
  intros Hi. unfold fftshift. pose proof (half_le (length x)) as Hh.
  destruct (Nat.ltb_spec i (length x / 2)).
  - rewrite app_nth1 by (rewrite length_skipn; lia). apply nth_skipn.
  - rewrite app_nth2 by (rewrite length_skipn; lia).
    rewrite length_skipn, nth_firstn.
    replace (length x - (length x - length x / 2))%nat with (length x / 2)%nat
      by lia.
    destruct (Nat.ltb_spec (i - length x / 2) (length x - length x / 2));
      [reflexivity | lia].
Qed.

(** ... and [ifftshift] backward by as much. *)
Lemma nth_ifftshift {T : Type} (x : list T) d i :
  (i < length x)%nat ->
  nth i (ifftshift x) d
  = if (i <? length x - length x / 2)%nat
    then nth (length x / 2 + i) x d
    else nth (i - (length x - length x / 2)) x d.
Proof.
  intros Hi. unfold ifftshift. pose proof (half_le (length x)) as Hh.
  destruct (Nat.ltb_spec i (length x - length x / 2)).
  - rewrite app_nth1 by (rewrite length_skipn; lia). apply nth_skipn.
  - rewrite app_nth2 by (rewrite length_skipn; lia).
    rewrite length_skipn, nth_firstn.
    destruct (Nat.ltb_spec (i - (length x - length x / 2)) (length x / 2));
      [reflexivity | lia].
Qed.

Lemma Csum_const n c : Csum n (fun _ => c) = Rscal (INR n) c.
Proof.
  induction n as [|n IH]; [csimp|].
  cbn [Csum]. rewrite IH, S_INR. csimp.
Qed.

Lemma Cexp_angle_0 x : x = 0 -> Cexp (mkC 0 x) = C1.
Proof. intros ->. apply Cexp_0. Qed.

Lemma nth_map_lt {T U : Type} (f : T -> U) l i d d' :
  (i < length l)%nat -> nth i (map f l) d = f (nth i l d').
Proof.
  intros H. rewrite (nth_indep _ d (f d')) by (rewrite length_map; exact H).
  apply map_nth.
Qed.


(** ** The round trip of [myfft] and [myifft] *)

Lemma length_impulse n : length (impulse n) = n.
Proof. destruct n; simpl; [|rewrite repeat_length]; reflexivity. Qed.

Lemma nth_impulse n i : nth i (impulse n) C0 = if (i =? 0)%nat then
                                                 if (0 <? n)%nat then C1 else C0
                                               else C0.
Proof.
  destruct n as [|n]; destruct i as [|i]; simpl; try reflexivity.
  apply nth_repeat.
Qed.

Lemma dft_impulse sgn n j : (0 < n)%nat -> dft_entry sgn (impulse n) j = C1.
Proof.
  intros Hn. unfold dft_entry. rewrite length_impulse.
  rewrite (Csum_single n _ 0%nat Hn).
  - rewrite nth_impulse. cbn [Nat.eqb].
    destruct (Nat.ltb_spec 0 n); [|lia].
    rewrite Cexp_angle_0; [apply Cmul_1_l|]. simpl. unfold Rdiv. ring.
  - intros k _ Hk. rewrite nth_impulse.
    destruct (Nat.eqb_spec k 0); [lia|]. apply Cmul_0_l.
Qed.

Lemma map_const_seq {T : Type} (c : T) a n :
  map (fun _ => c) (seq a n) = repeat c n.
Proof.
  revert a; induction n as [|n IH]; intros a; simpl; [reflexivity|].
  rewrite IH. reflexivity.
Qed.

Lemma fftshift_repeat {T : Type} (c : T) n : fftshift (repeat c n) = repeat c n.
Proof.
  apply nth_ext with (d := c) (d' := c).
  - apply length_fftshift.
  - intros i Hi. rewrite length_fftshift in Hi.
    rewrite nth_fftshift by exact Hi.
    destruct (_ <? _)%nat; rewrite !nth_repeat; reflexivity.
Qed.

Lemma myfft_impulse n dz :
  (0 < n)%nat ->
  kerrlib.myfft (impulse n) dz
  = Ok (repeat (Cdivr (Cmulr C1 dz) (sqrt (2 * PI))) n).
Proof.
  intros Hn. unfold kerrlib.myfft.
  rewrite fft_ok by (destruct n; [lia | discriminate]).
  cbn [bind]. rewrite length_impulse, map_map.
  rewrite (map_ext_in _ (fun _ => Cdivr (Cmulr C1 dz) (sqrt (2 * PI))))
    by (intros j _; rewrite dft_impulse by exact Hn; reflexivity).
  rewrite map_const_seq, fftshift_repeat. reflexivity.
Qed.

Lemma dft_const_0 sgn c n :
  dft_entry sgn (repeat c n) 0 = Rscal (INR n) c.
Proof.
  unfold dft_entry. rewrite repeat_length, <- Csum_const.
  apply Csum_ext; intros k Hk.
  rewrite nth_repeat_lt by exact Hk.
  rewrite Cexp_angle_0; [apply Cmul_1_r|]. simpl. unfold Rdiv. ring.
Qed.

(** C1 (code defect).  [myifft] does not invert [myfft]: it shifts after
    the inverse FFT instead of undoing the shift of [myfft] before it.  On
    the unit impulse of any length [n >= 2] and any spacing [dz > 0], with
    [dk = 2 pi / (n dz)], the round trip succeeds and returns an array whose
    entry at position [n - n // 2] is [1], where the impulse has [0]. *)
Theorem myifft_myfft_moves_impulse (n : nat) (dz : R) :
  (2 <= n)%nat -> 0 < dz ->
  exists y, round_trip (impulse n) dz = Ok y
            /\ nth (n - n / 2) y C0 = C1
            /\ nth (n - n / 2) (impulse n) C0 = C0.
Proof.
  intros Hn Hdz. unfold round_trip.
  rewrite myfft_impulse, length_impulse by lia. cbn [bind].
  set (c := Cdivr (Cmulr C1 dz) (sqrt (2 * PI))).
  unfold kerrlib.myifft.
  rewrite ifft_ok by (destruct n; [lia | discriminate]).
  cbn [bind]. rewrite repeat_length.
  eexists; split; [reflexivity|]. split.
  - pose proof (half_le n) as Hh.
    assert (Hpos : (0 < n / 2)%nat)
      by (apply Nat.div_str_pos; lia).
    rewrite nth_ifftshift; rewrite !length_map, length_seq; [|lia].
    destruct (Nat.ltb_spec (n - n / 2) (n - n / 2)); [lia|].
    rewrite Nat.sub_diag, map_map.
    rewrite (nth_map_seq _ C0 n 0) by lia.
    rewrite dft_const_0. unfold c.
    pose proof sqrt_2PI_pos as Hs. pose proof sqrt_2PI_sqr as Hq.
    assert (Hn0 : INR n <> 0) by (apply not_0_INR; lia).
    rewrite <- INR_IZR_INZ.
    apply C_eq; simpl; [|unfold Rdiv; ring].
    set (r := sqrt (2 * PI)) in *. rewrite <- Hq. field. repeat split; lra.
  - rewrite nth_impulse.
    destruct (Nat.eqb_spec (n - n / 2) 0); [|reflexivity].
    pose proof (Nat.Div0.div_lt_upper_bound n 2 n). lia.
Qed.

Lemma myifft_myfft_moves_impulse_3 :
  (2 <= 3)%nat /\ 0 < 1 /\
  exists y, round_trip (impulse 3) 1 = Ok y
            /\ nth 2 y C0 = C1 /\ nth 2 (impulse 3) C0 = C0.
Proof.
  split; [lia|]. split; [lra|].
  apply (myifft_myfft_moves_impulse 3 1); [lia | lra].
Defined.

Lemma Cexp_2PI3 : Cexp (mkC 0 (2 * (PI / 3))) = mkC (-1 / 2) (sqrt 3 / 2).
Proof.
  unfold Cexp. cbn [Re Im]. rewrite exp_0, cos_2PI3, sin_2PI3.
  apply C_eq; simpl; ring.
Qed.

Lemma Cexp_double t : Cexp (mkC 0 (2 * t)) = (Cexp (mkC 0 t) * Cexp (mkC 0 t))%C.
Proof.
  rewrite <- Cexp_add. f_equal. apply C_eq; simpl; ring.
Qed.

Lemma sqrt3_sqr : sqrt 3 * sqrt 3 = 3.
Proof. apply sqrt_sqrt. lra. Qed.

Lemma Cexp_4PI3 : Cexp (mkC 0 (2 * (2 * (PI / 3)))) = mkC (-1 / 2) (- sqrt 3 / 2).
Proof.
  rewrite Cexp_double, Cexp_2PI3. pose proof sqrt3_sqr.
  apply C_eq; simpl; nra.
Qed.

Lemma Cexp_8PI3 : Cexp (mkC 0 (2 * (2 * (2 * (PI / 3))))) = mkC (-1 / 2) (sqrt 3 / 2).
Proof.
  rewrite Cexp_double, Cexp_4PI3. pose proof sqrt3_sqr.
  apply C_eq; simpl; nra.
Qed.

(** The round trip of the three-point impulse, entry by entry. *)
Lemma round_trip_impulse_3 : round_trip [C1; C0; C0] 1 = Ok [C0; C0; C1].
Proof.
  unfold round_trip. change [C1; C0; C0] with (impulse 3).
  rewrite myfft_impulse by lia. cbn [bind repeat].
  unfold kerrlib.myifft, ifft. cbn [bind length seq map].
  unfold dft_entry. cbn [length Csum nth].
  unfold ifftshift. cbn [length Nat.div Nat.divmod fst Nat.sub skipn firstn app map].
  change (INR 0) with 0. change (INR 1) with 1.
  replace (INR 2) with 2 by (simpl; ring). replace (INR 3) with 3 by (simpl; ring).
  replace (1 * (2 * PI * 0 * 0 / 3)) with 0 by field.
  replace (1 * (2 * PI * 1 * 0 / 3)) with 0 by field.
  replace (1 * (2 * PI * 2 * 0 / 3)) with 0 by field.
  replace (1 * (2 * PI * 0 * 1 / 3)) with 0 by field.
  replace (1 * (2 * PI * 0 * 2 / 3)) with 0 by field.
  replace (1 * (2 * PI * 1 * 1 / 3)) with (2 * (PI / 3)) by field.
  replace (1 * (2 * PI * 2 * 1 / 3)) with (2 * (2 * (PI / 3))) by field.
  replace (1 * (2 * PI * 1 * 2 / 3)) with (2 * (2 * (PI / 3))) by field.
  replace (1 * (2 * PI * 2 * 2 / 3)) with (2 * (2 * (2 * (PI / 3)))) by field.
  rewrite Cexp_2PI3, Cexp_4PI3, Cexp_8PI3.
  change (mkC 0 0) with C0. rewrite Cexp_0.
  pose proof sqrt_2PI_pos as Hs. pose proof sqrt_2PI_sqr as Hq.
  set (r := sqrt (2 * PI)) in *. clearbody r.
  assert (HPI : PI = r * r / 2) by lra. rewrite HPI.
  repeat f_equal; apply C_eq; simpl; field; lra.
Qed.

(** ** [P_mean_field] *)

Lemma Dcheck_unbound :
  lookup_name (kerrlib.globals ++ py_builtins) "Dcheck" = Err NameError.
Proof. reflexivity. Qed.

(** Were the name bound, the call would go on to the loop: with [Dcheck]
    bound to a string other than ["True"] it is the plain split-step loop. *)
Lemma P_mean_field_bound u TD TN G zz dz kk N dt :
  kerrlib.P_mean_field (("Dcheck"%string, PyStr "False") :: kerrlib.globals)
    u TD TN G zz dz kk N dt
  = iterM (Z.to_nat N)
      (fun u =>
         u1 <- kerrlib.opD u TD G kk dt ;;
         u2 <- kerrlib.opN u1 TN u dt ;;
         kerrlib.opD u2 TD G kk dt) u.
Proof. reflexivity. Qed.

(** C10.  In the namespace of the module as the source defines it, every
    call of [P_mean_field] raises [NameError] on reading [Dcheck], whatever
    its arguments: no step of the loop is reached and no result is returned. *)
Theorem P_mean_field_raises_NameError
  (u : vec) (TD TN G : R) (zz : list R) (dz : R) (kk : list R) (N : Z) (dt : R) :
  kerrlib.P_mean_field kerrlib.globals u TD TN G zz dz kk N dt = Err NameError.
Proof.
  unfold kerrlib.P_mean_field. rewrite Dcheck_unbound. reflexivity.
Qed.

(** ** Limits and the matrix exponential *)

Lemma Rlim_unique u l : Un_cv u l -> Rlim u = l.
Proof.
  intros H. unfold Rlim.
  apply (UL_sequence u); [|exact H].
  apply epsilon_spec. exists l; exact H.
Qed.

Lemma Rlim_eventually u l N0 :
  (forall k, (N0 <= k)%nat -> u k = l) -> Rlim u = l.
Proof.
  intros H. apply Rlim_unique. intros eps Heps. exists N0.
  intros k Hk. rewrite H by exact Hk.
  unfold Rdist. rewrite Rminus_diag, Rabs_R0. exact Heps.
Qed.

Lemma Clim_eventually f l N0 :
  (forall k, (N0 <= k)%nat -> f k = l) -> Clim f = l.
Proof.
  intros H. unfold Clim. apply C_eq; simpl;
    apply (Rlim_eventually _ _ N0); intros k Hk; rewrite H by exact Hk;
    reflexivity.
Qed.

Lemma Csum_first_two N f :
  (1 <= N)%nat -> (forall k, (2 <= k)%nat -> f k = C0) ->
  Csum (S N) f = (f 0%nat + f 1%nat)%C.
Proof.
  intros HN H. induction N as [|N IH]; [lia|].
  destruct N as [|N].
  - cbn [Csum]. ring.
  - change (Csum (S (S (S N))) f) with (Csum (S (S N)) f + f (S (S N)))%C.
    rewrite IH, (H (S (S N))) by lia. ring.
Qed.

Lemma entry_zeros2 r c i j : entry (zeros2 r c) i j = C0.
Proof.
  unfold entry, zeros2, mk_mat.
  destruct (Nat.lt_ge_cases i r) as [Hi|Hi].
  - rewrite (nth_map_seq (fun _ => map (fun _ => C0) (seq 0 c))) by lia.
    destruct (Nat.lt_ge_cases j c) as [Hj|Hj].
    + apply (nth_map_seq (fun _ => C0)); lia.
    + apply nth_overflow. rewrite length_map, length_seq. lia.
  - rewrite (nth_overflow _ [])
      by (rewrite length_map, length_seq; lia).
    destruct j; reflexivity.
Qed.

Lemma mm_sq_zeros d a : mm_sq d a (zeros2 d d) = zeros2 d d.
Proof.
  unfold mm_sq, zeros2 at 2. apply mk_mat_ext; intros i j _ _.
  apply Csum_zero; intros k _. rewrite entry_zeros2. ring.
Qed.

Lemma mpow_nilpotent d a :
  mpow d a 2 = zeros2 d d -> forall k, (2 <= k)%nat -> mpow d a k = zeros2 d d.
Proof.
  intros H k Hk. induction k as [|k IH]; [lia|].
  destruct (Nat.eq_dec k 1) as [->|Hne]; [exact H|].
  cbn [mpow]. rewrite IH by lia. apply mm_sq_zeros.
Qed.

(** The exponential of a square matrix whose square vanishes is the identity
    plus the matrix: the series stops after two terms. *)
Lemma expm_nilpotent a :
  is_square a = true ->
  mpow (length a) a 2 = zeros2 (length a) (length a) ->
  expm a = Ok (mk_mat (length a) (length a)
                 (fun i j => entry (identity (length a)) i j
                             + entry (mpow (length a) a 1) i j)%C).
Proof.
  intros Hsq Hnil. unfold expm. rewrite Hsq. f_equal.
  apply mk_mat_ext; intros i j Hi Hj.
  apply (Clim_eventually _ _ 1). intros N HN. unfold exp_partial.
  rewrite Csum_first_two.
  - cbn [mpow fact INR]. f_equal; apply C_eq; simpl; field.
  - exact HN.
  - intros k Hk. rewrite (mpow_nilpotent _ _ Hnil k Hk), entry_zeros2.
    apply Cdivr_0.
Qed.

(** ** One step on a one-point grid

    On the grid [n = 1], [kk = ks = [1]], [dz = 1/2], [dk = 4 pi], with
    [TD = -1/2], [TN = 1], [dt = 1/2] and the field [[1]], the phases of the
    field step cancel and the generator [[1, 1], [-1, -1]] squares to zero,
    so that every quantity of one step is a rational complex number. *)

Lemma dft_singleton sgn z : dft_entry sgn [z] 0 = z.
Proof.
  unfold dft_entry. cbn [length Csum nth].
  rewrite Cexp_angle_0; [ring|]. simpl. unfold Rdiv. ring.
Qed.

Lemma fft_singleton z : fft [z] = Ok [z].
Proof. unfold fft. cbn [length seq map]. rewrite dft_singleton. reflexivity. Qed.

Lemma ifft_singleton z : ifft [z] = Ok [z].
Proof.
  unfold ifft. cbn [length seq map]. rewrite dft_singleton.
  do 2 f_equal. apply C_eq; simpl; field.
Qed.

Lemma opD_singleton z TD G k dt :
  kerrlib.opD [z] TD G [k] dt
  = Ok [Cmulr (Cexp (Rscal (dt / 2) (Cdivr (Ci * RtoC (k ^ 2)) (2 * TD))) * z)
              (exp (dt / 2 * (- G / 2)))].
Proof.
  unfold kerrlib.opD. rewrite fft_singleton. cbn [bind map].
  unfold vmul, bzip. cbn [length Nat.eqb zipM bind]. rewrite ifft_singleton.
  reflexivity.
Qed.

Lemma opN_singleton z TN zi dt :
  kerrlib.opN [z] TN [zi] dt
  = Ok [(Cexp (Cmulr (Cdivr (RtoC dt * Ci) TN) (Cabs zi ^ 2)) * z)%C].
Proof. reflexivity. Qed.


Lemma Cabs_C1 : Cabs C1 = 1.
Proof.
  unfold Cabs; simpl. replace (1 * 1 + 0 * 0) with 1 by ring. apply sqrt_1.
Qed.

Lemma Cmulr_1 z : Cmulr z 1 = z.
Proof. apply C_eq; simpl; ring. Qed.

Lemma field_step_ex : field_step (-1/2) 1 [1] (1/2) 0 [C1] = Ok [C1].
Proof.
  unfold field_step. rewrite opD_singleton. cbn [bind]. rewrite opN_singleton. cbn [bind].
  rewrite opD_singleton.
  replace (Rscal (1 / 2 / 2) (Cdivr (Ci * RtoC (1 ^ 2)) (2 * (-1 / 2))))
    with (mkC 0 (-1/4)) by (apply C_eq; simpl; field).
  replace (Cmulr (Cdivr (RtoC (1 / 2) * Ci) 1) (Cabs C1 ^ 2))
    with (mkC 0 (1/2)) by (rewrite Cabs_C1; apply C_eq; simpl; field).
  replace (exp (1 / 2 / 2 * (- 0 / 2))) with 1
    by (replace (1 / 2 / 2 * (- 0 / 2)) with 0 by field; symmetry; apply exp_0).
  rewrite !Cmulr_1, Cmul_1_r, <- !Cexp_add.
  match goal with
  | |- Ok [Cexp ?z] = _ => replace z with C0 by (apply C_eq; simpl; lra)
  end.
  rewrite Cexp_0. reflexivity.
Qed.


Ltac solve_2pi :=
  let Hs := fresh "Hs" in
  let Hq := fresh "Hq" in
  let HPI := fresh "HPI" in
  pose proof sqrt_2PI_pos as Hs; pose proof sqrt_2PI_sqr as Hq;
  set (r2pi := sqrt (2 * PI)) in *; clearbody r2pi;
  assert (HPI : PI = r2pi * r2pi / 2) by lra;
  rewrite ?HPI; field; lra.

Lemma np_full_singleton x : np_full 1 [x] = Ok [x].
Proof. reflexivity. Qed.

Lemma Q_ex :
  kerrlib.Q [C1] (-1/2) 1 (1/2) [1] (4 * PI) [[0%Z]] [[0%Z]] 1
  = Ok [[mkC 1 0; mkC 1 0]; [mkC (-1) 0; mkC (-1) 0]].
Proof.
  unfold kerrlib.Q, kerrlib.A, kerrlib.B, kerrlib.m, kerrlib.s, kerrlib.myfft.
  cbn [map]. rewrite !fft_singleton. cbn [bind map].
  unfold fftshift. cbn [length Nat.div Nat.divmod fst Nat.sub skipn firstn app map].
  rewrite np_full_singleton. cbn [bind].
  rewrite Cabs_C1.
  cbn -[Cdivr Rscal Cmulr Cmul Cadd Copp Cconj RtoC pow].
  repeat f_equal; apply C_eq; simpl; solve_2pi.
Qed.

Lemma expm_ex :
  expm (mscale (Ci * RtoC (1/2)) [[mkC 1 0; mkC 1 0]; [mkC (-1) 0; mkC (-1) 0]])
  = Ok [[mkC 1 (1/2); mkC 0 (1/2)]; [mkC 0 (-1/2); mkC 1 (-1/2)]].
Proof.
  rewrite expm_nilpotent.
  - cbn -[Cdivr Rscal Cmulr Cmul Cadd Copp Cconj RtoC pow].
    repeat f_equal; apply C_eq; simpl; field.
  - reflexivity.
  - cbn -[Cdivr Rscal Cmulr Cmul Cadd Copp Cconj RtoC pow].
    unfold zeros2, mk_mat. cbn [seq map].
    repeat f_equal; apply C_eq; simpl; field.
Qed.

Lemma P_no_loss_ex :
  kerrlib.P_no_loss [C1] (-1/2) 1 (1/2) [1] [1] (4 * PI) [[0%Z]] [[0%Z]] 1 (1/2) 1
  = Ok ([C1], [[mkC (-1/4) (1/2)]], [[mkC (1/4) 0]]).
Proof.
  rewrite P_no_loss_accumulated. unfold accumulated_transfer, moments_of.
  change (np_zeros 1) with (Ok [C0]). cbn [bind].
  change (Z.to_nat 1) with 1%nat. change (Z.to_nat (2 * 1)) with 2%nat.
  cbn [engine_run bind].
  unfold engine_step. cbn [fst snd]. rewrite field_step_ex. cbn [bind].
  rewrite Q_ex. cbn [bind]. unfold accumulate, step_transfer.
  rewrite expm_ex. cbn [bind].
  cbn -[Cdivr Rscal Cmulr Cmul Cadd Copp Cconj RtoC pow].
  repeat f_equal; apply C_eq; simpl; field.
Qed.

Lemma P_loss_ex :
  kerrlib.P_loss [C1] (-1/2) 1 0 (1/2) [1] [1] (4 * PI) [[0%Z]] [[0%Z]] 1 (1/2) 1
  = Ok ([C1], Arr2 [[mkC (-1/4) (1/2)]], Arr2 [[mkC (5/8) 0]]).
Proof.
  rewrite P_loss_sequential.
  change (np_zeros 1) with (Ok [C0]). cbn [bind].
  change (Z.to_nat 1) with 1%nat. cbn [engine_run bind].
  unfold engine_step. cbn [fst snd]. rewrite field_step_ex. cbn [bind].
  rewrite Q_ex. cbn [bind]. unfold sequential_advance, step_transfer.
  rewrite expm_ex. cbn [bind]. change (Z.to_nat 1) with 1%nat.
  cbn -[Cdivr Rscal Cmulr Cmul Cadd Copp Cconj RtoC pow].
  repeat f_equal; apply C_eq; simpl; field.
Qed.

Lemma simultaneous_ex :
  engine_run (-1/2) 1 (1/2) [1] [1] (4 * PI) [[0%Z]] [[0%Z]] (1/2) 1 0
    (simultaneous_advance (1/2) 1 0) 1 ([C1], (Arr1 [C0], Arr1 [C0]))
  = Ok ([C1], (Arr2 [[mkC (-1/4) (1/2)]], Arr2 [[mkC (1/4) 0]])).
Proof.
  cbn [engine_run bind].
  unfold engine_step. cbn [fst snd]. rewrite field_step_ex. cbn [bind].
  rewrite Q_ex. cbn [bind]. unfold simultaneous_advance, step_transfer.
  rewrite expm_ex. cbn [bind]. change (Z.to_nat 1) with 1%nat.
  cbn -[Cdivr Rscal Cmulr Cmul Cadd Copp Cconj RtoC pow].
  repeat f_equal; apply C_eq; simpl; field.
Qed.

(** C2 (code defect).  The loop body of [P_loss] assigns [M] and then
    computes [N] from the [M] it has just assigned, not from the value before
    the step.  One step from [M = N = 0] at zero loss on the one-point grid
    returns [N = 5/8], where the simultaneous recursion of the claim gives
    [N = 1/4]; the pair moment [M = -1/4 + i/2] is the same in both. *)
Theorem P_loss_N_reads_updated_M :
  kerrlib.P_loss [C1] (-1/2) 1 0 (1/2) [1] [1] (4 * PI) [[0%Z]] [[0%Z]]
    1 (1/2) 1
  = Ok ([C1], Arr2 [[mkC (-1/4) (1/2)]], Arr2 [[mkC (5/8) 0]])
  /\ engine_run (-1/2) 1 (1/2) [1] [1] (4 * PI) [[0%Z]] [[0%Z]] (1/2) 1 0
       (simultaneous_advance (1/2) 1 0) 1 ([C1], (Arr1 [C0], Arr1 [C0]))
     = Ok ([C1], (Arr2 [[mkC (-1/4) (1/2)]], Arr2 [[mkC (1/4) 0]])).
Proof. split; [apply P_loss_ex | apply simultaneous_ex]. Qed.

(** C3 (code defect).  At loss rate [G = 0] the lossy propagator does not
    agree with the lossless one: after one step on the one-point grid both
    return the field [[1]] and [M = -1/4 + i/2], but [P_no_loss] returns
    [N = 1/4] and [P_loss] returns [N = 5/8]. *)
Theorem P_loss_zero_rate_differs_from_P_no_loss :
  kerrlib.P_no_loss [C1] (-1/2) 1 (1/2) [1] [1] (4 * PI) [[0%Z]] [[0%Z]]
    1 (1/2) 1
  = Ok ([C1], [[mkC (-1/4) (1/2)]], [[mkC (1/4) 0]])
  /\ kerrlib.P_loss [C1] (-1/2) 1 0 (1/2) [1] [1] (4 * PI) [[0%Z]] [[0%Z]]
       1 (1/2) 1
     = Ok ([C1], Arr2 [[mkC (-1/4) (1/2)]], Arr2 [[mkC (5/8) 0]])
  /\ mkC (1/4) 0 <> mkC (5/8) 0.
Proof.
  split; [apply P_no_loss_ex|]. split; [apply P_loss_ex|].
  intros H. apply (f_equal Re) in H. simpl in H. lra.
Qed.

(** ** The zero field *)

Lemma mat_eta r c a : is_matrix r c a -> a = mk_mat r c (entry a).
Proof.
  intros [Hr Hc]. unfold mk_mat. subst r.
  apply nth_ext with (d := []) (d' := []).
  - rewrite length_map, length_seq. reflexivity.
  - intros i Hi.
    rewrite (nth_map_seq (fun i => map (fun j => entry a i j) (seq 0 c)))
      by exact Hi.
    assert (Hl : length (nth i a []) = c).
    { rewrite Forall_forall in Hc. apply Hc. apply nth_In. exact Hi. }
    apply nth_ext with (d := C0) (d' := C0).
    + rewrite length_map, length_seq. exact Hl.
    + intros j Hj. rewrite (nth_map_seq (fun j => entry a i j)) by lia.
      reflexivity.
Qed.

Lemma mat_ext r c a b :
  is_matrix r c a -> is_matrix r c b ->
  (forall i j, (i < r)%nat -> (j < c)%nat -> entry a i j = entry b i j) ->
  a = b.
Proof.
  intros Ha Hb H. rewrite (mat_eta r c a Ha), (mat_eta r c b Hb).
  apply mk_mat_ext. exact H.
Qed.

Lemma repeat_ext_nth {T : Type} (l : list T) (c d : T) :
  (forall i, (i < length l)%nat -> nth i l d = c) -> l = repeat c (length l).
Proof.
  intros H. apply nth_ext with (d := d) (d' := d).
  - rewrite repeat_length. reflexivity.
  - intros i Hi. rewrite H by exact Hi.
    rewrite nth_repeat_lt by exact Hi. reflexivity.
Qed.

Lemma dft_zeros sgn n j : dft_entry sgn (repeat C0 n) j = C0.
Proof.
  unfold dft_entry. apply Csum_zero; intros k Hk.
  rewrite nth_repeat. apply Cmul_0_l.
Qed.

Lemma fft_zeros n : (0 < n)%nat -> fft (repeat C0 n) = Ok (repeat C0 n).
Proof.
  intros Hn. rewrite fft_ok by (destruct n; [lia | discriminate]).
  rewrite repeat_length.
  rewrite (map_ext _ (fun _ => C0)) by (intros; apply dft_zeros).
  rewrite map_const_seq. reflexivity.
Qed.

Lemma ifft_zeros n : (0 < n)%nat -> ifft (repeat C0 n) = Ok (repeat C0 n).
Proof.
  intros Hn. rewrite ifft_ok by (destruct n; [lia | discriminate]).
  rewrite repeat_length.
  rewrite (map_ext _ (fun _ => C0))
    by (intros; rewrite dft_zeros; apply Cdivr_0).
  rewrite map_const_seq. reflexivity.
Qed.

Lemma vmul_zeros_r a n :
  length a = n -> vmul a (repeat C0 n) = Ok (repeat C0 n).
Proof.
  intros H. unfold vmul. rewrite bzip_same by (rewrite repeat_length; exact H).
  rewrite zipM_pure. f_equal.
  assert (Hl : length (map2 Cmul a (repeat C0 n)) = n)
    by (rewrite length_map2; rewrite ?repeat_length; congruence).
  rewrite <- Hl at 2. apply (repeat_ext_nth _ C0 C0).
  intros i Hi. rewrite Hl in Hi.
  rewrite (nth_map2 Cmul a (repeat C0 n) i C0 C0)
    by (rewrite ?repeat_length; lia).
  rewrite nth_repeat. apply Cmul_0_r.
Qed.

Lemma opD_zeros TD G kk dt n :
  (0 < n)%nat -> length kk = n ->
  kerrlib.opD (repeat C0 n) TD G kk dt = Ok (repeat C0 n).
Proof.
  intros Hn Hk. unfold kerrlib.opD. rewrite fft_zeros by exact Hn.
  cbn [bind]. rewrite vmul_zeros_r by (rewrite length_map; exact Hk).
  cbn [bind]. rewrite ifft_zeros by exact Hn. cbn [bind].
  rewrite map_repeat, Cmulr_0. reflexivity.
Qed.

Lemma opN_zeros TN dt n :
  kerrlib.opN (repeat C0 n) TN (repeat C0 n) dt = Ok (repeat C0 n).
Proof.
  unfold kerrlib.opN. apply vmul_zeros_r.
  rewrite length_map, repeat_length. reflexivity.
Qed.

Lemma field_step_zeros TD TN kk dt G n :
  (0 < n)%nat -> length kk = n ->
  field_step TD TN kk dt G (repeat C0 n) = Ok (repeat C0 n).
Proof.
  intros Hn Hk. unfold field_step. rewrite opD_zeros by assumption.
  cbn [bind]. rewrite opN_zeros. cbn [bind]. apply opD_zeros; assumption.
Qed.

Lemma myfft_zeros dz n :
  (0 < n)%nat -> kerrlib.myfft (repeat C0 n) dz = Ok (repeat C0 n).
Proof.
  intros Hn. unfold kerrlib.myfft. rewrite fft_zeros by exact Hn. cbn [bind].
  rewrite map_repeat, Cmulr_0, Cdivr_0, fftshift_repeat. reflexivity.
Qed.

Lemma Cabs_C0 : Cabs C0 = 0.
Proof.
  unfold Cabs; simpl. replace (0 * 0 + 0 * 0) with 0 by ring. apply sqrt_0.
Qed.

Lemma m_zeros TN dz n :
  (0 < n)%nat -> kerrlib.m (repeat C0 n) TN dz = Ok (repeat C0 n).
Proof.
  intros Hn. unfold kerrlib.m. rewrite map_repeat, Cabs_C0.
  replace (RtoC (0 ^ 2)) with C0 by (apply C_eq; simpl; ring).
  rewrite myfft_zeros by exact Hn. cbn [bind].
  rewrite map_repeat, Cdivr_0. reflexivity.
Qed.

Lemma s_zeros TN dz n :
  (0 < n)%nat -> kerrlib.s (repeat C0 n) TN dz = Ok (repeat C0 n).
Proof.
  intros Hn. unfold kerrlib.s. rewrite map_repeat, Cmul_0_l.
  rewrite myfft_zeros by exact Hn. cbn [bind].
  rewrite map_repeat, Cdivr_0. reflexivity.
Qed.

Lemma mapM_ok {A B : Type} (f : A -> result B) (g : A -> B) l :
  (forall x, In x l -> f x = Ok (g x)) -> mapM f l = Ok (map g l).
Proof.
  induction l as [|x l IH]; intros H; [reflexivity|].
  cbn [mapM map]. rewrite H by (left; reflexivity). cbn [bind].
  rewrite IH by (intros y Hy; apply H; right; exact Hy). reflexivity.
Qed.

Lemma zipM_ok {A B D : Type} (f : A -> B -> result D) (g : A -> B -> D) a b :
  (forall x y, In (x, y) (combine a b) -> f x y = Ok (g x y)) ->
  zipM f a b = Ok (map2 g a b).
Proof.
  revert b; induction a as [|x a IH]; intros [|y b] H; try reflexivity.
  cbn [zipM]. rewrite H by (left; reflexivity). cbn [bind].
  rewrite IH by (intros x' y' Hin; apply H; right; exact Hin). reflexivity.
Qed.

Lemma index1_ok {A : Type} (v : list A) (i : Z) d :
  (0 <= i < Z.of_nat (length v))%Z -> index1 v i = Ok (nth (Z.to_nat i) v d).
Proof.
  intros Hi. unfold index1.
  destruct (Z.ltb_spec i 0); [lia|].
  destruct (Z.leb_spec 0 i); [|lia].
  destruct (Z.ltb_spec i (Z.of_nat (length v))); [|lia]. cbn [andb].
  rewrite (nth_error_nth' v d) by lia. reflexivity.
Qed.

Lemma index_table_row n t i :
  index_table n t -> (i < n)%nat ->
  length (nth i t []) = n /\
  Forall (fun k => (0 <= k < Z.of_nat n)%Z) (nth i t []).
Proof.
  intros [Hl Hr] Hi. rewrite Forall_forall in Hr. apply Hr.
  apply nth_In. lia.
Qed.

Lemma index_table_bound n t i j :
  index_table n t -> (i < n)%nat -> (j < n)%nat ->
  (0 <= table_get t i j < Z.of_nat n)%Z.
Proof.
  intros Ht Hi Hj. destruct (index_table_row n t i Ht Hi) as [Hl Hb].
  rewrite Forall_forall in Hb. apply Hb. apply nth_In. lia.
Qed.

Lemma gather_ok (v : vec) n t :
  length v = n -> index_table n t ->
  gather v t
  = Ok (mk_mat n n (fun i j => nth (Z.to_nat (table_get t i j)) v C0)).
Proof.
  intros Hv Ht. unfold gather.
  rewrite (mapM_ok _ (map (fun k => nth (Z.to_nat k) v C0))).
  - f_equal. destruct Ht as [Hl Hr]. unfold mk_mat.
    apply nth_ext with (d := []) (d' := []).
    + rewrite !length_map, length_seq. exact Hl.
    + intros i Hi. rewrite length_map in Hi.
      rewrite (nth_map_seq
                 (fun i => map (fun j => nth (Z.to_nat (table_get t i j)) v C0)
                             (seq 0 n))) by lia.
      change [] with (map (fun k => nth (Z.to_nat k) v C0) []) at 1.
      rewrite map_nth.
      assert (Hrow : length (nth i t []) = n).
      { rewrite Forall_forall in Hr. apply Hr. apply nth_In. exact Hi. }
      apply nth_ext with (d := C0) (d' := C0).
      * rewrite !length_map, length_seq. exact Hrow.
      * intros j Hj. rewrite length_map in Hj.
        rewrite (nth_map_seq
                   (fun j => nth (Z.to_nat (table_get t i j)) v C0)) by lia.
        rewrite (nth_indep _ C0 (nth (Z.to_nat 0) v C0))
          by (rewrite length_map; exact Hj).
        rewrite (map_nth (fun k => nth (Z.to_nat k) v C0)). reflexivity.
  - intros row Hrow. apply mapM_ok. intros k Hk. apply index1_ok.
    destruct Ht as [Hl Hr]. rewrite Forall_forall in Hr.
    destruct (Hr row Hrow) as [_ Hb]. rewrite Forall_forall in Hb.
    rewrite Hv. apply Hb. exact Hk.
Qed.

Lemma is_matrix_map2 r c (f : C -> C -> C) a b :
  is_matrix r c a -> is_matrix r c b -> is_matrix r c (map2 (map2 f) a b).
Proof.
  intros [Ha Hca] [Hb Hcb]. split.
  - rewrite length_map2; congruence.
  - apply Forall_forall. intros row Hin. unfold map2 at 1 in Hin.
    apply in_map_iff in Hin. destruct Hin as [[x y] [<- Hin]].
    cbn [fst snd]. rewrite Forall_forall in Hca, Hcb.
    pose proof (in_combine_l _ _ _ _ Hin) as Hx.
    pose proof (in_combine_r _ _ _ _ Hin) as Hy.
    rewrite length_map2; rewrite ?(Hca x Hx), ?(Hcb y Hy); reflexivity.
Qed.

Lemma entry_map2 r c (f : C -> C -> C) a b i j :
  is_matrix r c a -> is_matrix r c b -> (i < r)%nat -> (j < c)%nat ->
  entry (map2 (map2 f) a b) i j = f (entry a i j) (entry b i j).
Proof.
  intros [Ha Hca] [Hb Hcb] Hi Hj. unfold entry.
  rewrite (nth_map2 (map2 f) a b i [] []) by lia.
  rewrite Forall_forall in Hca, Hcb.
  assert (length (nth i a []) = c) by (apply Hca, nth_In; lia).
  assert (length (nth i b []) = c) by (apply Hcb, nth_In; lia).
  apply nth_map2; lia.
Qed.

Lemma madd_ok r c a b :
  is_matrix r c a -> is_matrix r c b ->
  madd a b = Ok (mk_mat r c (fun i j => entry a i j + entry b i j)%C).
Proof.
  intros Ha Hb. unfold madd.
  rewrite bzip_same by (destruct Ha, Hb; congruence).
  rewrite (zipM_ok _ (map2 Cadd)).
  - f_equal. apply (mat_ext r c).
    + apply is_matrix_map2; assumption.
    + apply is_matrix_mk_mat.
    + intros i j Hi Hj. rewrite (entry_map2 r c) by assumption.
      rewrite entry_mk_mat by assumption. reflexivity.
  - intros x y Hin. destruct Ha as [_ Hca], Hb as [_ Hcb].
    rewrite Forall_forall in Hca, Hcb.
    rewrite bzip_same, zipM_pure. reflexivity.
    rewrite (Hca x (in_combine_l _ _ _ _ Hin)).
    rewrite (Hcb y (in_combine_r _ _ _ _ Hin)). reflexivity.
Qed.

(** ** The moment matrices entry by entry *)

Lemma length_spectrum x TN dz : length (spectrum x TN dz) = length x.
Proof.
  unfold spectrum.
  rewrite length_map, length_fftshift, !length_map, length_seq. reflexivity.
Qed.

Lemma m_ok u TN dz :
  u <> [] -> kerrlib.m u TN dz = Ok (spectrum (intensity u) TN dz).
Proof.
  intros Hu. unfold kerrlib.m, kerrlib.myfft. fold (intensity u).
  rewrite fft_ok by (unfold intensity; destruct u; [congruence|discriminate]).
  reflexivity.
Qed.

Lemma s_ok u TN dz :
  u <> [] -> kerrlib.s u TN dz = Ok (spectrum (square u) TN dz).
Proof.
  intros Hu. unfold kerrlib.s, kerrlib.myfft. fold (square u).
  rewrite fft_ok by (unfold square; destruct u; [congruence|discriminate]).
  reflexivity.
Qed.

Lemma np_full_same n v :
  length v = n -> np_full (Z.of_nat n) v = Ok v.
Proof.
  intros H. unfold np_full. destruct (Z.ltb_spec (Z.of_nat n) 0); [lia|].
  rewrite Nat2Z.id, H, Nat.eqb_refl. reflexivity.
Qed.

Lemma map_map_mk_mat (f : C -> C) r c g :
  map (map f) (mk_mat r c g) = mk_mat r c (fun i j => f (g i j)).
Proof.
  unfold mk_mat. rewrite map_map. apply map_ext; intros i.
  rewrite map_map. reflexivity.
Qed.

Lemma A_ok u TD TN dz ks dk im n :
  (0 < n)%nat -> length u = n -> length ks = n -> index_table n im ->
  kerrlib.A u TD TN dz ks dk im (Z.of_nat n)
  = Ok (mk_mat n n
          (fun i j =>
             (if (i =? j)%nat then RtoC (nth i (dispersion TD ks) 0) else C0)
             + Cdivr (Rscal (2 * dk)
                        (nth (Z.to_nat (table_get im i j))
                             (spectrum (intensity u) TN dz) C0))
                     (sqrt (2 * PI)))%C).
Proof.
  intros Hn Hu Hk Ht. unfold kerrlib.A.
  rewrite m_ok by (destruct u; [simpl in Hu; lia | discriminate]).
  cbn [bind]. fold (dispersion TD ks).
  rewrite np_full_same by (unfold dispersion; rewrite length_map; exact Hk).
  cbn [bind].
  rewrite (gather_ok _ n)
    by (try exact Ht; rewrite length_spectrum; unfold intensity;
        rewrite length_map; exact Hu).
  cbn [bind]. rewrite map_map_mk_mat. unfold np_diag.
  assert (Hd : length (dispersion TD ks) = n)
    by (unfold dispersion; rewrite length_map; exact Hk).
  rewrite Hd. rewrite (madd_ok n n) by apply is_matrix_mk_mat.
  f_equal. apply mk_mat_ext; intros i j Hi Hj.
  rewrite !entry_mk_mat by assumption. reflexivity.
Qed.

Lemma B_ok u TN dz dk ip n :
  (0 < n)%nat -> length u = n -> index_table n ip ->
  kerrlib.B u TN dz dk ip
  = Ok (mk_mat n n
          (fun i j =>
             Cdivr (Rscal dk (nth (Z.to_nat (table_get ip i j))
                                  (spectrum (square u) TN dz) C0))
                   (sqrt (2 * PI)))).
Proof.
  intros Hn Hu Ht. unfold kerrlib.B.
  rewrite s_ok by (destruct u; [simpl in Hu; lia | discriminate]).
  cbn [bind].
  rewrite (gather_ok _ n)
    by (try exact Ht; rewrite length_spectrum; unfold square;
        rewrite length_map; exact Hu).
  cbn [bind]. rewrite map_map_mk_mat. reflexivity.
Qed.

Lemma combine_map_seq {T U : Type} (f : nat -> T) (g : nat -> U) l :
  combine (map f l) (map g l) = map (fun x => (f x, g x)) l.
Proof.
  induction l as [|x l IH]; [reflexivity|]. cbn [map combine].
  rewrite IH. reflexivity.
Qed.

Lemma hstack_mk_mat r c c' f g :
  hstack (mk_mat r c f) (mk_mat r c' g)
  = Ok (mk_mat r (c + c')
          (fun i j => if (j <? c)%nat then f i j else g i (j - c)%nat)).
Proof.
  unfold hstack, nrows. rewrite !length_mk_mat, Nat.eqb_refl. f_equal.
  unfold mk_mat. rewrite combine_map_seq, map_map.
  apply map_ext; intros i. cbn [fst snd].
  rewrite seq_app, map_app. f_equal.
  - apply map_ext_in; intros j Hj. apply in_seq in Hj.
    destruct (Nat.ltb_spec j c); [reflexivity | lia].
  - cbn [Nat.add]. rewrite (map_seq_shift _ c c').
    apply map_ext_in; intros j Hj.
    destruct (Nat.ltb_spec (c + j) c); [lia|]. f_equal. lia.
Qed.

Lemma vstack_mk_mat r r' c f g :
  (0 < r)%nat -> (0 < r')%nat ->
  vstack (mk_mat r c f) (mk_mat r' c g)
  = Ok (mk_mat (r + r') c
          (fun i j => if (i <? r)%nat then f i j else g (i - r)%nat j)).
Proof.
  intros Hr Hr'. unfold vstack. rewrite !ncols_mk_mat, Nat.eqb_refl by lia.
  f_equal. unfold mk_mat. rewrite seq_app, map_app. f_equal.
  - apply map_ext_in; intros i Hi. apply in_seq in Hi.
    destruct (Nat.ltb_spec i r); [reflexivity | lia].
  - cbn [Nat.add]. rewrite (map_seq_shift _ r r').
    apply map_ext_in; intros i Hi.
    destruct (Nat.ltb_spec (r + i) r); [lia|].
    replace (r + i - r)%nat with i by lia. reflexivity.
Qed.

Lemma np_block_generator n a b :
  (0 < n)%nat ->
  np_block (mk_mat n n a) (mk_mat n n b)
    (mopp (transpose (mconj (mk_mat n n b)))) (mopp (mconj (mk_mat n n a)))
  = Ok (mk_mat (2 * n) (2 * n) (generator_entry n a b)).
Proof.
  intros Hn. unfold np_block, mopp.
  rewrite !mconj_mk_mat, transpose_mk_mat, !map_map_mk_mat by exact Hn.
  rewrite !hstack_mk_mat. cbn [bind].
  rewrite vstack_mk_mat by exact Hn. f_equal.
  replace (n + n)%nat with (2 * n)%nat by lia.
  apply mk_mat_ext; intros i j Hi Hj. unfold generator_entry.
  destruct (Nat.ltb_spec i n), (Nat.ltb_spec j n); reflexivity.
Qed.

Lemma Q_ok u TD TN dz ks dk im ip n :
  (0 < n)%nat -> length u = n -> length ks = n ->
  index_table n im -> index_table n ip ->
  kerrlib.Q u TD TN dz ks dk im ip (Z.of_nat n)
  = Ok (mk_mat (2 * n) (2 * n)
          (generator_entry n
             (fun i j =>
                (if (i =? j)%nat then RtoC (nth i (dispersion TD ks) 0) else C0)
                + Cdivr (Rscal (2 * dk)
                           (nth (Z.to_nat (table_get im i j))
                                (spectrum (intensity u) TN dz) C0))
                        (sqrt (2 * PI)))%C
             (fun i j =>
                Cdivr (Rscal dk (nth (Z.to_nat (table_get ip i j))
                                     (spectrum (square u) TN dz) C0))
                      (sqrt (2 * PI))))).
Proof.
  intros Hn Hu Hk Him Hip. unfold kerrlib.Q.
  rewrite (A_ok u TD TN dz ks dk im n) by assumption. cbn [bind].
  rewrite (B_ok u TN dz dk ip n) by assumption. cbn [bind].
  apply np_block_generator. exact Hn.
Qed.

(** ** Block-diagonal transfer matrices *)

Lemma is_square_matrix d a : is_matrix d d a -> is_square a = true.
Proof.
  intros [Hl Hc]. unfold is_square. apply forallb_forall. intros row Hin.
  rewrite Forall_forall in Hc. rewrite (Hc row Hin), Hl. apply Nat.eqb_refl.
Qed.

Lemma off_block_trans n i l j :
  off_block n i j -> off_block n i l \/ off_block n l j.
Proof. unfold off_block. lia. Qed.

Lemma mpow_block_diagonal n a :
  block_diagonal n a ->
  forall k i j, (i < 2 * n)%nat -> (j < 2 * n)%nat -> off_block n i j ->
                entry (mpow (2 * n) a k) i j = C0.
Proof.
  intros [Hm Ha] k. induction k as [|k IH]; intros i j Hi Hj Hoff.
  - cbn [mpow]. unfold identity. rewrite entry_mk_mat by assumption.
    destruct (Nat.eqb_spec i j); [unfold off_block in Hoff; lia | reflexivity].
  - cbn [mpow]. unfold mm_sq. rewrite entry_mk_mat by assumption.
    apply Csum_zero; intros l Hl.
    destruct (off_block_trans n i l j Hoff) as [H|H].
    + rewrite (Ha i l) by assumption. apply Cmul_0_l.
    + rewrite (IH l j) by assumption. apply Cmul_0_r.
Qed.

(** The exponential of a block-diagonal matrix is block-diagonal. *)
Lemma expm_block_diagonal n a :
  block_diagonal n a -> exists E, expm a = Ok E /\ block_diagonal n E.
Proof.
  intros Hb. pose proof Hb as [Hm Ha]. unfold expm.
  rewrite (is_square_matrix (2 * n) a Hm). destruct Hm as [Hl Hc].
  rewrite Hl. eexists; split; [reflexivity|]. split.
  - apply is_matrix_mk_mat.
  - intros i j Hi Hj Hoff. rewrite entry_mk_mat by assumption.
    apply (Clim_eventually _ _ 0). intros N _. unfold exp_partial.
    apply Csum_zero; intros k _.
    rewrite (mpow_block_diagonal n a Hb) by assumption. apply Cdivr_0.
Qed.

Lemma ncols_is_matrix r c (a : mat) :
  (0 < r)%nat -> is_matrix r c a -> ncols a = c.
Proof.
  intros Hr [Hl Hc]. destruct a as [|row a]; [simpl in Hl; lia|].
  inversion Hc; subst. reflexivity.
Qed.

Lemma mm_ok r c d a b :
  (0 < r)%nat -> (0 < c)%nat -> is_matrix r c a -> is_matrix c d b ->
  mm a b = Ok (mk_mat r d (fun i j =>
                             Csum c (fun k => entry a i k * entry b k j)%C)).
Proof.
  intros Hr Hc Ha Hb.
  rewrite (mat_eta r c a Ha) at 1. rewrite (mat_eta c d b Hb) at 1.
  apply mm_mk_mat; assumption.
Qed.

Lemma mm_block_diagonal n E K :
  (0 < n)%nat -> block_diagonal n E -> block_diagonal n K ->
  exists K', mm E K = Ok K' /\ block_diagonal n K'.
Proof.
  intros Hn [HmE HE] [HmK HK].
  rewrite (mm_ok (2 * n) (2 * n) (2 * n)) by (assumption || lia).
  eexists; split; [reflexivity|]. split; [apply is_matrix_mk_mat|].
  intros i j Hi Hj Hoff. rewrite entry_mk_mat by assumption.
  apply Csum_zero; intros l Hl.
  destruct (off_block_trans n i l j Hoff) as [H|H].
  - rewrite (HE i l) by assumption. apply Cmul_0_l.
  - rewrite (HK l j) by assumption. apply Cmul_0_r.
Qed.

Lemma identity_block_diagonal n : block_diagonal n (identity (2 * n)).
Proof.
  split; [apply is_matrix_mk_mat|]. intros i j Hi Hj Hoff.
  unfold identity. rewrite entry_mk_mat by assumption.
  destruct (Nat.eqb_spec i j); [unfold off_block in Hoff; lia | reflexivity].
Qed.

Lemma mscale_block_diagonal n z a :
  block_diagonal n a -> block_diagonal n (mscale z a).
Proof.
  intros [Hm Ha]. unfold mscale.
  rewrite (mat_eta _ _ a Hm), map_map_mk_mat.
  split; [apply is_matrix_mk_mat|]. intros i j Hi Hj Hoff.
  rewrite entry_mk_mat, Ha by assumption. apply Cmul_0_r.
Qed.

Lemma moments_of_block_diagonal n K :
  block_diagonal n K ->
  top_right n K = zeros2 n n
  /\ moments_of (Z.of_nat n) K = Ok (zeros2 n n, zeros2 n n).
Proof.
  intros [Hm HK]. unfold moments_of. rewrite Nat2Z.id.
  rewrite (mat_eta _ _ K Hm).
  rewrite top_left_mk_mat, top_right_mk_mat by lia.
  assert (HW : mk_mat n n (fun i j => entry K i (n + j)) = zeros2 n n).
  { apply mk_mat_ext; intros i j Hi Hj. apply HK; unfold off_block; lia. }
  rewrite HW. split; [reflexivity|].
  destruct n as [|n]; [reflexivity|].
  unfold zeros2. rewrite transpose_mk_mat, mconj_mk_mat by lia.
  rewrite !mm_mk_mat by lia. cbn [bind].
  f_equal. f_equal; apply mk_mat_ext; intros i j Hi Hj;
    apply Csum_zero; intros l Hl; rewrite ?Cconj_0; ring.
Qed.

Lemma spectrum_intensity_zeros TN dz n :
  (0 < n)%nat -> spectrum (intensity (repeat C0 n)) TN dz = repeat C0 n.
Proof.
  intros Hn. pose proof (m_zeros TN dz n Hn) as H.
  rewrite m_ok in H by (destruct n; [lia | discriminate]).
  injection H as H. exact H.
Qed.

Lemma spectrum_square_zeros TN dz n :
  (0 < n)%nat -> spectrum (square (repeat C0 n)) TN dz = repeat C0 n.
Proof.
  intros Hn. pose proof (s_zeros TN dz n Hn) as H.
  rewrite s_ok in H by (destruct n; [lia | discriminate]).
  injection H as H. exact H.
Qed.

Lemma Rscal_0 r : Rscal r C0 = C0.
Proof. apply C_eq; simpl; ring. Qed.

Lemma A_zeros TD TN dz ks dk im n :
  (0 < n)%nat -> length ks = n -> index_table n im ->
  kerrlib.A (repeat C0 n) TD TN dz ks dk im (Z.of_nat n)
  = Ok (np_diag (dispersion TD ks)).
Proof.
  intros Hn Hk Ht.
  rewrite (A_ok _ TD TN dz ks dk im n)
    by (try assumption; apply repeat_length).
  f_equal. unfold np_diag.
  replace (length (dispersion TD ks)) with n
    by (unfold dispersion; rewrite length_map; symmetry; exact Hk).
  apply mk_mat_ext; intros i j Hi Hj.
  rewrite spectrum_intensity_zeros, nth_repeat, Rscal_0, Cdivr_0 by exact Hn.
  apply Cadd_0_r.
Qed.

Lemma B_zeros TN dz dk ip n :
  (0 < n)%nat -> index_table n ip ->
  kerrlib.B (repeat C0 n) TN dz dk ip = Ok (zeros2 n n).
Proof.
  intros Hn Ht.
  rewrite (B_ok _ TN dz dk ip n) by (try assumption; apply repeat_length).
  f_equal. apply mk_mat_ext; intros i j Hi Hj.
  rewrite spectrum_square_zeros, nth_repeat, Rscal_0, Cdivr_0 by exact Hn.
  reflexivity.
Qed.

Lemma Q_zeros_block_diagonal TD TN dz ks dk im ip n :
  (0 < n)%nat -> length ks = n -> index_table n im -> index_table n ip ->
  exists q, kerrlib.Q (repeat C0 n) TD TN dz ks dk im ip (Z.of_nat n) = Ok q
            /\ block_diagonal n q.
Proof.
  intros Hn Hk Him Hip.
  rewrite (Q_ok _ TD TN dz ks dk im ip n)
    by (try assumption; apply repeat_length).
  eexists; split; [reflexivity|]. split; [apply is_matrix_mk_mat|].
  intros i j Hi Hj Hoff. rewrite entry_mk_mat by assumption.
  unfold generator_entry.
  rewrite spectrum_square_zeros by exact Hn.
  destruct (Nat.ltb_spec i n), (Nat.ltb_spec j n);
    try (unfold off_block in Hoff; lia);
    rewrite nth_repeat, Rscal_0, Cdivr_0; [reflexivity | csimp].
Qed.

Lemma zero_field_run TD TN dz kk ks dk im ip dt n :
  (0 < n)%nat -> length kk = n -> length ks = n ->
  index_table n im -> index_table n ip ->
  forall k, exists K,
    engine_run TD TN dz kk ks dk im ip dt (Z.of_nat n) 0 (accumulate dt) k
      (repeat C0 n, identity (2 * n)) = Ok (repeat C0 n, K)
    /\ block_diagonal n K.
Proof.
  intros Hn Hkk Hks Him Hip k. induction k as [|k [K [Hrun HK]]].
  - exists (identity (2 * n)). split; [reflexivity|].
    apply identity_block_diagonal.
  - cbn [engine_run]. rewrite Hrun. cbn [bind].
    unfold engine_step. cbn [fst snd].
    rewrite field_step_zeros by assumption. cbn [bind].
    destruct (Q_zeros_block_diagonal TD TN dz ks dk im ip n Hn Hks Him Hip)
      as [q [Hq Hbq]].
    rewrite Hq. cbn [bind]. unfold accumulate, step_transfer.
    destruct (expm_block_diagonal n _
                (mscale_block_diagonal n (Ci * RtoC dt) q Hbq))
      as [E [HE HbE]].
    rewrite HE. cbn [bind].
    destruct (mm_block_diagonal n E K Hn HbE HK) as [K' [HK' HbK']].
    rewrite HK'. cbn [bind]. exists K'. split; [reflexivity | exact HbK'].
Qed.

(** C8.  For the zero field on a grid of [n >= 1] points, with grids of
    length [n], index tables of shape [n x n] with entries in [0 .. n-1] and
    nonzero dispersion and nonlinear times: [A] is the dispersion diagonal
    and [B] is zero; after any number of transitions of the lossless loop
    the field is still zero and the transfer matrix is block-diagonal, so
    that [W = 0]; and [P_no_loss] returns the zero field and zero moments
    for every step count. *)
Theorem zero_field_stays_zero
  (TD TN dz : R) (kk ks : list R) (dk : R) (im ip : list (list Z)) (dt : R)
  (n : nat) :
  (0 < n)%nat -> TD <> 0 -> TN <> 0 ->
  length kk = n -> length ks = n -> index_table n im -> index_table n ip ->
  kerrlib.A (repeat C0 n) TD TN dz ks dk im (Z.of_nat n)
  = Ok (np_diag (dispersion TD ks))
  /\ kerrlib.B (repeat C0 n) TN dz dk ip = Ok (zeros2 n n)
  /\ (forall k, exists K,
        engine_run TD TN dz kk ks dk im ip dt (Z.of_nat n) 0 (accumulate dt) k
          (repeat C0 n, identity (2 * n)) = Ok (repeat C0 n, K)
        /\ block_diagonal n K
        /\ top_right n K = zeros2 n n)
  /\ (forall tf,
        kerrlib.P_no_loss (repeat C0 n) TD TN dz kk ks dk im ip tf dt
          (Z.of_nat n)
        = Ok (repeat C0 n, zeros2 n n, zeros2 n n)).
Proof.
  intros Hn _ _ Hkk Hks Him Hip.
  split; [apply A_zeros; assumption|].
  split; [apply B_zeros; assumption|].
  split.
  - intros k.
    destruct (zero_field_run TD TN dz kk ks dk im ip dt n Hn Hkk Hks Him Hip k)
      as [K [Hrun HK]].
    exists K. split; [exact Hrun|]. split; [exact HK|].
    apply moments_of_block_diagonal. exact HK.
  - intros tf. rewrite P_no_loss_accumulated. unfold accumulated_transfer.
    rewrite np_zeros_nat. cbn [bind].
    replace (Z.to_nat (2 * Z.of_nat n)) with (2 * n)%nat by lia.
    destruct (zero_field_run TD TN dz kk ks dk im ip dt n Hn Hkk Hks Him Hip
                (Z.to_nat tf)) as [K [Hrun HK]].
    match goal with
    | |- bind ?c _ = _ =>
        replace c with (@Ok (vec * mat) (repeat C0 n, K))
          by (symmetry; exact Hrun)
    end.
    cbn [bind].
    destruct (moments_of_block_diagonal n K HK) as [_ HM].
    rewrite HM. reflexivity.
Qed.

Lemma index_table_one : index_table 1 [[0%Z]].
Proof.
  split; [reflexivity|]. repeat constructor; simpl; lia.
Defined.

Lemma zero_field_stays_zero_one_point :
  (0 < 1)%nat /\ 1 <> 0 /\
  (forall tf,
      kerrlib.P_no_loss [C0] 1 1 1 [0] [0] 1 [[0%Z]] [[0%Z]] tf 1 1
      = Ok ([C0], [[C0]], [[C0]])).
Proof.
  split; [lia|]. split; [lra|].
  apply (zero_field_stays_zero 1 1 1 [0] [0] 1 [[0%Z]] [[0%Z]] 1 1);
    try reflexivity; try lia; try lra; apply index_table_one.
Defined.

(** ** The first step of the moment recursion, for any transfer matrix *)

Lemma mv_zeros a r c :
  (0 < r)%nat -> is_matrix r c a -> mv a (repeat C0 c) = Ok (repeat C0 r).
Proof.
  intros Hr Ha. unfold mv.
  rewrite (ncols_is_matrix r c a Hr Ha), repeat_length, Nat.eqb_refl.
  f_equal. destruct Ha as [Hl _].
  set (f := fun row => Csum c (fun k => nth k row C0
                                        * nth k (repeat C0 c) C0)%C).
  replace r with (length (map f a)) by (rewrite length_map; exact Hl).
  apply (repeat_ext_nth _ C0 C0). intros i Hi. rewrite length_map in Hi.
  rewrite (nth_map_lt f a i C0 []) by exact Hi.
  apply Csum_zero; intros k _. rewrite nth_repeat. apply Cmul_0_r.
Qed.

Lemma vm_zeros b r c :
  (0 < r)%nat -> is_matrix r c b -> vm (repeat C0 r) b = Ok (repeat C0 c).
Proof.
  intros Hr Hb. unfold vm, nrows. pose proof Hb as [Hl _].
  rewrite repeat_length, Hl, Nat.eqb_refl, (ncols_is_matrix r c b Hr Hb).
  f_equal.
  rewrite (map_ext _ (fun _ => C0))
    by (intros j; apply Csum_zero; intros k _; rewrite nth_repeat;
        apply Cmul_0_l).
  apply map_const_seq.
Qed.

Lemma vadd_zeros n : vadd (repeat C0 n) (repeat C0 n) = Ok (repeat C0 n).
Proof.
  unfold vadd. rewrite bzip_same by reflexivity. rewrite zipM_pure. f_equal.
  assert (Hl : length (map2 Cadd (repeat C0 n) (repeat C0 n)) = n)
    by (rewrite length_map2; rewrite ?repeat_length; reflexivity).
  rewrite <- Hl at 3. apply (repeat_ext_nth _ C0 C0).
  intros i Hi. rewrite Hl in Hi.
  rewrite (nth_map2 Cadd _ _ i C0 C0) by (rewrite ?repeat_length; lia).
  rewrite nth_repeat. apply Cadd_0_l.
Qed.

Lemma row_add_zeros row :
  bzip (fun x y => Ok (x + y)%C) (repeat C0 (length row)) row = Ok row.
Proof.
  rewrite bzip_same by apply repeat_length. rewrite zipM_pure. f_equal.
  apply nth_ext with (d := C0) (d' := C0).
  - rewrite length_map2; rewrite repeat_length; reflexivity.
  - intros i Hi. rewrite length_map2, repeat_length in Hi
      by (rewrite repeat_length; reflexivity).
    rewrite (nth_map2 Cadd _ _ i C0 C0) by (rewrite ?repeat_length; lia).
    rewrite nth_repeat. apply Cadd_0_l.
Qed.

(** A zero row broadcast over a matrix leaves the matrix as it is. *)
Lemma madd_zero_row a r c :
  is_matrix r c a -> madd [repeat C0 c] a = Ok a.
Proof.
  intros [Hl Hc]. rewrite Forall_forall in Hc.
  assert (Hrows : mapM (bzip (fun x y => Ok (x + y)%C) (repeat C0 c)) a
                  = Ok a).
  { rewrite (mapM_ok _ (fun row => row)).
    - rewrite map_id. reflexivity.
    - intros row Hin. rewrite <- (Hc row Hin). apply row_add_zeros. }
  unfold madd, bzip at 1. cbn [length].
  destruct a as [|row [|row' a]].
  - reflexivity.
  - cbn [length Nat.eqb zipM]. rewrite <- (Hc row) by (left; reflexivity).
    rewrite row_add_zeros. reflexivity.
  - cbn [length Nat.eqb]. exact Hrows.
Qed.

Lemma is_matrix_top_left n K :
  is_matrix (2 * n) (2 * n) K -> is_matrix n n (top_left n K).
Proof.
  intros HK. rewrite (mat_eta _ _ K HK), top_left_mk_mat by lia.
  apply is_matrix_mk_mat.
Qed.

Lemma is_matrix_top_right n K :
  is_matrix (2 * n) (2 * n) K -> is_matrix n n (top_right n K).
Proof.
  intros HK. rewrite (mat_eta _ _ K HK), top_right_mk_mat by lia.
  apply is_matrix_mk_mat.
Qed.

Lemma is_matrix_transpose r c a :
  (0 < r)%nat -> is_matrix r c a -> is_matrix c r (transpose a).
Proof.
  intros Hr Ha. unfold transpose, nrows.
  rewrite (ncols_is_matrix r c a Hr Ha). destruct Ha as [-> _].
  apply is_matrix_mk_mat.
Qed.

Lemma is_matrix_mconj r c a : is_matrix r c a -> is_matrix r c (mconj a).
Proof.
  intros Ha. unfold mconj. rewrite (mat_eta _ _ a Ha), map_map_mk_mat.
  apply is_matrix_mk_mat.
Qed.

Lemma is_matrix_mm r c d a b m :
  (0 < r)%nat -> (0 < c)%nat -> is_matrix r c a -> is_matrix c d b ->
  mm a b = Ok m -> is_matrix r d m.
Proof.
  intros Hr Hc Ha Hb H. rewrite (mm_ok r c d) in H by assumption.
  injection H as <-. apply is_matrix_mk_mat.
Qed.

(** From zero moments, one step of the simultaneous recursion on the blocks
    of any transfer matrix gives [M = U @ W.T] and [N = conj(W) @ W.T]: the
    moments [P_no_loss] reads off that matrix. *)
Lemma simultaneous_first_step n K M N :
  (0 < n)%nat -> is_matrix (2 * n) (2 * n) K ->
  moments_of (Z.of_nat n) K = Ok (M, N) ->
  let U := Arr2 (top_left n K) in
  let W := Arr2 (top_right n K) in
  M_next U W (Arr1 (repeat C0 n)) (Arr1 (repeat C0 n)) = Ok (Arr2 M)
  /\ N_next U W (Arr1 (repeat C0 n)) (Arr1 (repeat C0 n)) = Ok (Arr2 N).
Proof.
  intros Hn HK Hmom U W. unfold moments_of in Hmom. rewrite Nat2Z.id in Hmom.
  pose proof (is_matrix_top_left n K HK) as HU.
  pose proof (is_matrix_top_right n K HK) as HW.
  pose proof (is_matrix_transpose n n _ Hn HU) as HUt.
  pose proof (is_matrix_transpose n n _ Hn HW) as HWt.
  pose proof (is_matrix_mconj n n _ HU) as HUc.
  pose proof (is_matrix_mconj n n _ HW) as HWc.
  destruct (mm (top_left n K) (transpose (top_right n K))) as [M'|] eqn:EM;
    [|discriminate].
  cbn [bind] in Hmom.
  destruct (mm (mconj (top_right n K)) (transpose (top_right n K)))
    as [N'|] eqn:EN; [|discriminate].
  injection Hmom as <- <-.
  pose proof (is_matrix_mm n n n _ _ _ Hn Hn HU HWt EM) as HM.
  pose proof (is_matrix_mm n n n _ _ _ Hn Hn HWc HWt EN) as HN.
  unfold M_next, N_next, U, W, matmulR, addR.
  cbn [bind nd_matmul nd_T nd_conj]. rewrite map_repeat, Cconj_0.
  rewrite !(mv_zeros _ n n) by assumption. cbn [bind nd_matmul].
  rewrite !(vm_zeros _ n n) by assumption. cbn [bind nd_add].
  rewrite EM, EN. cbn [bind nd_add].
  repeat (rewrite vadd_zeros; cbn [bind nd_add]).
  unfold vec, mat in *.
  rewrite (madd_zero_row M' n n HM), (madd_zero_row N' n n HN).
  split; reflexivity.
Qed.

(** ** Conjugate symmetry of the transform of a real array *)

Lemma real_valued_nth x m : real_valued x -> Cconj (nth m x C0) = nth m x C0.
Proof.
  intros H. destruct (Nat.lt_ge_cases m (length x)) as [Hm|Hm].
  - unfold real_valued in H. rewrite Forall_forall in H.
    pose proof (H _ (nth_In x C0 Hm)) as Hz.
    apply C_eq; simpl; [reflexivity | rewrite Hz; ring].
  - rewrite nth_overflow by exact Hm. apply Cconj_0.
Qed.

Lemma real_valued_intensity u : real_valued (intensity u).
Proof.
  unfold real_valued, intensity. apply Forall_forall. intros z Hz.
  apply in_map_iff in Hz. destruct Hz as [w [<- _]]. reflexivity.
Qed.

Lemma Cexp_conj_wrap (m : nat) (t1 t2 : R) :
  t1 + 2 * INR m * PI = - t2 ->
  Cexp (mkC 0 t1) = Cconj (Cexp (mkC 0 t2)).
Proof.
  intros H. unfold Cexp, Cconj. cbn [Re Im].
  rewrite <- (cos_period t1 m), <- (sin_period t1 m), H, cos_neg, sin_neg.
  apply C_eq; simpl; ring.
Qed.

Lemma dft_real_mirror x q :
  real_valued x -> (q <= length x)%nat -> (0 < length x)%nat ->
  dft_entry (-1) x (length x - q) = Cconj (dft_entry (-1) x q).
Proof.
  intros Hx Hq Hn. unfold dft_entry. rewrite Csum_conj.
  apply Csum_ext; intros m Hm.
  rewrite Cconj_mul, (real_valued_nth x m Hx). f_equal.
  apply (Cexp_conj_wrap m). rewrite minus_INR by exact Hq.
  assert (INR (length x) <> 0) by (apply not_0_INR; lia).
  field. assumption.
Qed.

Lemma dft_real_0 x :
  real_valued x -> dft_entry (-1) x 0 = Cconj (dft_entry (-1) x 0).
Proof.
  intros Hx. unfold dft_entry. rewrite Csum_conj.
  apply Csum_ext; intros m Hm.
  rewrite Cconj_mul, (real_valued_nth x m Hx). f_equal.
  apply (Cexp_conj_wrap 0). simpl. unfold Rdiv. ring.
Qed.

Lemma nth_spectrum x TN dz p :
  (p < length x)%nat ->
  nth p (spectrum x TN dz) C0
  = Cdivr (Cdivr (Cmulr
       (dft_entry (-1) x
          (if (p <? length x / 2)%nat
           then (length x - length x / 2 + p)%nat
           else (p - length x / 2)%nat)) dz) (sqrt (2 * PI))) TN.
Proof.
  intros Hp. unfold spectrum.
  rewrite (nth_indep _ C0 (Cdivr C0 TN))
    by (rewrite length_map, length_fftshift, !length_map, length_seq; exact Hp).
  rewrite (map_nth (fun y => Cdivr y TN)). f_equal.
  rewrite map_map.
  rewrite nth_fftshift by (rewrite length_map, length_seq; exact Hp).
  rewrite length_map, length_seq.
  pose proof (half_le (length x)) as Hh.
  destruct (Nat.ltb_spec p (length x / 2));
    rewrite (nth_map_seq
               (fun k => Cdivr (Cmulr (dft_entry (-1) x k) dz) (sqrt (2 * PI))))
      by lia; reflexivity.
Qed.

Lemma spectrum_scale_conj z dz TN :
  Cconj (Cdivr (Cdivr (Cmulr z dz) (sqrt (2 * PI))) TN)
  = Cdivr (Cdivr (Cmulr (Cconj z) dz) (sqrt (2 * PI))) TN.
Proof. apply C_eq; simpl; unfold Rdiv; ring. Qed.

Lemma odd_half c : ((2 * c + 1) / 2 = c)%nat.
Proof.
  symmetry. apply (Nat.div_unique (2 * c + 1) 2 c 1); lia.
Qed.

(** On a grid of odd length [2c + 1] the shifted spectrum of a real array is
    conjugate-symmetric about its centre [c]. *)
Lemma spectrum_real_mirror x TN dz c p :
  real_valued x -> length x = (2 * c + 1)%nat -> (p <= 2 * c)%nat ->
  nth (2 * c - p) (spectrum x TN dz) C0
  = Cconj (nth p (spectrum x TN dz) C0).
Proof.
  intros Hx Hl Hp. rewrite !nth_spectrum by lia.
  rewrite spectrum_scale_conj, Hl, odd_half. do 3 f_equal.
  destruct (Nat.ltb_spec (2 * c - p) c), (Nat.ltb_spec p c); try lia.
  - replace (2 * c + 1 - c + (2 * c - p))%nat
      with (length x - (p - c))%nat by lia.
    apply dft_real_mirror; [exact Hx | lia | lia].
  - replace (2 * c + 1 - c + p)%nat with (length x - (2 * c - p - c))%nat
      by lia.
    rewrite dft_real_mirror by (try exact Hx; lia).
    rewrite Cconj_involutive. reflexivity.
  - replace (2 * c - p - c)%nat with 0%nat by lia.
    replace (p - c)%nat with 0%nat by lia.
    apply dft_real_0. exact Hx.
Qed.

(** ** [A] is Hermitian and [B] symmetric on the tables of the grid *)

Lemma A_hermitian_on_table c u TD TN dz ks dk im :
  length u = (2 * c + 1)%nat -> length ks = (2 * c + 1)%nat ->
  difference_table c im ->
  exists a,
    kerrlib.A u TD TN dz ks dk im (Z.of_nat (2 * c + 1)) = Ok a
    /\ hermitian (2 * c + 1) a.
Proof.
  intros Hu Hk [Ht Hd].
  rewrite (A_ok u TD TN dz ks dk im (2 * c + 1)) by (assumption || lia).
  eexists; split; [reflexivity|]. split; [apply is_matrix_mk_mat|].
  intros i j Hi Hj. rewrite !entry_mk_mat by assumption.
  rewrite Cconj_add. f_equal.
  - rewrite (Nat.eqb_sym j i).
    destruct (Nat.eqb_spec i j) as [->|]; [|symmetry; apply Cconj_0].
    symmetry; apply Cconj_RtoC.
  - rewrite !Hd by assumption.
    assert (Hb : (0 <= clip_index c (Z.of_nat j - Z.of_nat i)
                  <= 2 * Z.of_nat c)%Z) by (unfold clip_index; lia).
    replace (Z.to_nat (clip_index c (Z.of_nat i - Z.of_nat j)))
      with (2 * c - Z.to_nat (clip_index c (Z.of_nat j - Z.of_nat i)))%nat
      by (unfold clip_index in *; lia).
    rewrite (spectrum_real_mirror _ TN dz c)
      by first [ apply real_valued_intensity
               | unfold intensity; rewrite length_map; exact Hu
               | lia ].
    apply C_eq; simpl; unfold Rdiv; ring.
Qed.

Lemma B_symmetric_on_table c u TN dz dk ip :
  length u = (2 * c + 1)%nat -> sum_table c ip ->
  exists b,
    kerrlib.B u TN dz dk ip = Ok b /\ symmetric (2 * c + 1) b.
Proof.
  intros Hu [Ht Hs].
  rewrite (B_ok u TN dz dk ip (2 * c + 1)) by (assumption || lia).
  eexists; split; [reflexivity|]. split; [apply is_matrix_mk_mat|].
  intros i j Hi Hj. rewrite !entry_mk_mat by assumption.
  rewrite !Hs by assumption.
  replace (Z.of_nat i - Z.of_nat c + (Z.of_nat j - Z.of_nat c))%Z
    with (Z.of_nat j - Z.of_nat c + (Z.of_nat i - Z.of_nat c))%Z by lia.
  reflexivity.
Qed.

(** ** The grid and the index tables of the driver *)

Lemma Int_part_IZR k : Int_part (IZR k) = k.
Proof. symmetry. apply Int_part_spec. lra. Qed.

Lemma rint_IZR k : rint (IZR k) = k.
Proof.
  unfold rint, frac_part. rewrite Int_part_IZR.
  destruct (Rlt_dec (IZR k - IZR k) (1 / 2)); [reflexivity | lra].
Qed.

Lemma clip_IZR m hi :
  (0 <= hi)%Z -> clip (IZR m) 0 (IZR hi) = IZR (Z.min hi (Z.max m 0)).
Proof.
  intros Hhi. unfold clip.
  assert (Hmax : Rmax (IZR m) 0 = IZR (Z.max m 0)).
  { destruct (Z.max_spec m 0) as [[H ->]|[H ->]].
    - apply Rmax_right. apply IZR_le. lia.
    - apply Rmax_left. apply IZR_le. lia. }
  rewrite Hmax.
  destruct (Z.min_spec hi (Z.max m 0)) as [[H ->]|[H ->]].
  - apply Rmin_left. apply IZR_le. lia.
  - apply Rmin_right. apply IZR_le. lia.
Qed.

Lemma astype_int_IZR m : (0 <= m)%Z -> astype_int (IZR m) = m.
Proof.
  intros H. unfold astype_int.
  destruct (Rle_dec 0 (IZR m)) as [_|Hn]; [apply Int_part_IZR|].
  exfalso. apply Hn. apply IZR_le. exact H.
Qed.

Lemma zhalf_even (c : nat) : ((Z.of_nat (2 * c + 1) - 1) / 2)%Z = Z.of_nat c.
Proof. symmetry. apply (Z.div_unique _ 2 _ 0); lia. Qed.

Lemma zhalf_odd (c : nat) : (Z.of_nat (2 * c + 1) / 2)%Z = Z.of_nat c.
Proof. symmetry. apply (Z.div_unique _ 2 _ 1); lia. Qed.

Lemma combine_map_same {S T U : Type} (f : S -> T) (g : S -> U) l :
  combine (map f l) (map g l) = map (fun x => (f x, g x)) l.
Proof.
  induction l as [|x l IH]; [reflexivity|]. cbn [map combine].
  rewrite IH. reflexivity.
Qed.

(** The tables of [index_tables] as double maps over the centred grid. *)
Lemma index_tables_maps self :
  QSS.index_tables self
  = (map (fun y =>
            map (fun x =>
                   astype_int
                     (clip (IZR (rint (x / QSS.dk self - y / QSS.dk self))
                            + (IZR (QSS.n self) - 1) / 2)
                           0 (IZR (QSS.n self) - 1)))
                (QSS.ks self))
         (QSS.ks self),
     map (fun y =>
            map (fun x =>
                   astype_int
                     (clip (IZR (rint (x / QSS.dk self + y / QSS.dk self))
                            + (IZR (QSS.n self) - 1) / 2)
                           0 (IZR (QSS.n self) - 1)))
                (QSS.ks self))
         (QSS.ks self)).
Proof.
  unfold QSS.index_tables, meshgrid, map2.
  rewrite !map_map, !combine_map_same, !map_map.
  f_equal; apply map_ext; intros y; cbn [fst snd];
    rewrite !map_map, combine_map_same, !map_map; reflexivity.
Qed.

Lemma tables_of_centred_grid c self :
  centred_grid c self ->
  difference_table c (fst (QSS.index_tables self))
  /\ sum_table c (snd (QSS.index_tables self)).
Proof.
  intros [Hn [Hl Hg]]. rewrite index_tables_maps. cbn [fst snd].
  assert (Hhalf : (IZR (QSS.n self) - 1) / 2 = IZR (Z.of_nat c)).
  { rewrite Hn, Nat2Z.inj_add, Nat2Z.inj_mul, plus_IZR, mult_IZR.
    simpl. field. }
  assert (Hhi : IZR (QSS.n self) - 1 = IZR (2 * Z.of_nat c)).
  { rewrite Hn, Nat2Z.inj_add, Nat2Z.inj_mul, plus_IZR, !mult_IZR.
    simpl. ring. }
  assert (Hentry :
    forall (op : R -> R -> R) (zop : Z -> Z -> Z),
      (forall a b, op (IZR a) (IZR b) = IZR (zop a b)) ->
      forall i j, (i < 2 * c + 1)%nat -> (j < 2 * c + 1)%nat ->
        table_get
          (map (fun y =>
                  map (fun x =>
                         astype_int
                           (clip (IZR (rint (op (x / QSS.dk self)
                                               (y / QSS.dk self)))
                                  + (IZR (QSS.n self) - 1) / 2)
                                 0 (IZR (QSS.n self) - 1)))
                      (QSS.ks self))
               (QSS.ks self)) i j
        = clip_index c (zop (Z.of_nat j - Z.of_nat c)%Z
                            (Z.of_nat i - Z.of_nat c)%Z)).
  { intros op zop Hop i j Hi Hj. unfold table_get.
    rewrite (nth_map_lt _ (QSS.ks self) i [] 0) by lia.
    rewrite (nth_map_lt _ (QSS.ks self) j 0%Z 0) by lia.
    rewrite !Hg by assumption.
    rewrite Hop, rint_IZR, Hhalf, Hhi, <- plus_IZR.
    rewrite clip_IZR by lia.
    rewrite astype_int_IZR by lia. reflexivity. }
  assert (Hshape :
    forall f : R -> R -> Z,
      (forall i j, (i < 2 * c + 1)%nat -> (j < 2 * c + 1)%nat ->
         (0 <= table_get
                 (map (fun y => map (fun x => f x y) (QSS.ks self))
                      (QSS.ks self)) i j
          < Z.of_nat (2 * c + 1))%Z) ->
      index_table (2 * c + 1)
        (map (fun y => map (fun x => f x y) (QSS.ks self)) (QSS.ks self))).
  { intros f Hf. split; [rewrite length_map; exact Hl|].
    apply Forall_forall. intros row Hrow.
    apply In_nth with (d := []) in Hrow. destruct Hrow as [i [Hi <-]].
    rewrite length_map in Hi. split.
    - rewrite (nth_map_lt _ (QSS.ks self) i [] 0) by exact Hi.
      rewrite length_map. exact Hl.
    - apply Forall_forall. intros k Hk.
      apply In_nth with (d := 0%Z) in Hk. destruct Hk as [j [Hj <-]].
      rewrite (nth_map_lt _ (QSS.ks self) i [] 0) in Hj by exact Hi.
      rewrite length_map in Hj. apply Hf; lia. }
  split; split.
  - apply (Hshape (fun x y => astype_int _)). intros i j Hi Hj.
    rewrite (Hentry Rminus Z.sub) by (assumption || (intros; symmetry; apply minus_IZR)).
    unfold clip_index. lia.
  - intros i j Hi Hj.
    rewrite (Hentry Rminus Z.sub) by (assumption || (intros; symmetry; apply minus_IZR)).
    f_equal. lia.
  - apply (Hshape (fun x y => astype_int _)). intros i j Hi Hj.
    rewrite (Hentry Rplus Z.add) by (assumption || (intros; symmetry; apply plus_IZR)).
    unfold clip_index. lia.
  - intros i j Hi Hj.
    rewrite (Hentry Rplus Z.add) by (assumption || (intros; symmetry; apply plus_IZR)).
    reflexivity.
Qed.

Lemma nth_fftfreq (c : nat) (d : R) q :
  (q < 2 * c + 1)%nat ->
  nth q (fftfreq (Z.of_nat (2 * c + 1)) d) 0
  = IZR (if (q <? c + 1)%nat then Z.of_nat q
         else (Z.of_nat q - Z.of_nat (2 * c + 1))%Z)
    * (1 / (IZR (Z.of_nat (2 * c + 1)) * d)).
Proof.
  intros Hq. unfold fftfreq. rewrite zhalf_even, zhalf_odd.
  replace (Z.to_nat (Z.of_nat c + 1)) with (c + 1)%nat by lia.
  rewrite Nat2Z.id.
  rewrite (nth_map_lt _ _ q 0 0%Z)
    by (rewrite length_app, !length_map, !length_seq; lia).
  f_equal. f_equal.
  destruct (Nat.ltb_spec q (c + 1)).
  - rewrite app_nth1 by (rewrite length_map, length_seq; lia).
    apply (nth_map_seq Z.of_nat). lia.
  - rewrite app_nth2 by (rewrite length_map, length_seq; lia).
    rewrite length_map, length_seq.
    rewrite (nth_map_seq (fun i => (Z.of_nat i - Z.of_nat c)%Z)) by lia.
    lia.
Qed.

Lemma length_fftfreq (c : nat) (d : R) :
  length (fftfreq (Z.of_nat (2 * c + 1)) d) = (2 * c + 1)%nat.
Proof.
  unfold fftfreq. rewrite zhalf_even, zhalf_odd.
  rewrite length_map, length_app, !length_map, !length_seq. lia.
Qed.

(** [qss.__init__] on an odd number [2c + 1 >= 3] of points and a nonzero
    half-width builds the centred grid. *)
Lemma init_centred (c : nat) (zf : R) :
  (1 <= c)%nat -> zf <> 0 ->
  exists self,
    QSS.init zf (Z.of_nat (2 * c + 1)) = Ok self /\ centred_grid c self.
Proof.
  intros Hc Hzf. unfold QSS.init, linspace.
  destruct (Z.ltb_spec (Z.of_nat (2 * c + 1)) 0); [lia|]. cbn [bind].
  rewrite Nat2Z.id.
  set (g := fun i : nat =>
              INR i * ((zf - - zf) / (IZR (Z.of_nat (2 * c + 1)) - 1)) + - zf).
  rewrite (index1_ok _ 1 0) by (rewrite length_map, length_seq; lia).
  cbn [bind].
  rewrite (index1_ok _ 0 0) by (rewrite length_map, length_seq; lia).
  cbn [bind]. change (Z.to_nat 1) with 1%nat. change (Z.to_nat 0) with 0%nat.
  rewrite !(nth_map_seq g) by lia.
  set (dz := g 1%nat - g 0%nat).
  assert (HN : IZR (Z.of_nat (2 * c + 1)) = 2 * INR c + 1).
  { rewrite <- INR_IZR_INZ, plus_INR, mult_INR. simpl. ring. }
  assert (Hcpos : 0 < INR c) by (apply lt_0_INR; lia).
  assert (Hdz : dz <> 0).
  { unfold dz, g. rewrite HN. simpl INR.
    intro H0. apply Hzf.
    assert (E : (1 * ((zf - - zf) / (2 * INR c + 1 - 1)) + - zf
                 - (0 * ((zf - - zf) / (2 * INR c + 1 - 1)) + - zf))
                = zf / INR c) by (field; lra).
    rewrite E in H0.
    apply (Rmult_eq_compat_r (INR c)) in H0.
    unfold Rdiv in H0. rewrite Rmult_assoc, Rinv_l, Rmult_1_r, Rmult_0_l in H0
      by lra.
    exact H0. }
  set (kk := map (fun f => f * (2 * PI)) (fftfreq (Z.of_nat (2 * c + 1)) dz)).
  assert (Hlen : length kk = (2 * c + 1)%nat)
    by (unfold kk; rewrite length_map; apply length_fftfreq).
  assert (Hkk : forall q, (q < 2 * c + 1)%nat ->
            nth q kk 0
            = IZR (if (q <? c + 1)%nat then Z.of_nat q
                   else (Z.of_nat q - Z.of_nat (2 * c + 1))%Z)
              * (1 / (IZR (Z.of_nat (2 * c + 1)) * dz)) * (2 * PI)).
  { intros q Hq. unfold kk.
    rewrite (nth_map_lt _ _ q 0 0) by (rewrite length_fftfreq; exact Hq).
    rewrite nth_fftfreq by exact Hq. reflexivity. }
  rewrite (index1_ok kk 1 0) by (rewrite Hlen; lia). cbn [bind].
  rewrite (index1_ok kk 0 0) by (rewrite Hlen; lia). cbn [bind].
  change (Z.to_nat 1) with 1%nat. change (Z.to_nat 0) with 0%nat.
  eexists; split; [reflexivity|]. unfold centred_grid. cbn [QSS.n QSS.ks QSS.dk].
  split; [reflexivity|]. split; [rewrite length_fftshift; exact Hlen|].
  intros p Hp. rewrite nth_fftshift by (rewrite Hlen; exact Hp).
  rewrite Hlen, odd_half.
  assert (Hval : IZR (Z.of_nat (2 * c + 1)) * dz <> 0).
  { rewrite HN. apply Rmult_integral_contrapositive_currified; lra. }
  pose proof PI_neq0 as Hpi.
  rewrite (Hkk 1%nat), (Hkk 0%nat) by lia.
  destruct (Nat.ltb_spec 1 (c + 1)); [|lia].
  destruct (Nat.ltb_spec 0 (c + 1)); [|lia].
  destruct (Nat.ltb_spec p c).
  - rewrite Hkk by lia.
    destruct (Nat.ltb_spec (2 * c + 1 - c + p) (c + 1)); [lia|].
    replace (Z.of_nat (2 * c + 1 - c + p) - Z.of_nat (2 * c + 1))%Z
      with (Z.of_nat p - Z.of_nat c)%Z by lia.
    simpl (IZR (Z.of_nat 1)). simpl (IZR (Z.of_nat 0)). field.
    repeat split; try assumption; rewrite HN; lra.
  - rewrite Hkk by lia.
    destruct (Nat.ltb_spec (p - c) (c + 1)); [|lia].
    replace (Z.of_nat (p - c)) with (Z.of_nat p - Z.of_nat c)%Z by lia.
    simpl (IZR (Z.of_nat 1)). simpl (IZR (Z.of_nat 0)). field.
    repeat split; try assumption; rewrite HN; lra.
Qed.

(** C6.  On the grid that the driver builds for an odd number [2c + 1 >= 3]
    of points and a nonzero half-width, with the index tables [im], [ip] it
    computes from the centred frequency grid (entries clipped into
    [0 .. 2c]), and for nonzero dispersion and nonlinear times: for every
    complex field [u] of length [2c + 1], [A] returns a Hermitian matrix and
    [B] a symmetric one. *)
Theorem A_hermitian_B_symmetric (c : nat) (zf TD TN : R) (u : vec) :
  (1 <= c)%nat -> zf <> 0 -> TD <> 0 -> TN <> 0 ->
  length u = (2 * c + 1)%nat ->
  exists self a b,
    QSS.init zf (Z.of_nat (2 * c + 1)) = Ok self
    /\ kerrlib.A u TD TN (QSS.dz self) (QSS.ks self) (QSS.dk self)
         (fst (QSS.index_tables self)) (QSS.n self) = Ok a
    /\ hermitian (2 * c + 1) a
    /\ kerrlib.B u TN (QSS.dz self) (QSS.dk self)
         (snd (QSS.index_tables self)) = Ok b
    /\ symmetric (2 * c + 1) b.
Proof.
  intros Hc Hzf _ _ Hu.
  destruct (init_centred c zf Hc Hzf) as [self [Hinit Hgrid]].
  destruct (tables_of_centred_grid c self Hgrid) as [Him Hip].
  destruct Hgrid as [Hn [Hl _]].
  destruct (A_hermitian_on_table c u TD TN (QSS.dz self) (QSS.ks self)
              (QSS.dk self) _ Hu Hl Him) as [a [Ha Hherm]].
  destruct (B_symmetric_on_table c u TN (QSS.dz self) (QSS.dk self) _ Hu Hip)
    as [b [Hb Hsym]].
  exists self, a, b. rewrite Hn.
  split; [exact Hinit|]. split; [exact Ha|]. split; [exact Hherm|].
  split; [exact Hb | exact Hsym].
Qed.

Lemma A_hermitian_B_symmetric_three_points :
  (1 <= 1)%nat /\ 1 <> 0 /\ length [C1; Ci; C0] = 3%nat /\
  exists self a b,
    QSS.init 1 3 = Ok self
    /\ kerrlib.A [C1; Ci; C0] 1 1 (QSS.dz self) (QSS.ks self) (QSS.dk self)
         (fst (QSS.index_tables self)) (QSS.n self) = Ok a
    /\ hermitian 3 a
    /\ kerrlib.B [C1; Ci; C0] 1 (QSS.dz self) (QSS.dk self)
         (snd (QSS.index_tables self)) = Ok b
    /\ symmetric 3 b.
Proof.
  split; [lia|]. split; [lra|]. split; [reflexivity|].
  apply (A_hermitian_B_symmetric 1 1 1 1 [C1; Ci; C0]);
    try lia; try lra; reflexivity.
Defined.

(** ** Errors of the transforms and of the propagators *)

Lemma myfft_nonempty x z dz :
  exists k, kerrlib.myfft (x :: z) dz = Ok k /\ length k = S (length z).
Proof.
  unfold kerrlib.myfft. rewrite fft_ok by discriminate. cbn [bind].
  eexists; split; [reflexivity|].
  rewrite length_fftshift, !length_map, length_seq. reflexivity.
Qed.

Lemma myifft_nonempty x k dk n :
  exists z, kerrlib.myifft (x :: k) dk n = Ok z /\ length z = S (length k).
Proof.
  unfold kerrlib.myifft. rewrite ifft_ok by discriminate. cbn [bind].
  eexists; split; [reflexivity|].
  rewrite length_ifftshift, !length_map, length_seq. reflexivity.
Qed.

Lemma np_zeros_cases n :
  np_zeros n = Err ValueError \/ exists z, np_zeros n = Ok z.
Proof.
  unfold np_zeros. destruct (n <? 0)%Z; [left | right; eexists]; reflexivity.
Qed.

Lemma opD_empty TD G kk dt : kerrlib.opD [] TD G kk dt = Err ValueError.
Proof. reflexivity. Qed.

(** The counterexample to C9: a field of length [0] on a grid of one point
    is returned, with zero moments, when no step is asked for; the same call
    with one step fails, inside that step. *)
Lemma empty_field_not_refused_before_stepping :
  kerrlib.P_no_loss [] 1 1 1 [0] [0] (2 * PI) [[0%Z]] [[0%Z]] 0 1 1
  = Ok ([], [[C0]], [[C0]])
  /\ kerrlib.P_no_loss [] 1 1 1 [0] [0] (2 * PI) [[0%Z]] [[0%Z]] 1 1 1
     = Err ValueError.
Proof.
  split.
  - unfold kerrlib.P_no_loss. change (np_zeros 1) with (Ok [C0]).
    cbn [bind Z.to_nat iterM]. change (Z.to_nat (2 * 1)) with 2%nat.
    change (Pos.to_nat 1) with 1%nat.
    cbn -[Cmul Cadd Cconj]. repeat f_equal; csimp.
  - reflexivity.
Qed.

(** C9, amended.  The transforms check nothing themselves: they fail, with
    numpy's [ValueError], exactly on an empty input, whatever the spacing,
    and on a nonempty input return an array of the same length for every
    spacing.  The propagators check nothing before their loop: with no step
    they return the field they were given and zero moments, and an empty
    field fails only inside the first step.  It is the driver,
    [qss.evolution], that refuses a field whose length is not the grid's
    before it propagates. *)
Theorem dimension_errors_where_raised :
  (forall dz, kerrlib.myfft [] dz = Err ValueError)
  /\ (forall dk n, kerrlib.myifft [] dk n = Err ValueError)
  /\ (forall x z dz,
        exists k, kerrlib.myfft (x :: z) dz = Ok k /\ length k = S (length z))
  /\ (forall x k dk n,
        exists z, kerrlib.myifft (x :: k) dk n = Ok z
                  /\ length z = S (length k))
  /\ (forall u TD TN G dz kk ks dk im ip dt (n : nat),
        kerrlib.P_no_loss u TD TN dz kk ks dk im ip 0 dt (Z.of_nat n)
        = Ok (u, zeros2 n n, zeros2 n n)
        /\ kerrlib.P_Nico u TD TN G dz kk ks dk im ip 0 dt (Z.of_nat n)
           = Ok (u, mrscale (exp (- G * dt * 0)) (zeros2 n n),
                    mrscale (exp (- G * dt * 0)) (zeros2 n n))
        /\ kerrlib.P_loss u TD TN G dz kk ks dk im ip 0 dt (Z.of_nat n)
           = Ok (u, Arr1 (repeat C0 n), Arr1 (repeat C0 n)))
  /\ (forall TD TN G dz kk ks dk im ip (p : positive) dt (n : Z),
        kerrlib.P_no_loss [] TD TN dz kk ks dk im ip (Z.pos p) dt n
        = Err ValueError
        /\ kerrlib.P_Nico [] TD TN G dz kk ks dk im ip (Z.pos p) dt n
           = Err ValueError
        /\ kerrlib.P_loss [] TD TN G dz kk ks dk im ip (Z.pos p) dt n
           = Err ValueError)
  /\ (forall self L G T0 P0 ng b2 g u loss TN TD scale_factor,
        (Z.of_nat (length u) =? QSS.n self)%Z = false ->
        QSS.evolution self L G T0 P0 ng b2 g u loss TN TD scale_factor
        = Err ValueError).
Proof.
  split; [reflexivity|]. split; [reflexivity|].
  split; [apply myfft_nonempty|]. split; [apply myifft_nonempty|].
  split; [|split].
  - intros u TD TN G dz kk ks dk im ip dt n. split; [|split].
    + rewrite P_no_loss_accumulated. unfold accumulated_transfer.
      rewrite np_zeros_nat. cbn [bind Z.to_nat engine_run].
      rewrite moments_of_identity. reflexivity.
    + rewrite P_Nico_accumulated. unfold accumulated_transfer.
      rewrite np_zeros_nat. cbn [bind Z.to_nat engine_run].
      rewrite moments_of_identity. reflexivity.
    + unfold kerrlib.P_loss. rewrite np_zeros_nat. reflexivity.
  - intros TD TN G dz kk ks dk im ip p dt n.
    destruct (Pos2Nat.is_succ p) as [k Hk].
    split; [|split].
    + unfold kerrlib.P_no_loss.
      destruct (np_zeros_cases n) as [->|[z ->]]; [reflexivity|].
      cbn [bind Z.to_nat]. rewrite Hk. reflexivity.
    + unfold kerrlib.P_Nico.
      destruct (np_zeros_cases n) as [->|[z ->]]; [reflexivity|].
      cbn [bind Z.to_nat]. rewrite Hk. reflexivity.
    + unfold kerrlib.P_loss.
      destruct (np_zeros_cases n) as [->|[z ->]]; [reflexivity|].
      cbn [bind Z.to_nat]. rewrite Hk. reflexivity.
  - intros self L G T0 P0 ng b2 g u loss TN TD scale_factor H.
    unfold QSS.evolution. rewrite H. reflexivity.
Qed.

Lemma evolution_refuses_short_field :
  (Z.of_nat (length [C1])
   =? QSS.n (QSS.mk_qss 299792458%R 1%R 3 [] 1%R [] [] 1%R))%Z = false
  /\ QSS.evolution (QSS.mk_qss 299792458%R 1%R 3 [] 1%R [] [] 1%R)
       1 0 1 1 1 1 1 [C1] false None None 1
     = Err ValueError.
Proof.
  split; [reflexivity|].
  destruct dimension_errors_where_raised as (_ & _ & _ & _ & _ & _ & H).
  apply H. reflexivity.
Defined.

(** ** Finite sums and roots of unity *)

Lemma Csum_add n f g :
  Csum n (fun k => f k + g k)%C = (Csum n f + Csum n g)%C.
Proof.
  induction n as [|n IH]; cbn [Csum]; [ring|]. rewrite IH. ring.
Qed.

Lemma Csum_mul_l n c f :
  Csum n (fun k => c * f k)%C = (c * Csum n f)%C.
Proof.
  induction n as [|n IH]; cbn [Csum]; [ring|]. rewrite IH. ring.
Qed.

Lemma Csum_mul_r n c f :
  Csum n (fun k => f k * c)%C = (Csum n f * c)%C.
Proof.
  induction n as [|n IH]; cbn [Csum]; [ring|]. rewrite IH. ring.
Qed.

Lemma Csum_exchange n m (f : nat -> nat -> C) :
  Csum n (fun i => Csum m (fun j => f i j))
  = Csum m (fun j => Csum n (fun i => f i j)).
Proof.
  induction n as [|n IH]; cbn [Csum].
  - symmetry. apply Csum_zero. reflexivity.
  - rewrite IH, <- Csum_add. reflexivity.
Qed.

Lemma Csum_delta n j (c : nat -> C) :
  (j < n)%nat ->
  Csum n (fun m => if (j =? m)%nat then c m else C0) = c j.
Proof.
  intros Hj. rewrite (Csum_single n _ j Hj).
  - rewrite Nat.eqb_refl. reflexivity.
  - intros k _ Hk. destruct (Nat.eqb_spec j k); [congruence | reflexivity].
Qed.

(** A unit phase [exp(i t)]. *)
Lemma Cexp_phase_add a b :
  Cexp (mkC 0 (a + b)) = (Cexp (mkC 0 a) * Cexp (mkC 0 b))%C.
Proof. rewrite <- Cexp_add. f_equal. apply C_eq; simpl; ring. Qed.

Lemma Cexp_phase_conj t : Cconj (Cexp (mkC 0 t)) = Cexp (mkC 0 (- t)).
Proof.
  unfold Cexp, Cconj. cbn [Re Im]. rewrite cos_neg, sin_neg.
  apply C_eq; simpl; ring.
Qed.

Lemma Cexp_phase_norm t :
  (Cexp (mkC 0 t) * Cconj (Cexp (mkC 0 t)))%C = C1.
Proof.
  rewrite Cexp_phase_conj, <- Cexp_phase_add. apply Cexp_angle_0. ring.
Qed.

Lemma Cexp_phase_turns (k : nat) t :
  Cexp (mkC 0 (t + 2 * INR k * PI)) = Cexp (mkC 0 t).
Proof.
  unfold Cexp. cbn [Re Im]. rewrite cos_period, sin_period. reflexivity.
Qed.

Lemma geometric_phase_sum t n :
  ((Cexp (mkC 0 t) - C1) * Csum n (fun k => Cexp (mkC 0 (INR k * t))))%C
  = (Cexp (mkC 0 (INR n * t)) - C1)%C.
Proof.
  induction n as [|n IH].
  - cbn [Csum]. rewrite (Cexp_angle_0 (INR 0 * t)) by (simpl; ring). ring.
  - cbn [Csum]. rewrite Cmul_add_distr_l, IH, S_INR.
    replace ((INR n + 1) * t) with (t + INR n * t) by ring.
    rewrite Cexp_phase_add. ring.
Qed.

Lemma Cmul_integral a b : (a * b)%C = C0 -> a <> C0 -> b = C0.
Proof.
  intros H Ha.
  assert (Hn : Re a * Re a + Im a * Im a <> 0).
  { intro H0. apply Ha. apply C_eq; simpl; nra. }
  apply (f_equal (fun z => (Cconj a * z)%C)) in H.
  rewrite Cmul_0_r in H.
  pose proof (f_equal Re H) as Hr. pose proof (f_equal Im H) as Hi.
  simpl in Hr, Hi.
  assert (Er : (Re a * Re a + Im a * Im a) * Re b = 0) by nra.
  assert (Ei : (Re a * Re a + Im a * Im a) * Im b = 0) by nra.
  apply Rmult_integral in Er, Ei.
  apply C_eq; simpl; tauto.
Qed.

Lemma Cexp_phase_not_1 t : 0 < t < 2 * PI -> Cexp (mkC 0 t) <> C1.
Proof.
  intros Ht H. apply (f_equal Re) in H. unfold Cexp in H. cbn [Re Im] in H.
  rewrite exp_0 in H. simpl in H.
  replace t with (2 * (t / 2)) in H by field.
  rewrite cos_2a_sin in H.
  assert (Hs : 0 < sin (t / 2)) by (apply sin_gt_0; lra).
  nra.
Qed.

Lemma Cexp_phase_int (k : nat) : Cexp (mkC 0 (2 * PI * INR k)) = C1.
Proof.
  replace (2 * PI * INR k) with (0 + 2 * INR k * PI) by ring.
  rewrite Cexp_phase_turns. apply Cexp_angle_0. reflexivity.
Qed.

(** The sum of the [n]-th roots of unity raised to the power [d]:
    [n] for [d = 0], zero for [0 < d < n]. *)
Lemma roots_of_unity_sum n d :
  (0 < d < n)%nat ->
  Csum n (fun k => Cexp (mkC 0 (INR k * (2 * PI * INR d / INR n)))) = C0.
Proof.
  intros Hd.
  assert (Hn : 0 < INR n) by (apply lt_0_INR; lia).
  assert (HdR : 0 < INR d < INR n)
    by (split; [apply lt_0_INR | apply lt_INR]; lia).
  apply (Cmul_integral (Cexp (mkC 0 (2 * PI * INR d / INR n)) - C1)).
  - rewrite geometric_phase_sum.
    replace (INR n * (2 * PI * INR d / INR n)) with (2 * PI * INR d)
      by (field; lra).
    rewrite Cexp_phase_int. ring.
  - intro H. apply (Cexp_phase_not_1 (2 * PI * INR d / INR n)).
    + pose proof PI_RGT_0. split.
      * apply Rdiv_lt_0_compat; nra.
      * apply (Rmult_lt_reg_r (INR n)); [lra|].
        unfold Rdiv. rewrite Rmult_assoc, Rinv_l, Rmult_1_r by lra. nra.
    + replace (Cexp (mkC 0 (2 * PI * INR d / INR n)))
        with (Cexp (mkC 0 (2 * PI * INR d / INR n)) - C1 + C1)%C by ring.
      rewrite H. ring.
Qed.

(** Orthogonality of the Fourier phases, in the two directions. *)
Lemma phase_orthogonal sgn n j m :
  sgn = 1 \/ sgn = -1 -> (j < n)%nat -> (m < n)%nat ->
  Csum n (fun k =>
            Cexp (mkC 0 (sgn * (2 * PI * INR k * (INR j - INR m) / INR n))))
  = if (j =? m)%nat then RtoC (INR n) else C0.
Proof.
  intros Hs Hj Hm.
  assert (Hn : INR n <> 0) by (apply not_0_INR; lia).
  destruct (Nat.eqb_spec j m) as [->|Hne].
  - rewrite (Csum_ext _ _ (fun _ => C1)).
    + rewrite Csum_const. apply C_eq; simpl; ring.
    + intros k _. apply Cexp_angle_0. unfold Rdiv. ring.
  - assert (Hcase :
      forall a b, (b < a < n)%nat ->
        Csum n (fun k =>
          Cexp (mkC 0 (INR k * (2 * PI * INR (a - b) / INR n)))) = C0)
      by (intros a b Hab; apply roots_of_unity_sum; lia).
    assert (Hconj :
      forall a b, (b < a < n)%nat ->
        Csum n (fun k =>
          Cexp (mkC 0 (- (INR k * (2 * PI * INR (a - b) / INR n))))) = C0).
    { intros a b Hab.
      rewrite (Csum_ext _ _
                 (fun k => Cconj (Cexp (mkC 0
                    (INR k * (2 * PI * INR (a - b) / INR n))))))
        by (intros; symmetry; apply Cexp_phase_conj).
      rewrite <- Csum_conj, Hcase by exact Hab. apply Cconj_0. }
    destruct (Nat.lt_ge_cases m j) as [Hlt|Hge].
    + destruct Hs as [-> | ->].
      * rewrite <- (Hcase j m) by lia. apply Csum_ext; intros k _.
        f_equal. f_equal. rewrite minus_INR by lia. field. exact Hn.
      * rewrite <- (Hconj j m) by lia. apply Csum_ext; intros k _.
        f_equal. f_equal. rewrite minus_INR by lia. field. exact Hn.
    + destruct Hs as [-> | ->].
      * rewrite <- (Hconj m j) by lia. apply Csum_ext; intros k _.
        f_equal. f_equal. rewrite minus_INR by lia. field. exact Hn.
      * rewrite <- (Hcase m j) by lia. apply Csum_ext; intros k _.
        f_equal. f_equal. rewrite minus_INR by lia. field. exact Hn.
Qed.

(** ** Inversion of the discrete Fourier transform *)

Lemma Csum_map_linear (h : C -> C) l (e : nat -> C) n :
  h C0 = C0 -> (forall a b, h (a + b)%C = (h a + h b)%C) ->
  (forall a b, h (a * b)%C = (h a * b)%C) ->
  (n <= length l)%nat ->
  Csum n (fun m => nth m (map h l) C0 * e m)%C
  = h (Csum n (fun m => nth m l C0 * e m)%C).
Proof.
  intros H0 Hadd Hmul. induction n as [|n IH]; intros Hn; cbn [Csum].
  - symmetry; exact H0.
  - rewrite Hadd, Hmul, <- IH by lia.
    rewrite (nth_map_lt h l n C0 C0) by lia. reflexivity.
Qed.

Lemma dft_entry_linear (h : C -> C) sgn l k :
  h C0 = C0 -> (forall a b, h (a + b)%C = (h a + h b)%C) ->
  (forall a b, h (a * b)%C = (h a * b)%C) ->
  dft_entry sgn (map h l) k = h (dft_entry sgn l k).
Proof.
  intros H0 Hadd Hmul. unfold dft_entry. rewrite length_map.
  apply Csum_map_linear; auto.
Qed.

Lemma dft_entry_Cdivr sgn l r k :
  dft_entry sgn (map (fun z => Cdivr z r) l) k = Cdivr (dft_entry sgn l k) r.
Proof.
  apply (dft_entry_linear (fun z => Cdivr z r)).
  - apply Cdivr_0.
  - intros; apply C_eq; simpl; unfold Rdiv; ring.
  - intros; apply C_eq; simpl; unfold Rdiv; ring.
Qed.

Lemma dft_entry_Cmulr sgn l r k :
  dft_entry sgn (map (fun z => Cmulr z r) l) k = Cmulr (dft_entry sgn l k) r.
Proof.
  apply (dft_entry_linear (fun z => Cmulr z r)).
  - apply Cmulr_0.
  - intros; apply C_eq; simpl; ring.
  - intros; apply C_eq; simpl; ring.
Qed.

Lemma dft_dft sgn x j :
  sgn = 1 \/ sgn = -1 -> (j < length x)%nat ->
  dft_entry sgn (map (dft_entry (- sgn) x) (seq 0 (length x))) j
  = Rscal (INR (length x)) (nth j x C0).
Proof.
  intros Hs Hj. unfold dft_entry at 1. rewrite length_map, length_seq.
  set (n := length x) in *.
  assert (Hn : INR n <> 0) by (apply not_0_INR; lia).
  rewrite (Csum_ext _ _
    (fun k => Csum n (fun m =>
       nth m x C0
       * Cexp (mkC 0 (sgn * (2 * PI * INR k * (INR j - INR m) / INR n))))%C)).
  - rewrite Csum_exchange.
    rewrite (Csum_ext _ _
      (fun m => if (j =? m)%nat then Rscal (INR n) (nth m x C0) else C0)).
    + apply (Csum_delta n j (fun m => Rscal (INR n) (nth m x C0))). exact Hj.
    + intros m Hm. rewrite Csum_mul_l.
      rewrite (phase_orthogonal sgn n j m Hs Hj Hm).
      destruct (j =? m)%nat; [apply C_eq; simpl; ring | apply Cmul_0_r].
  - intros k Hk.
    rewrite (nth_map_seq (dft_entry (- sgn) x)) by exact Hk.
    unfold dft_entry. fold n. rewrite <- Csum_mul_r.
    apply Csum_ext; intros m Hm.
    rewrite <- Cmul_assoc, <- Cexp_phase_add. f_equal. f_equal. f_equal.
    field. exact Hn.
Qed.

Lemma Rscal_Cdivr_cancel r z : r <> 0 -> Cdivr (Rscal r z) r = z.
Proof. intros Hr. apply C_eq; simpl; field; exact Hr. Qed.

(** [np.fft.ifft] inverts [np.fft.fft] and conversely. *)
Lemma ifft_fft x : x <> [] -> bind (fft x) ifft = Ok x.
Proof.
  intros Hx. rewrite fft_ok by exact Hx. cbn [bind].
  assert (Hl : (0 < length x)%nat) by (destruct x; [congruence | simpl; lia]).
  rewrite ifft_ok
    by (intro H; apply (f_equal (@length C)) in H;
        rewrite length_map, length_seq in H; simpl in H; lia).
  f_equal. rewrite length_map, length_seq.
  apply nth_ext with (d := C0) (d' := C0).
  - rewrite length_map, length_seq. reflexivity.
  - intros j Hj. rewrite length_map, length_seq in Hj.
    rewrite (nth_map_seq
               (fun m => Cdivr (dft_entry 1
                  (map (dft_entry (-1) x) (seq 0 (length x))) m)
                  (INR (length x)))) by exact Hj.
    replace (-1) with (- (1)) by ring.
    rewrite dft_dft by (auto; lia).
    apply Rscal_Cdivr_cancel. apply not_0_INR. lia.
Qed.

Lemma fft_ifft y : y <> [] -> bind (ifft y) fft = Ok y.
Proof.
  intros Hy. rewrite ifft_ok by exact Hy. cbn [bind].
  assert (Hl : (0 < length y)%nat) by (destruct y; [congruence | simpl; lia]).
  rewrite fft_ok
    by (intro H; apply (f_equal (@length C)) in H;
        rewrite length_map, length_seq in H; simpl in H; lia).
  f_equal. rewrite length_map, length_seq.
  apply nth_ext with (d := C0) (d' := C0).
  - rewrite length_map, length_seq. reflexivity.
  - intros j Hj. rewrite length_map, length_seq in Hj.
    rewrite (nth_map_seq _ C0 (length y) j) by exact Hj.
    rewrite <- (map_map (dft_entry 1 y) (fun z => Cdivr z (INR (length y)))).
    rewrite dft_entry_Cdivr.
    replace 1 with (- (-1)) at 1 by ring.
    rewrite dft_dft by (auto; lia).
    apply Rscal_Cdivr_cancel. apply not_0_INR. lia.
Qed.

(** ** Energy and Parseval's identity *)

Lemma Cabs_sqr z : Cabs z ^ 2 = Re z * Re z + Im z * Im z.
Proof.
  unfold Cabs. simpl. rewrite Rmult_1_r. apply sqrt_sqrt. nra.
Qed.

Lemma Cmul_conj z : (z * Cconj z)%C = RtoC (Cabs z ^ 2).
Proof. rewrite Cabs_sqr. apply C_eq; simpl; ring. Qed.

Lemma Csum_shift n g : Csum (S n) g = (g 0%nat + Csum n (fun k => g (S k)))%C.
Proof.
  induction n as [|n IH]; [cbn [Csum]; ring|].
  change (Csum (S (S n)) g) with (Csum (S n) g + g (S n))%C.
  rewrite IH. cbn [Csum]. ring.
Qed.

Lemma energy_Csum v :
  RtoC (energy v)
  = Csum (length v) (fun k => nth k v C0 * Cconj (nth k v C0))%C.
Proof.
  induction v as [|z v IH]; [reflexivity|].
  cbn [length energy fold_right]. rewrite Csum_shift. cbn [nth].
  fold (energy v). rewrite <- IH, Cmul_conj. apply C_eq; simpl; ring.
Qed.

Lemma energy_nonneg v : 0 <= energy v.
Proof.
  induction v as [|z v IH]; [simpl; lra|].
  cbn [energy fold_right]. fold (energy v). rewrite Cabs_sqr. nra.
Qed.

Lemma RtoC_inj a b : RtoC a = RtoC b -> a = b.
Proof. intros H. apply (f_equal Re) in H. exact H. Qed.

Lemma length_dft sgn x : length (dft sgn x) = length x.
Proof. unfold dft. rewrite length_map, length_seq. reflexivity. Qed.

Lemma nth_dft sgn x k :
  (k < length x)%nat -> nth k (dft sgn x) C0 = dft_entry sgn x k.
Proof. intros H. unfold dft. apply (nth_map_seq (dft_entry sgn x)). exact H. Qed.

Lemma dft_entry_conj sgn x k :
  Cconj (dft_entry sgn x k)
  = Csum (length x)
      (fun m => Cconj (nth m x C0)
                * Cexp (mkC 0 (- sgn * (2 * PI * INR m * INR k
                                        / INR (length x)))))%C.
Proof.
  unfold dft_entry. rewrite Csum_conj. apply Csum_ext; intros m _.
  rewrite Cconj_mul, Cexp_phase_conj. f_equal. f_equal. f_equal. ring.
Qed.

Lemma Csum_Rscal n r g :
  Csum n (fun m => Rscal r (g m)) = Rscal r (Csum n g).
Proof.
  induction n as [|n IH]; cbn [Csum]; [apply C_eq; simpl; ring|].
  rewrite IH. apply C_eq; simpl; ring.
Qed.

(** Parseval: the transform multiplies the energy by the length. *)
Lemma energy_dft sgn x :
  sgn = 1 \/ sgn = -1 ->
  energy (dft sgn x) = INR (length x) * energy x.
Proof.
  intros Hs. apply RtoC_inj. rewrite energy_Csum, length_dft.
  set (n := length x).
  rewrite (Csum_ext _ _
    (fun k => Csum n (fun m =>
       Cconj (nth m x C0)
       * (nth k (dft sgn x) C0
          * Cexp (mkC 0 (- sgn * (2 * PI * INR k * INR m / INR n)))))%C)).
  - rewrite Csum_exchange.
    rewrite (Csum_ext _ _
      (fun m => Rscal (INR n) (nth m x C0 * Cconj (nth m x C0)))%C).
    + rewrite Csum_Rscal. unfold n. rewrite <- energy_Csum.
      apply C_eq; simpl; ring.
    + intros m Hm. rewrite Csum_mul_l.
      assert (E : Csum n (fun k =>
                    nth k (dft sgn x) C0
                    * Cexp (mkC 0 (- sgn * (2 * PI * INR k * INR m / INR n))))%C
                  = dft_entry (- sgn) (dft sgn x) m).
      { unfold dft_entry. rewrite length_dft. reflexivity. }
      rewrite E. unfold dft.
      replace sgn with (- - sgn) at 2 by ring.
      rewrite dft_dft by first [exact Hm | destruct Hs; [right | left]; lra].
      fold n. apply C_eq; simpl; ring.
  - intros k Hk. rewrite nth_dft by exact Hk.
    rewrite dft_entry_conj. fold n. rewrite <- Csum_mul_l.
    apply Csum_ext; intros m _.
    replace (2 * PI * INR m * INR k / INR n)
      with (2 * PI * INR k * INR m / INR n) by (unfold Rdiv; ring).
    ring.
Qed.

(** ** The split-step operators *)

Lemma length_tabulate n f : length (tabulate n f) = n.
Proof. unfold tabulate. rewrite length_map, length_seq. reflexivity. Qed.

Lemma nth_tabulate n f k : (k < n)%nat -> nth k (tabulate n f) C0 = f k.
Proof. intros H. apply (nth_map_seq f). exact H. Qed.

Lemma tabulate_ext n f g :
  (forall k, (k < n)%nat -> f k = g k) -> tabulate n f = tabulate n g.
Proof.
  intros H. apply map_ext_in. intros k Hk. apply in_seq in Hk. apply H. lia.
Qed.

Lemma tabulate_nth v : v = tabulate (length v) (fun k => nth k v C0).
Proof.
  apply nth_ext with (d := C0) (d' := C0).
  - rewrite length_tabulate. reflexivity.
  - intros k Hk. rewrite nth_tabulate by exact Hk. reflexivity.
Qed.

Lemma map_tabulate (h : C -> C) n f :
  map h (tabulate n f) = tabulate n (fun k => h (f k)).
Proof. unfold tabulate. apply map_map. Qed.

Lemma tabulate_nonempty n f : (0 < n)%nat -> tabulate n f <> [].
Proof.
  intros Hn H. apply (f_equal (@length C)) in H.
  rewrite length_tabulate in H. simpl in H. lia.
Qed.

Lemma nonempty_length {T : Type} (l : list T) : l <> [] -> (0 < length l)%nat.
Proof. destruct l; [congruence | simpl; lia]. Qed.

Lemma dft_entry_tabulate sgn n f k :
  dft_entry sgn (tabulate n f) k
  = Csum n (fun m => f m * Cexp (mkC 0 (sgn * (2 * PI * INR m * INR k
                                               / INR n))))%C.
Proof.
  unfold dft_entry. rewrite length_tabulate. apply Csum_ext; intros m Hm.
  rewrite nth_tabulate by exact Hm. reflexivity.
Qed.

Lemma vmul_ok a b :
  length a = length b ->
  vmul a b
  = Ok (tabulate (length b) (fun k => nth k a C0 * nth k b C0)%C).
Proof.
  intros H. unfold vmul. rewrite bzip_same, zipM_pure by exact H. f_equal.
  apply nth_ext with (d := C0) (d' := C0).
  - rewrite length_map2, length_tabulate by exact H. exact H.
  - intros k Hk. rewrite length_map2 in Hk by exact H.
    rewrite (nth_map2 Cmul a b k C0 C0) by assumption.
    rewrite nth_tabulate by lia. reflexivity.
Qed.

(** [opD] entry by entry. *)
Lemma opD_ok u TD G kk dt :
  u <> [] -> length kk = length u ->
  kerrlib.opD u TD G kk dt
  = Ok (tabulate (length u)
          (fun j =>
             Cmulr (Cdivr
                      (dft_entry 1
                         (tabulate (length u)
                            (fun k => dispersion_phase TD dt (nth k kk 0)
                                      * dft_entry (-1) u k)%C) j)
                      (INR (length u)))
                   (damping G dt))).
Proof.
  intros Hu Hk. pose proof (nonempty_length u Hu) as Hn.
  unfold kerrlib.opD. rewrite fft_ok by exact Hu. cbn [bind].
  rewrite vmul_ok by (rewrite !length_map, length_seq; exact Hk).
  cbn [bind]. rewrite length_map, length_seq.
  rewrite (tabulate_ext _ _
             (fun k => dispersion_phase TD dt (nth k kk 0)
                       * dft_entry (-1) u k)%C).
  - rewrite ifft_ok by (apply tabulate_nonempty; exact Hn).
    cbn [bind]. rewrite length_tabulate. rewrite map_map. reflexivity.
  - intros k Hk'.
    rewrite (nth_map_lt _ kk k C0 0) by lia.
    rewrite (nth_map_seq (dft_entry (-1) u)) by exact Hk'. reflexivity.
Qed.

Lemma length_opD u TD G kk dt v :
  u <> [] -> length kk = length u ->
  kerrlib.opD u TD G kk dt = Ok v -> length v = length u.
Proof.
  intros Hu Hk H. rewrite opD_ok in H by assumption. injection H as <-.
  apply length_tabulate.
Qed.

(** In reciprocal space [opD] multiplies each Fourier component by its
    phase and by the damping. *)
Lemma opD_spectrum u TD G kk dt v k :
  u <> [] -> length kk = length u -> (k < length u)%nat ->
  kerrlib.opD u TD G kk dt = Ok v ->
  dft_entry (-1) v k
  = Cmulr (dispersion_phase TD dt (nth k kk 0) * dft_entry (-1) u k)%C
          (damping G dt).
Proof.
  intros Hu Hk Hlt H. rewrite opD_ok in H by assumption. injection H as <-.
  pose proof (nonempty_length u Hu) as Hn.
  rewrite <- (map_tabulate (fun z => Cmulr z (damping G dt))).
  rewrite dft_entry_Cmulr. f_equal.
  rewrite <- (map_tabulate (fun z => Cdivr z (INR (length u)))).
  rewrite dft_entry_Cdivr.
  set (Y := tabulate (length u)
              (fun k => dispersion_phase TD dt (nth k kk 0)
                        * dft_entry (-1) u k)%C).
  assert (HY : length Y = length u) by apply length_tabulate.
  assert (E : tabulate (length u) (dft_entry 1 Y)
              = map (dft_entry (- (-1)) Y) (seq 0 (length Y))).
  { rewrite HY. unfold tabulate. apply map_ext; intros j.
    replace (- (-1)) with 1 by ring. reflexivity. }
  rewrite E, dft_dft by (auto; lia).
  rewrite HY, Rscal_Cdivr_cancel by (apply not_0_INR; lia).
  unfold Y. apply nth_tabulate. exact Hlt.
Qed.

Lemma dft_injective a b :
  length a = length b ->
  (forall k, (k < length a)%nat -> dft_entry (-1) a k = dft_entry (-1) b k) ->
  a = b.
Proof.
  intros Hl H. destruct a as [|x a].
  - destruct b; [reflexivity | discriminate].
  - assert (Ha : x :: a <> []) by discriminate.
    assert (Hb : b <> []) by (destruct b; [discriminate | discriminate]).
    pose proof (ifft_fft (x :: a) Ha) as Ea.
    pose proof (ifft_fft b Hb) as Eb.
    rewrite fft_ok in Ea, Eb by assumption. cbn [bind] in Ea, Eb.
    assert (E : map (dft_entry (-1) (x :: a)) (seq 0 (length (x :: a)))
                = map (dft_entry (-1) b) (seq 0 (length b))).
    { rewrite <- Hl. apply map_ext_in; intros k Hk. apply in_seq in Hk.
      apply H. lia. }
    rewrite E in Ea. congruence.
Qed.

Lemma Cexp_unit z : Re z = 0 -> (Cexp z * Cconj (Cexp z))%C = C1.
Proof.
  intros H. replace z with (mkC 0 (Im z)) by (apply C_eq; simpl; auto).
  apply Cexp_phase_norm.
Qed.

Lemma dispersion_phase_unit TD dt kv :
  (dispersion_phase TD dt kv * Cconj (dispersion_phase TD dt kv))%C = C1.
Proof. apply Cexp_unit. simpl. unfold Rdiv. ring. Qed.

Lemma kerr_phase_unit TN dt z :
  (kerr_phase TN dt z * Cconj (kerr_phase TN dt z))%C = C1.
Proof. apply Cexp_unit. simpl. unfold Rdiv. ring. Qed.

Lemma dispersion_phase_add TD dt1 dt2 kv :
  dispersion_phase TD (dt1 + dt2) kv
  = (dispersion_phase TD dt1 kv * dispersion_phase TD dt2 kv)%C.
Proof.
  unfold dispersion_phase. rewrite <- Cexp_add. f_equal.
  apply C_eq; simpl; unfold Rdiv; ring.
Qed.

Lemma kerr_phase_add TN dt1 dt2 z :
  kerr_phase TN (dt1 + dt2) z = (kerr_phase TN dt1 z * kerr_phase TN dt2 z)%C.
Proof.
  unfold kerr_phase. rewrite <- Cexp_add. f_equal.
  apply C_eq; simpl; unfold Rdiv; ring.
Qed.

Lemma dispersion_phase_0 TD kv : dispersion_phase TD 0 kv = C1.
Proof.
  unfold dispersion_phase. rewrite <- Cexp_0. f_equal.
  apply C_eq; simpl; unfold Rdiv; ring.
Qed.

Lemma kerr_phase_0 TN z : kerr_phase TN 0 z = C1.
Proof.
  unfold kerr_phase. rewrite <- Cexp_0. f_equal.
  apply C_eq; simpl; unfold Rdiv; ring.
Qed.

Lemma damping_add G dt1 dt2 :
  damping G (dt1 + dt2) = damping G dt1 * damping G dt2.
Proof.
  unfold damping. rewrite <- exp_plus. f_equal. field.
Qed.

Lemma damping_0 G : damping G 0 = 1.
Proof. unfold damping. rewrite <- exp_0. f_equal. field. Qed.

Lemma damping_sqr G dt : damping G dt * damping G dt = exp (- G * dt / 2).
Proof. unfold damping. rewrite <- exp_plus. f_equal. field. Qed.

Lemma opD_zero_step u TD G kk :
  u <> [] -> length kk = length u -> kerrlib.opD u TD G kk 0 = Ok u.
Proof.
  intros Hu Hk.
  destruct (kerrlib.opD u TD G kk 0) as [v|e] eqn:E;
    [|rewrite opD_ok in E by assumption; discriminate].
  f_equal. apply dft_injective.
  - apply (length_opD u TD G kk 0); assumption.
  - intros k Hlt.
    rewrite (length_opD u TD G kk 0 v Hu Hk E) in Hlt.
    rewrite (opD_spectrum u TD G kk 0 v k) by assumption.
    rewrite dispersion_phase_0, damping_0. apply C_eq; simpl; ring.
Qed.

(** X1.  [opD] is a semigroup in its step: a step of size zero returns the
    field, and two steps in a row, with the same dispersion time, loss rate
    and frequency grid, are the single step of the summed size.  In
    particular the two half steps of the split-step loop make one full
    dispersion/loss step when no nonlinear step lies between them. *)
Theorem opD_semigroup (u : vec) (TD G : R) (kk : list R) (dt1 dt2 : R) :
  u <> [] -> length kk = length u -> TD <> 0 ->
  kerrlib.opD u TD G kk 0 = Ok u
  /\ (v <- kerrlib.opD u TD G kk dt1 ;; kerrlib.opD v TD G kk dt2)
     = kerrlib.opD u TD G kk (dt1 + dt2).
Proof.
  intros Hu Hk _. pose proof (nonempty_length u Hu) as Hn. split.
  - apply opD_zero_step; assumption.
  - destruct (kerrlib.opD u TD G kk dt1) as [v1|e] eqn:E1;
      [|rewrite opD_ok in E1 by assumption; discriminate].
    cbn [bind].
    pose proof (length_opD u TD G kk dt1 v1 Hu Hk E1) as L1.
    assert (Hv1 : v1 <> [])
      by (intro H0; rewrite H0 in L1; simpl in L1; lia).
    assert (Hk1 : length kk = length v1) by congruence.
    destruct (kerrlib.opD v1 TD G kk dt2) as [v2|e] eqn:E2;
      [|rewrite opD_ok in E2 by assumption; discriminate].
    destruct (kerrlib.opD u TD G kk (dt1 + dt2)) as [w|e] eqn:E3;
      [|rewrite opD_ok in E3 by assumption; discriminate].
    pose proof (length_opD v1 TD G kk dt2 v2 Hv1 Hk1 E2) as L2.
    pose proof (length_opD u TD G kk _ w Hu Hk E3) as L3.
    f_equal. apply dft_injective; [congruence|].
    intros k Hlt.
    rewrite (opD_spectrum v1 TD G kk dt2 v2 k) by (assumption || lia).
    rewrite (opD_spectrum u TD G kk dt1 v1 k) by (assumption || lia).
    rewrite (opD_spectrum u TD G kk (dt1 + dt2) w k) by (assumption || lia).
    rewrite dispersion_phase_add, damping_add.
    apply C_eq; simpl; ring.
Qed.

Lemma opD_semigroup_witness :
  [C1; Ci] <> [] /\ length [0; 1] = length [C1; Ci] /\ 1 <> 0 /\
  kerrlib.opD [C1; Ci] 1 1 [0; 1] 0 = Ok [C1; Ci].
Proof.
  split; [discriminate|]. split; [reflexivity|]. split; [lra|].
  apply (opD_semigroup [C1; Ci] 1 1 [0; 1] 0 0);
    [discriminate | reflexivity | lra].
Defined.

Lemma energy_phase_scaled a b (p : nat -> C) d :
  length a = length b ->
  (forall k, (k < length b)%nat ->
     nth k a C0 = Cmulr (p k * nth k b C0)%C d) ->
  (forall k, (p k * Cconj (p k))%C = C1) ->
  energy a = d * d * energy b.
Proof.
  intros Hl Ha Hp. apply RtoC_inj. rewrite energy_Csum, Hl.
  rewrite (Csum_ext _ _
             (fun k => Rscal (d * d) (nth k b C0 * Cconj (nth k b C0)))%C).
  - rewrite Csum_Rscal, <- energy_Csum. apply C_eq; simpl; ring.
  - intros k Hk. rewrite Ha by exact Hk.
    transitivity (Rscal (d * d)
                    ((p k * Cconj (p k)) * (nth k b C0 * Cconj (nth k b C0))))%C.
    + apply C_eq; simpl; ring.
    + rewrite Hp. f_equal. ring.
Qed.

Lemma energy_parseval v :
  v <> [] -> energy (dft (-1) v) = INR (length v) * energy v.
Proof. intros _. apply energy_dft. right; reflexivity. Qed.

Lemma opD_energy_lemma u v TD G kk dt :
  u <> [] -> length kk = length u ->
  kerrlib.opD u TD G kk dt = Ok v ->
  energy v = exp (- G * dt / 2) * energy u.
Proof.
  intros Hu Hk H. pose proof (nonempty_length u Hu) as Hn.
  pose proof (length_opD u TD G kk dt v Hu Hk H) as Hl.
  assert (HnR : INR (length u) <> 0) by (apply not_0_INR; lia).
  assert (Hv : v <> []) by (intro H0; rewrite H0 in Hl; simpl in Hl; lia).
  assert (E : energy (dft (-1) v)
              = damping G dt * damping G dt * energy (dft (-1) u)).
  { apply (energy_phase_scaled _ _
             (fun k => dispersion_phase TD dt (nth k kk 0))).
    - rewrite !length_dft. exact Hl.
    - intros k Hlt. rewrite length_dft in Hlt.
      rewrite !nth_dft by lia.
      apply (opD_spectrum u TD G kk dt v k); assumption.
    - intros k. apply dispersion_phase_unit. }
  rewrite !energy_parseval, damping_sqr, Hl in E by assumption.
  apply (Rmult_eq_reg_l (INR (length u))); [|exact HnR]. rewrite E. ring.
Qed.

(** X2.  [opD] scales the energy [sum |u_j|^2] of the field by exactly
    [exp(-G dt / 2)]: the dispersion phase leaves it unchanged and only the
    loss factor acts; with [G = 0] the half step conserves the energy. *)
Theorem opD_energy (u v : vec) (TD G : R) (kk : list R) (dt : R) :
  u <> [] -> length kk = length u -> TD <> 0 ->
  kerrlib.opD u TD G kk dt = Ok v ->
  energy v = exp (- G * dt / 2) * energy u.
Proof.
  intros Hu Hk _ H. apply (opD_energy_lemma u v TD G kk dt); assumption.
Qed.

Lemma opD_energy_witness :
  [C1; Ci] <> [] /\ length [0; 1] = length [C1; Ci] /\ 1 <> 0 /\
  exists v, kerrlib.opD [C1; Ci] 1 2 [0; 1] 0 = Ok v
            /\ energy v = exp (- 2 * 0 / 2) * energy [C1; Ci].
Proof.
  split; [discriminate|]. split; [reflexivity|]. split; [lra|].
  exists [C1; Ci].
  assert (H : kerrlib.opD [C1; Ci] 1 2 [0; 1] 0 = Ok [C1; Ci])
    by (apply (opD_zero_step [C1; Ci] 1 2 [0; 1]);
        [discriminate | reflexivity]).
  split; [exact H|].
  apply (opD_energy [C1; Ci] [C1; Ci] 1 2 [0; 1] 0);
    [discriminate | reflexivity | lra | exact H].
Defined.

Lemma opN_ok u TN ui dt :
  length ui = length u ->
  kerrlib.opN u TN ui dt
  = Ok (tabulate (length u)
          (fun k => kerr_phase TN dt (nth k ui C0) * nth k u C0)%C).
Proof.
  intros H. unfold kerrlib.opN.
  rewrite vmul_ok by (rewrite length_map; exact H). f_equal.
  apply tabulate_ext. intros k Hk.
  rewrite (nth_map_lt _ ui k C0 C0) by lia. reflexivity.
Qed.

Lemma Cabs_unit_mul p z : (p * Cconj p)%C = C1 -> Cabs (p * z) = Cabs z.
Proof.
  intros H. pose proof (f_equal Re H) as Hr. simpl in Hr.
  unfold Cabs. f_equal. simpl. nra.
Qed.

(** X3.  [opN] is a pointwise phase rotation: the result has the length of
    the field and at every point the modulus of the field, whatever the
    reference field [ui] of that length; hence it conserves the energy. *)
Theorem opN_pure_phase (u ui : vec) (TN dt : R) :
  length ui = length u -> TN <> 0 ->
  exists v, kerrlib.opN u TN ui dt = Ok v
            /\ length v = length u
            /\ (forall k, Cabs (nth k v C0) = Cabs (nth k u C0))
            /\ energy v = energy u.
Proof.
  intros Hl _. rewrite opN_ok by exact Hl. eexists; split; [reflexivity|].
  split; [apply length_tabulate|]. split.
  - intros k. destruct (Nat.lt_ge_cases k (length u)) as [Hk|Hk].
    + rewrite nth_tabulate by exact Hk. apply Cabs_unit_mul.
      apply kerr_phase_unit.
    + rewrite !nth_overflow by (rewrite ?length_tabulate; lia). reflexivity.
  - replace (energy u) with (1 * 1 * energy u) by ring.
    apply (energy_phase_scaled _ _ (fun k => kerr_phase TN dt (nth k ui C0))).
    + apply length_tabulate.
    + intros k Hk. rewrite nth_tabulate by exact Hk.
      apply C_eq; simpl; ring.
    + intros k. apply kerr_phase_unit.
Qed.

Lemma opN_pure_phase_witness :
  length [Ci; C1] = length [C1; Ci] /\ 1 <> 0 /\
  exists v, kerrlib.opN [C1; Ci] 1 [Ci; C1] 1 = Ok v
            /\ length v = length [C1; Ci]
            /\ (forall k, Cabs (nth k v C0) = Cabs (nth k [C1; Ci] C0))
            /\ energy v = energy [C1; Ci].
Proof.
  split; [reflexivity|]. split; [lra|].
  apply (opN_pure_phase [C1; Ci] [Ci; C1] 1 1); [reflexivity | lra].
Defined.

(** X4.  With one reference field, nonlinear steps add up: [opN] with step
    zero returns the field, and a step [dt1] followed by a step [dt2] is the
    step [dt1 + dt2]. *)
Theorem opN_steps_add (u ui : vec) (TN dt1 dt2 : R) :
  length ui = length u -> TN <> 0 ->
  kerrlib.opN u TN ui 0 = Ok u
  /\ (v <- kerrlib.opN u TN ui dt1 ;; kerrlib.opN v TN ui dt2)
     = kerrlib.opN u TN ui (dt1 + dt2).
Proof.
  intros Hl _. split.
  - rewrite opN_ok by exact Hl. f_equal.
    transitivity (tabulate (length u) (fun k => nth k u C0));
      [|symmetry; apply tabulate_nth].
    apply tabulate_ext. intros k _. rewrite kerr_phase_0. ring.
  - rewrite (opN_ok u TN ui dt1) by exact Hl. cbn [bind].
    rewrite opN_ok by (rewrite length_tabulate; exact Hl).
    rewrite (opN_ok u TN ui (dt1 + dt2)) by exact Hl.
    rewrite length_tabulate. f_equal. apply tabulate_ext. intros k Hk.
    rewrite nth_tabulate by exact Hk. rewrite kerr_phase_add. ring.
Qed.

Lemma opN_steps_add_witness :
  length [Ci; C1] = length [C1; Ci] /\ 1 <> 0 /\
  kerrlib.opN [C1; Ci] 1 [Ci; C1] 0 = Ok [C1; Ci].
Proof.
  split; [reflexivity|]. split; [lra|].
  apply (opN_steps_add [C1; Ci] [Ci; C1] 1 0 0); [reflexivity | lra].
Defined.

(** ** The mean field of the propagators *)

Section FieldOfRun.

Variables (TD TN dz : R) (kk ks : list R) (dk : R) (im ip : list (list Z)).
Variables (dt : R) (n : Z).

Lemma engine_run_field {F : Type} G (advance : mat -> F -> result F) k
  (u u' : vec) (s s' : F) :
  engine_run TD TN dz kk ks dk im ip dt n G advance k (u, s) = Ok (u', s') ->
  iterM k (field_step TD TN kk dt G) u = Ok u'.
Proof.
  revert u' s'. induction k as [|k IH]; intros u' s' H.
  - cbn [engine_run] in H. injection H as -> _. reflexivity.
  - rewrite iterM_last. cbn [engine_run] in H.
    destruct (engine_run TD TN dz kk ks dk im ip dt n G advance k (u, s))
      as [[uk sk]|] eqn:E; [|discriminate].
    rewrite (IH uk sk eq_refl). cbn [bind] in *.
    unfold engine_step in H. cbn [fst snd] in H.
    destruct (field_step TD TN kk dt G uk) as [v|]; [|discriminate].
    cbn [bind] in H.
    destruct (kerrlib.Q v TD TN dz ks dk im ip n); [|discriminate].
    cbn [bind] in H. destruct (advance a sk); [|discriminate].
    cbn [bind] in H. injection H as -> _. reflexivity.
Qed.

Lemma P_no_loss_field u tf u' M N :
  kerrlib.P_no_loss u TD TN dz kk ks dk im ip tf dt n = Ok (u', M, N) ->
  iterM (Z.to_nat tf) (field_step TD TN kk dt 0) u = Ok u'.
Proof.
  rewrite P_no_loss_accumulated. unfold accumulated_transfer. intros H.
  destruct (np_zeros n); [|discriminate]. cbn [bind] in H.
  destruct (engine_run _ _ _ _ _ _ _ _ _ _ _ _ _ _) as [[v K]|] eqn:E;
    [|discriminate].
  cbn [bind] in H. destruct (moments_of n K) as [[M' N']|]; [|discriminate].
  injection H as -> _ _. apply (engine_run_field _ _ _ _ _ _ _ E).
Qed.

Lemma P_Nico_field G u tf u' M N :
  kerrlib.P_Nico u TD TN G dz kk ks dk im ip tf dt n = Ok (u', M, N) ->
  iterM (Z.to_nat tf) (field_step TD TN kk dt G) u = Ok u'.
Proof.
  rewrite P_Nico_accumulated. unfold accumulated_transfer. intros H.
  destruct (np_zeros n); [|discriminate]. cbn [bind] in H.
  destruct (engine_run _ _ _ _ _ _ _ _ _ _ _ _ _ _) as [[v K]|] eqn:E;
    [|discriminate].
  cbn [bind] in H. destruct (moments_of n K) as [[M' N']|]; [|discriminate].
  injection H as -> _ _. apply (engine_run_field _ _ _ _ _ _ _ E).
Qed.

Lemma P_loss_field G u tf u' M N :
  kerrlib.P_loss u TD TN G dz kk ks dk im ip tf dt n = Ok (u', M, N) ->
  iterM (Z.to_nat tf) (field_step TD TN kk dt G) u = Ok u'.
Proof.
  rewrite P_loss_sequential. intros H.
  destruct (np_zeros n); [|discriminate]. cbn [bind] in H.
  destruct (engine_run _ _ _ _ _ _ _ _ _ _ _ _ _ _) as [[v MN]|] eqn:E;
    [|discriminate].
  injection H as -> _ _. apply (engine_run_field _ _ _ _ _ _ _ E).
Qed.

End FieldOfRun.

Lemma field_step_energy TD TN kk dt G u v :
  u <> [] -> length kk = length u ->
  field_step TD TN kk dt G u = Ok v ->
  length v = length u /\ energy v = exp (- G * dt) * energy u.
Proof.
  intros Hu Hk H. unfold field_step in H.
  destruct (kerrlib.opD u TD G kk dt) as [u1|] eqn:E1; [|discriminate].
  cbn [bind] in H.
  pose proof (length_opD u TD G kk dt u1 Hu Hk E1) as L1.
  pose proof (nonempty_length u Hu) as Hn.
  rewrite opN_ok in H by congruence. cbn [bind] in H.
  set (u2 := tabulate (length u1)
               (fun k => kerr_phase TN dt (nth k u C0) * nth k u1 C0)%C) in H.
  assert (L2 : length u2 = length u1) by apply length_tabulate.
  assert (H2 : u2 <> []) by (apply tabulate_nonempty; lia).
  assert (E2 : energy u2 = energy u1).
  { replace (energy u1) with (1 * 1 * energy u1) by ring.
    apply (energy_phase_scaled _ _ (fun k => kerr_phase TN dt (nth k u C0))).
    - exact L2.
    - intros k Hlt. unfold u2. rewrite nth_tabulate by exact Hlt.
      apply C_eq; simpl; ring.
    - intros k. apply kerr_phase_unit. }
  assert (Hk2 : length kk = length u2) by congruence.
  split.
  - rewrite (length_opD u2 TD G kk dt v H2 Hk2 H). congruence.
  - assert (Hu1 : u1 <> [])
      by (intro H0; rewrite H0 in L1; simpl in L1; lia).
    assert (Hone : (1 : R) <> 0) by lra.
    rewrite (opD_energy_lemma u2 v TD G kk dt H2 Hk2 H), E2.
    rewrite (opD_energy_lemma u u1 TD G kk dt Hu Hk E1).
    rewrite <- Rmult_assoc, <- exp_plus. f_equal. f_equal. field.
Qed.

Lemma iterM_field_energy TD TN kk dt G k u v :
  u <> [] -> length kk = length u ->
  iterM k (field_step TD TN kk dt G) u = Ok v ->
  length v = length u /\ energy v = exp (- G * dt * INR k) * energy u.
Proof.
  revert v. induction k as [|k IH]; intros v Hu Hk H.
  - cbn [iterM] in H. injection H as <-. split; [reflexivity|].
    simpl INR. rewrite Rmult_0_r, exp_0. ring.
  - rewrite iterM_last in H.
    destruct (iterM k (field_step TD TN kk dt G) u) as [w|] eqn:E;
      [|discriminate].
    cbn [bind] in H. destruct (IH w Hu Hk eq_refl) as [Lw Ew].
    assert (Hw : w <> [])
      by (intro H0; rewrite H0 in Lw; simpl in Lw;
          pose proof (nonempty_length u Hu); lia).
    destruct (field_step_energy TD TN kk dt G w v Hw ltac:(congruence) H)
      as [Lv Ev].
    split; [congruence|]. rewrite Ev, Ew, <- Rmult_assoc, <- exp_plus, S_INR.
    f_equal. f_equal. ring.
Qed.

(** X5.  The energy [sum |u_j|^2] of the mean field decays exactly
    exponentially: whenever a propagator returns, the energy of the field it
    returns is [exp(-G dt k)] times that of the input, [k = max(tf, 0)]
    being the number of steps; [P_no_loss] conserves it. *)
Theorem field_energy_decay
  (TD TN G dz : R) (kk ks : list R) (dk : R) (im ip : list (list Z)) (dt : R)
  (n : Z) (u : vec) (tf : Z) :
  u <> [] -> length kk = length u -> TD <> 0 -> TN <> 0 ->
  (forall u' M N,
      kerrlib.P_no_loss u TD TN dz kk ks dk im ip tf dt n = Ok (u', M, N) ->
      energy u' = energy u)
  /\ (forall u' M N,
        kerrlib.P_loss u TD TN G dz kk ks dk im ip tf dt n = Ok (u', M, N) ->
        energy u' = exp (- G * dt * INR (Z.to_nat tf)) * energy u)
  /\ (forall u' M N,
        kerrlib.P_Nico u TD TN G dz kk ks dk im ip tf dt n = Ok (u', M, N) ->
        energy u' = exp (- G * dt * INR (Z.to_nat tf)) * energy u).
Proof.
  intros Hu Hk _ _. split; [|split]; intros u' M N H.
  - apply P_no_loss_field in H.
    destruct (iterM_field_energy TD TN kk dt 0 _ u u' Hu Hk H) as [_ E].
    rewrite E.
    replace (- 0 * dt * INR (Z.to_nat tf)) with 0 by ring.
    rewrite exp_0. ring.
  - apply P_loss_field in H.
    apply (iterM_field_energy TD TN kk dt G _ u u' Hu Hk H).
  - apply P_Nico_field in H.
    apply (iterM_field_energy TD TN kk dt G _ u u' Hu Hk H).
Qed.

Lemma field_energy_decay_one_point :
  [C1] <> [] /\ length [1] = length [C1] /\ -1 / 2 <> 0 /\ 1 <> 0 /\
  energy [C1] = exp (- 0 * (1 / 2) * INR (Z.to_nat 1)) * energy [C1].
Proof.
  split; [discriminate|]. split; [reflexivity|]. split; [lra|]. split; [lra|].
  destruct (field_energy_decay (-1 / 2) 1 0 (1 / 2) [1] [1] (4 * PI)
              [[0%Z]] [[0%Z]] (1 / 2) 1 [C1] 1)
    as (_ & H & _); [discriminate | reflexivity | lra | lra |].
  apply (H [C1] (Arr2 [[mkC (-1/4) (1/2)]]) (Arr2 [[mkC (5/8) 0]])).
  apply P_loss_ex.
Defined.

(** X6.  The three propagators advance the mean field alike and apart from
    the moments: whenever one of them returns, its field is the one that
    [P_mean_field] returns for the same loss rate and step count in a
    namespace where [Dcheck] is bound to a string other than ["True"]
    ([P_no_loss] with rate [0]).  [P_loss] and [P_Nico] therefore return the
    same field. *)
Theorem propagators_share_mean_field
  (TD TN G dz : R) (zz kk ks : list R) (dk : R) (im ip : list (list Z))
  (dt : R) (n : Z) (u : vec) (tf : Z) :
  let g := ("Dcheck"%string, PyStr "False") :: kerrlib.globals in
  (forall u' M N,
      kerrlib.P_no_loss u TD TN dz kk ks dk im ip tf dt n = Ok (u', M, N) ->
      kerrlib.P_mean_field g u TD TN 0 zz dz kk tf dt = Ok u')
  /\ (forall u' M N,
        kerrlib.P_loss u TD TN G dz kk ks dk im ip tf dt n = Ok (u', M, N) ->
        kerrlib.P_mean_field g u TD TN G zz dz kk tf dt = Ok u')
  /\ (forall u' M N,
        kerrlib.P_Nico u TD TN G dz kk ks dk im ip tf dt n = Ok (u', M, N) ->
        kerrlib.P_mean_field g u TD TN G zz dz kk tf dt = Ok u')
  /\ (forall u1 M1 N1 u2 M2 N2,
        kerrlib.P_loss u TD TN G dz kk ks dk im ip tf dt n = Ok (u1, M1, N1) ->
        kerrlib.P_Nico u TD TN G dz kk ks dk im ip tf dt n = Ok (u2, M2, N2) ->
        u1 = u2).
Proof.
  intros g.
  assert (Hmf : forall G0,
            kerrlib.P_mean_field g u TD TN G0 zz dz kk tf dt
            = iterM (Z.to_nat tf) (field_step TD TN kk dt G0) u)
    by (intros G0; unfold g; rewrite P_mean_field_bound; reflexivity).
  split; [|split; [|split]].
  - intros u' M N H. rewrite Hmf. apply (P_no_loss_field _ _ _ _ _ _ _ _ _ _ _ _ _ _ _ H).
  - intros u' M N H. rewrite Hmf. apply (P_loss_field _ _ _ _ _ _ _ _ _ _ _ _ _ _ _ _ H).
  - intros u' M N H. rewrite Hmf. apply (P_Nico_field _ _ _ _ _ _ _ _ _ _ _ _ _ _ _ _ H).
  - intros u1 M1 N1 u2 M2 N2 H1 H2.
    apply P_loss_field in H1. apply P_Nico_field in H2. congruence.
Qed.

Lemma propagators_share_mean_field_one_point :
  kerrlib.P_mean_field (("Dcheck"%string, PyStr "False") :: kerrlib.globals)
    [C1] (-1 / 2) 1 0 [0] (1 / 2) [1] 1 (1 / 2) = Ok [C1].
Proof.
  destruct (propagators_share_mean_field (-1 / 2) 1 0 (1 / 2) [0] [1] [1]
              (4 * PI) [[0%Z]] [[0%Z]] (1 / 2) 1 [C1] 1) as (_ & H & _).
  apply (H [C1] (Arr2 [[mkC (-1/4) (1/2)]]) (Arr2 [[mkC (5/8) 0]])).
  apply P_loss_ex.
Defined.

(** ** Shape and symmetry of the moments *)

Lemma expm_is_matrix a e :
  expm a = Ok e -> is_matrix (length a) (length a) e.
Proof.
  unfold expm. destruct (is_square a); [|discriminate].
  intros H. injection H as <-. apply is_matrix_mk_mat.
Qed.

Lemma mm_is_matrix a b m :
  mm a b = Ok m -> ncols a = nrows b /\ is_matrix (nrows a) (ncols b) m.
Proof.
  unfold mm. destruct (Nat.eqb_spec (ncols a) (nrows b)); [|discriminate].
  intros H. injection H as <-. split; [assumption | apply is_matrix_mk_mat].
Qed.

Lemma accumulate_is_matrix dt n q K K' :
  (0 < n)%nat -> is_matrix (2 * n) (2 * n) K ->
  accumulate dt q K = Ok K' -> is_matrix (2 * n) (2 * n) K'.
Proof.
  intros Hn HK H. unfold accumulate, step_transfer in H.
  destruct (expm (mscale (Ci * RtoC dt) q)) as [E|] eqn:HE; [|discriminate].
  cbn [bind] in H. apply expm_is_matrix in HE.
  destruct (mm_is_matrix E K K' H) as [Hc Hm].
  rewrite (ncols_is_matrix (2 * n) (2 * n) K) in Hm by (assumption || lia).
  assert (HKl : nrows K = (2 * n)%nat) by (destruct HK; assumption).
  rewrite HKl in Hc.
  set (d := length (mscale (Ci * RtoC dt) q)) in *.
  assert (Hd : d = (2 * n)%nat).
  { destruct (Nat.eq_dec d 0) as [H0|H0].
    - destruct HE as [HEl _]. rewrite H0 in HEl.
      destruct E; [simpl in Hc; lia | discriminate].
    - rewrite (ncols_is_matrix d d E) in Hc by (assumption || lia).
      exact Hc. }
  assert (HEr : nrows E = (2 * n)%nat) by (destruct HE; unfold nrows; lia).
  rewrite HEr in Hm. exact Hm.
Qed.

Lemma accumulated_run_is_matrix TD TN dz kk ks dk im ip dt n G k u u' K :
  (0 < n)%nat ->
  engine_run TD TN dz kk ks dk im ip dt (Z.of_nat n) G (accumulate dt) k
    (u, identity (2 * n)) = Ok (u', K) ->
  is_matrix (2 * n) (2 * n) K.
Proof.
  intros Hn. revert u' K. induction k as [|k IH]; intros u' K H.
  - cbn [engine_run] in H. injection H as _ <-. apply is_matrix_mk_mat.
  - cbn [engine_run] in H.
    destruct (engine_run TD TN dz kk ks dk im ip dt (Z.of_nat n) G
                (accumulate dt) k (u, identity (2 * n)))
      as [[uk Kk]|] eqn:E; [|discriminate].
    cbn [bind] in H. unfold engine_step in H. cbn [fst snd] in H.
    destruct (field_step TD TN kk dt G uk); [|discriminate]. cbn [bind] in H.
    destruct (kerrlib.Q _ _ _ _ _ _ _ _ _); [|discriminate]. cbn [bind] in H.
    destruct (accumulate dt a0 Kk) as [K'|] eqn:EA; [|discriminate].
    cbn [bind] in H. injection H as _ <-.
    apply (accumulate_is_matrix dt n a0 Kk K' Hn (IH uk Kk eq_refl) EA).
Qed.

Lemma Csum_RtoC_nonneg n (g : nat -> R) :
  (forall k, 0 <= g k) -> 0 <= Re (Csum n (fun k => RtoC (g k))).
Proof.
  intros Hg. induction n as [|n IH]; cbn [Csum]; [simpl; lra|].
  cbn [Cadd Re RtoC]. pose proof (Hg n). lra.
Qed.

(** The moments read off a transfer matrix of the right shape: [M] is an
    [n x n] matrix and [N] is Hermitian with a nonnegative diagonal. *)
Lemma moments_of_hermitian n K M N :
  (0 < n)%nat -> is_matrix (2 * n) (2 * n) K ->
  moments_of (Z.of_nat n) K = Ok (M, N) ->
  is_matrix n n M /\ hermitian n N
  /\ forall i, (i < n)%nat -> 0 <= Re (entry N i i).
Proof.
  intros Hn HK H. unfold moments_of in H. rewrite Nat2Z.id in H.
  pose proof (is_matrix_top_left n K HK) as HU.
  pose proof (is_matrix_top_right n K HK) as HW.
  set (W := top_right n K) in *.
  rewrite (mm_ok n n n) in H
    by first [assumption | apply is_matrix_transpose; assumption].
  cbn [bind] in H.
  rewrite (mm_ok n n n) in H
    by first [ assumption | apply is_matrix_mconj; assumption
             | apply is_matrix_transpose; assumption ].
  cbn [bind] in H. injection H as <- <-.
  assert (Ht : forall k j, (k < n)%nat -> (j < n)%nat ->
             entry (transpose W) k j = entry W j k).
  { intros k j Hk Hj. unfold transpose, nrows.
    rewrite (ncols_is_matrix n n W Hn HW). destruct HW as [HWl _].
    rewrite HWl, entry_mk_mat by assumption. reflexivity. }
  assert (Hc : forall i k, (i < n)%nat -> (k < n)%nat ->
             entry (mconj W) i k = Cconj (entry W i k)).
  { intros i k Hi Hk. unfold mconj.
    rewrite (mat_eta n n W HW), map_map_mk_mat, !entry_mk_mat by assumption.
    reflexivity. }
  split; [apply is_matrix_mk_mat|]. split.
  - split; [apply is_matrix_mk_mat|]. intros i j Hi Hj.
    rewrite !entry_mk_mat by assumption. rewrite Csum_conj.
    apply Csum_ext; intros k Hk.
    rewrite !Hc, !Ht by assumption.
    rewrite Cconj_mul, Cconj_involutive. ring.
  - intros i Hi. rewrite entry_mk_mat by assumption.
    rewrite (Csum_ext _ _ (fun k => RtoC (Cabs (entry W i k) ^ 2))).
    + apply Csum_RtoC_nonneg. intros k. apply pow2_ge_0.
    + intros k Hk. rewrite Hc, Ht by assumption.
      rewrite Cmul_comm. apply Cmul_conj.
Qed.

Lemma hermitian_mrscale n r a :
  hermitian n a -> hermitian n (mrscale r a).
Proof.
  intros [Hm H]. unfold mrscale.
  rewrite (mat_eta n n a Hm), map_map_mk_mat.
  split; [apply is_matrix_mk_mat|]. intros i j Hi Hj.
  rewrite !entry_mk_mat by assumption. rewrite (H i j) by assumption.
  apply C_eq; simpl; ring.
Qed.

(** X7.  On a grid of [n >= 1] points, whenever [P_no_loss] or [P_Nico]
    returns, the pair moment [M] is an [n x n] matrix and the particle moment
    [N] is an [n x n] Hermitian matrix whose diagonal, the particle numbers,
    is real and nonnegative. *)
Theorem particle_moment_hermitian
  (TD TN G dz : R) (kk ks : list R) (dk : R) (im ip : list (list Z)) (dt : R)
  (n : nat) (u : vec) (tf : Z) :
  (0 < n)%nat ->
  (forall u' M N,
      kerrlib.P_no_loss u TD TN dz kk ks dk im ip tf dt (Z.of_nat n)
      = Ok (u', M, N) ->
      is_matrix n n M /\ hermitian n N
      /\ forall i, (i < n)%nat -> 0 <= Re (entry N i i))
  /\ (forall u' M N,
        kerrlib.P_Nico u TD TN G dz kk ks dk im ip tf dt (Z.of_nat n)
        = Ok (u', M, N) ->
        is_matrix n n M /\ hermitian n N
        /\ forall i, (i < n)%nat -> 0 <= Re (entry N i i)).
Proof.
  intros Hn. assert (H2 : Z.to_nat (2 * Z.of_nat n) = (2 * n)%nat) by lia.
  split; intros u' M N H.
  - rewrite P_no_loss_accumulated in H. unfold accumulated_transfer in H.
    rewrite np_zeros_nat, H2 in H. cbn [bind] in H.
    destruct (engine_run _ _ _ _ _ _ _ _ _ _ _ _ _ _) as [[v K]|] eqn:E;
      [|discriminate].
    cbn [bind] in H.
    destruct (moments_of (Z.of_nat n) K) as [[M' N']|] eqn:EM; [|discriminate].
    injection H as _ <- <-.
    apply (moments_of_hermitian n K M' N' Hn); [|exact EM].
    apply (accumulated_run_is_matrix _ _ _ _ _ _ _ _ _ _ _ _ _ _ _ Hn E).
  - rewrite P_Nico_accumulated in H. unfold accumulated_transfer in H.
    rewrite np_zeros_nat, H2 in H. cbn [bind] in H.
    destruct (engine_run _ _ _ _ _ _ _ _ _ _ _ _ _ _) as [[v K]|] eqn:E;
      [|discriminate].
    cbn [bind] in H.
    destruct (moments_of (Z.of_nat n) K) as [[M' N']|] eqn:EM; [|discriminate].
    cbn [bind] in H. injection H as _ <- <-.
    destruct (moments_of_hermitian n K M' N' Hn
                (accumulated_run_is_matrix _ _ _ _ _ _ _ _ _ _ _ _ _ _ _ Hn E)
                EM) as (HM & HN & Hd).
    split; [|split].
    + unfold mrscale. rewrite (mat_eta n n M' HM), map_map_mk_mat.
      apply is_matrix_mk_mat.
    + apply hermitian_mrscale. exact HN.
    + intros i Hi. destruct HN as [HNm _]. unfold mrscale.
      rewrite (mat_eta n n N' HNm), map_map_mk_mat, entry_mk_mat by assumption.
      simpl. pose proof (exp_pos (- G * dt * IZR tf)).
      pose proof (Hd i Hi). nra.
Qed.

Lemma particle_moment_hermitian_one_point :
  (0 < 1)%nat /\
  hermitian 1 [[mkC (1 / 4) 0]] /\ 0 <= Re (entry [[mkC (1 / 4) 0]] 0 0).
Proof.
  split; [lia|].
  destruct (particle_moment_hermitian (-1 / 2) 1 0 (1 / 2) [1] [1] (4 * PI)
              [[0%Z]] [[0%Z]] (1 / 2) 1 [C1] 1) as [H _]; [lia|].
  destruct (H [C1] [[mkC (-1/4) (1/2)]] [[mkC (1/4) 0]] P_no_loss_ex)
    as (_ & HN & Hd).
  split; [exact HN | apply Hd; lia].
Defined.

(** ** [norm_check] *)

Lemma energy_app a b : energy (a ++ b) = energy a + energy b.
Proof.
  induction a as [|z a IH].
  - unfold energy at 2. simpl. lra.
  - change (energy ((z :: a) ++ b)) with (Cabs z ^ 2 + energy (a ++ b)).
    change (energy (z :: a)) with (Cabs z ^ 2 + energy a).
    rewrite IH. ring.
Qed.

Lemma energy_fftshift l : energy (fftshift l) = energy l.
Proof.
  unfold fftshift. rewrite energy_app, Rplus_comm, <- energy_app.
  rewrite firstn_skipn. reflexivity.
Qed.

Lemma energy_ifftshift l : energy (ifftshift l) = energy l.
Proof.
  unfold ifftshift. rewrite energy_app, Rplus_comm, <- energy_app.
  rewrite firstn_skipn. reflexivity.
Qed.

Lemma energy_map_scale (h : C -> C) r l :
  (forall z, Cabs (h z) ^ 2 = r * Cabs z ^ 2) ->
  energy (map h l) = r * energy l.
Proof.
  intros H. induction l as [|z l IH].
  - unfold energy. simpl. ring.
  - change (energy (map h (z :: l)))
      with (Cabs (h z) ^ 2 + energy (map h l)).
    change (energy (z :: l)) with (Cabs z ^ 2 + energy l).
    rewrite IH, H. ring.
Qed.

Lemma dot_conj v : dot v (map Cconj v) = Ok (RtoC (energy v)).
Proof.
  unfold dot. rewrite length_map, Nat.eqb_refl. f_equal.
  rewrite energy_Csum. apply Csum_ext; intros k Hk.
  rewrite (nth_map_lt Cconj v k C0 C0) by exact Hk. reflexivity.
Qed.

Lemma energy_myfft u dz a :
  kerrlib.myfft u dz = Ok a ->
  energy a = dz * dz / (2 * PI) * (INR (length u) * energy u).
Proof.
  intros H.
  assert (Hu : u <> []) by (intro H0; subst u; discriminate).
  unfold kerrlib.myfft in H. rewrite fft_ok in H by exact Hu.
  cbn [bind] in H. injection H as <-.
  rewrite energy_fftshift.
  rewrite (energy_map_scale _ (dz * dz / (2 * PI))).
  - fold (dft (-1) u). rewrite energy_parseval by exact Hu.
    reflexivity.
  - intros z. rewrite !Cabs_sqr. simpl.
    pose proof sqrt_2PI_pos as Hs. pose proof sqrt_2PI_sqr as Hq.
    set (r := sqrt (2 * PI)) in *. rewrite <- Hq. field. lra.
Qed.

(** X8.  [norm_check] confirms the normalisation of [myfft]: for a nonempty
    field on a grid of spacing [dz], with the reciprocal spacing
    [dk = 2 pi / (n dz)], the two numbers it prints are equal, both being
    [dz * sum |u_j|^2] (Parseval).  For an empty field it prints [0] and
    then fails in the transform. *)
Theorem norm_check_parseval (u : vec) (dz : R) :
  u <> [] -> dz <> 0 ->
  kerrlib.norm_check u dz (2 * PI / (INR (length u) * dz))
  = ([RtoC (energy u * dz); RtoC (energy u * dz)], Ok tt)
  /\ kerrlib.norm_check [] dz (2 * PI / (INR 0 * dz))
     = ([C0], Err ValueError).
Proof.
  intros Hu Hdz. split.
  - unfold kerrlib.norm_check. rewrite dot_conj.
    destruct (kerrlib.myfft u dz) as [a|e] eqn:E.
    + rewrite dot_conj, (energy_myfft u dz a E). cbn [app].
      assert (Hn : INR (length u) <> 0)
        by (apply not_0_INR; pose proof (nonempty_length u Hu); lia).
      pose proof PI_neq0.
      f_equal. f_equal; [apply C_eq; simpl; ring|].
      f_equal. apply C_eq; simpl; [field; auto | ring].
    + unfold kerrlib.myfft in E. rewrite fft_ok in E by exact Hu.
      discriminate.
  - unfold kerrlib.norm_check. cbn. f_equal. f_equal. apply C_eq; simpl; ring.
Qed.

Lemma norm_check_parseval_witness :
  [C1; Ci] <> [] /\ 1 <> 0 /\
  kerrlib.norm_check [C1; Ci] 1 (2 * PI / (INR (length [C1; Ci]) * 1))
  = ([RtoC (energy [C1; Ci] * 1); RtoC (energy [C1; Ci] * 1)], Ok tt).
Proof.
  split; [discriminate|]. split; [lra|].
  apply (norm_check_parseval [C1; Ci] 1); [discriminate | lra].
Defined.

(** ** The grids of [qss.__init__] *)

(** X9.  [qss.__init__] needs at least two grid points: a negative [n] is
    refused by [np.linspace] with [ValueError], and [n = 0] or [n = 1] fail
    with [IndexError] when the spacing [zz[1] - zz[0]] is read. *)
Theorem init_needs_two_points (zf : R) :
  (forall p : positive, QSS.init zf (Z.neg p) = Err ValueError)
  /\ QSS.init zf 0 = Err IndexError
  /\ QSS.init zf 1 = Err IndexError.
Proof.
  split; [|split]; reflexivity.
Qed.

(** X10.  For an odd number [n = 2c + 1 >= 3] of points and a nonzero
    half-width [zf], [qss.__init__] succeeds and builds grids that are
    centred and reciprocal: [dz = zf / c], [dk = 2 pi / (n dz)], the
    real-space points are [zz[p] = (p - c) dz], the centred frequencies are
    [ks[p] = (p - c) dk], and the frequencies in FFT order are
    [kk[p] = p dk] for [p <= c] and [(p - n) dk] above. *)
Theorem init_builds_centred_grids (c : nat) (zf : R) :
  (1 <= c)%nat -> zf <> 0 ->
  exists self,
    QSS.init zf (Z.of_nat (2 * c + 1)) = Ok self
    /\ QSS.n self = Z.of_nat (2 * c + 1)
    /\ QSS.dz self = zf / INR c
    /\ QSS.dk self = 2 * PI / (INR (2 * c + 1) * QSS.dz self)
    /\ length (QSS.zz self) = (2 * c + 1)%nat
    /\ length (QSS.kk self) = (2 * c + 1)%nat
    /\ length (QSS.ks self) = (2 * c + 1)%nat
    /\ (forall p, (p < 2 * c + 1)%nat ->
          nth p (QSS.zz self) 0 = (INR p - INR c) * QSS.dz self
          /\ nth p (QSS.ks self) 0 = (INR p - INR c) * QSS.dk self
          /\ nth p (QSS.kk self) 0
             = (if (p <? c + 1)%nat then INR p else INR p - INR (2 * c + 1))
               * QSS.dk self).
Proof.
  intros Hc Hzf. unfold QSS.init, linspace.
  destruct (Z.ltb_spec (Z.of_nat (2 * c + 1)) 0); [lia|]. cbn [bind].
  rewrite Nat2Z.id.
  set (g := fun i : nat =>
              INR i * ((zf - - zf) / (IZR (Z.of_nat (2 * c + 1)) - 1)) + - zf).
  rewrite (index1_ok _ 1 0) by (rewrite length_map, length_seq; lia).
  cbn [bind].
  rewrite (index1_ok _ 0 0) by (rewrite length_map, length_seq; lia).
  cbn [bind]. change (Z.to_nat 1) with 1%nat. change (Z.to_nat 0) with 0%nat.
  rewrite !(nth_map_seq g) by lia.
  set (dz := g 1%nat - g 0%nat).
  assert (HN : IZR (Z.of_nat (2 * c + 1)) = 2 * INR c + 1).
  { rewrite <- INR_IZR_INZ, plus_INR, mult_INR. simpl. ring. }
  assert (HN' : INR (2 * c + 1) = 2 * INR c + 1).
  { rewrite plus_INR, mult_INR. simpl. ring. }
  assert (Hcpos : 0 < INR c) by (apply lt_0_INR; lia).
  assert (Edz : dz = zf / INR c).
  { unfold dz, g. rewrite HN. simpl INR. field. lra. }
  assert (Hdz : dz <> 0).
  { rewrite Edz. intro H0. apply Hzf.
    apply (Rmult_eq_compat_r (INR c)) in H0.
    unfold Rdiv in H0.
    rewrite Rmult_assoc, Rinv_l, Rmult_1_r, Rmult_0_l in H0 by lra.
    exact H0. }
  set (kk := map (fun f => f * (2 * PI)) (fftfreq (Z.of_nat (2 * c + 1)) dz)).
  assert (Hlen : length kk = (2 * c + 1)%nat)
    by (unfold kk; rewrite length_map; apply length_fftfreq).
  assert (Hkk : forall q, (q < 2 * c + 1)%nat ->
            nth q kk 0
            = IZR (if (q <? c + 1)%nat then Z.of_nat q
                   else (Z.of_nat q - Z.of_nat (2 * c + 1))%Z)
              * (1 / (IZR (Z.of_nat (2 * c + 1)) * dz)) * (2 * PI)).
  { intros q Hq. unfold kk.
    rewrite (nth_map_lt _ _ q 0 0) by (rewrite length_fftfreq; exact Hq).
    rewrite nth_fftfreq by exact Hq. reflexivity. }
  rewrite (index1_ok kk 1 0) by (rewrite Hlen; lia). cbn [bind].
  rewrite (index1_ok kk 0 0) by (rewrite Hlen; lia). cbn [bind].
  change (Z.to_nat 1) with 1%nat. change (Z.to_nat 0) with 0%nat.
  eexists; split; [reflexivity|].
  cbn [QSS.n QSS.dz QSS.dk QSS.zz QSS.kk QSS.ks].
  pose proof PI_neq0 as Hpi.
  assert (Edk : nth 1 kk 0 - nth 0 kk 0
                = 2 * PI / (INR (2 * c + 1) * dz)).
  { rewrite (Hkk 1%nat), (Hkk 0%nat) by lia.
    destruct (Nat.ltb_spec 1 (c + 1)); [|lia].
    destruct (Nat.ltb_spec 0 (c + 1)); [|lia].
    rewrite HN, HN'. simpl (IZR (Z.of_nat 1)). simpl (IZR (Z.of_nat 0)).
    field. split; lra. }
  split; [reflexivity|]. split; [exact Edz|]. split; [exact Edk|].
  split; [rewrite length_map, length_seq; reflexivity|].
  split; [exact Hlen|]. split; [rewrite length_fftshift; exact Hlen|].
  intros p Hp.
  assert (HpR : forall q : nat, IZR (Z.of_nat q) = INR q)
    by (intros q; symmetry; apply INR_IZR_INZ).
  split; [|split].
  - rewrite (nth_map_seq g) by exact Hp. unfold g. rewrite HN, Edz.
    field. lra.
  - rewrite Edk, nth_fftshift by (rewrite Hlen; exact Hp).
    rewrite Hlen, odd_half.
    destruct (Nat.ltb_spec p c).
    + rewrite Hkk by lia.
      destruct (Nat.ltb_spec (2 * c + 1 - c + p) (c + 1)); [lia|].
      rewrite minus_IZR, !HpR, !HN'.
      replace (INR (2 * c + 1 - c + p)) with (INR c + 1 + INR p)
        by (rewrite plus_INR, minus_INR, HN' by lia; ring).
      field. split; lra.
    + rewrite Hkk by lia.
      destruct (Nat.ltb_spec (p - c) (c + 1)); [|lia].
      rewrite HpR, HN, HN', minus_INR by lia. field. split; lra.
  - rewrite Edk, Hkk by exact Hp.
    destruct (Nat.ltb_spec p (c + 1)).
    + rewrite HpR, HN, HN'. field. split; lra.
    + rewrite minus_IZR, !HpR, !HN'. field. split; lra.
Qed.

Lemma init_builds_centred_grids_three_points :
  (1 <= 1)%nat /\ 1 <> 0 /\
  exists self, QSS.init 1 3 = Ok self /\ QSS.dz self = 1 / INR 1.
Proof.
  split; [lia|]. split; [lra|].
  destruct (init_builds_centred_grids 1 1) as [self (H1 & _ & H2 & _)];
    [lia | lra |].
  exists self. split; assumption.
Defined.

(** ** Structure of the generator *)

(** X11.  On a centred grid of [2c + 1] points with its difference and sum
    tables, [Q] returns a [2n x 2n] matrix [[a, b], [c, d]] whose blocks obey
    [a] Hermitian, [b] symmetric, [c = -conj(b)] and [d = -conj(a)]: the
    lower half of the generator is minus the conjugate of the upper half
    with the two column blocks exchanged. *)
Theorem generator_block_structure
  (c : nat) (u : vec) (TD TN dz : R) (ks : list R) (dk : R)
  (im ip : list (list Z)) :
  length u = (2 * c + 1)%nat -> length ks = (2 * c + 1)%nat ->
  TD <> 0 -> TN <> 0 ->
  difference_table c im -> sum_table c ip ->
  exists q,
    kerrlib.Q u TD TN dz ks dk im ip (Z.of_nat (2 * c + 1)) = Ok q
    /\ is_matrix (2 * (2 * c + 1)) (2 * (2 * c + 1)) q
    /\ forall i j, (i < 2 * c + 1)%nat -> (j < 2 * c + 1)%nat ->
         entry q j i = Cconj (entry q i j)
         /\ entry q i (2 * c + 1 + j) = entry q j (2 * c + 1 + i)
         /\ entry q (2 * c + 1 + i) j
            = (- Cconj (entry q i (2 * c + 1 + j)))%C
         /\ entry q (2 * c + 1 + i) (2 * c + 1 + j)
            = (- Cconj (entry q i j))%C.
Proof.
  intros Hu Hk _ _ Him Hip. set (n := (2 * c + 1)%nat) in *.
  destruct (A_hermitian_on_table c u TD TN dz ks dk im Hu Hk Him)
    as [a [Ha [_ Hherm]]].
  destruct (B_symmetric_on_table c u TN dz dk ip Hu Hip)
    as [b [Hb [_ Hsym]]].
  fold n in Ha, Hherm, Hsym.
  rewrite (A_ok u TD TN dz ks dk im n) in Ha
    by (try assumption; try (destruct Him; assumption); unfold n; lia).
  rewrite (B_ok u TN dz dk ip n) in Hb
    by (try assumption; try (destruct Hip; assumption); unfold n; lia).
  injection Ha as Ea. injection Hb as Eb.
  rewrite (Q_ok u TD TN dz ks dk im ip n)
    by (try assumption; try (destruct Him; assumption);
        try (destruct Hip; assumption); unfold n; lia).
  eexists; split; [reflexivity|]. split; [apply is_matrix_mk_mat|].
  intros i j Hi Hj.
  pose proof (Hherm i j Hi Hj) as Hh. pose proof (Hsym i j Hi Hj) as Hs.
  rewrite <- Ea in Hh. rewrite <- Eb in Hs.
  rewrite !entry_mk_mat in Hh, Hs by assumption.
  rewrite !entry_mk_mat by lia. unfold generator_entry.
  destruct (Nat.ltb_spec i n); [|lia]. destruct (Nat.ltb_spec j n); [|lia].
  destruct (Nat.ltb_spec (n + i) n); [lia|].
  destruct (Nat.ltb_spec (n + j) n); [lia|].
  replace (n + i - n)%nat with i by lia.
  replace (n + j - n)%nat with j by lia.
  split; [exact Hh|]. split; [symmetry; exact Hs|].
  split; [rewrite Hs; reflexivity | reflexivity].
Qed.

Lemma difference_table_zero : difference_table 0 [[0%Z]].
Proof.
  split; [apply index_table_one|].
  intros [|i] [|j] Hi Hj; try lia. reflexivity.
Defined.

Lemma sum_table_zero : sum_table 0 [[0%Z]].
Proof.
  split; [apply index_table_one|].
  intros [|i] [|j] Hi Hj; try lia. reflexivity.
Defined.

Lemma generator_block_structure_one_point :
  length [C1] = 1%nat /\ 1 <> 0 /\
  exists q, kerrlib.Q [C1] 1 1 1 [0] 1 [[0%Z]] [[0%Z]] 1 = Ok q
            /\ is_matrix 2 2 q.
Proof.
  split; [reflexivity|]. split; [lra|].
  destruct (generator_block_structure 0 [C1] 1 1 1 [0] 1 [[0%Z]] [[0%Z]])
    as [q (Hq & Hm & _)];
    try reflexivity; try lra;
    [apply difference_table_zero | apply sum_table_zero |].
  exists q. split; assumption.
Defined.

(** ** Propagation over no steps *)

Lemma moments_of_identity_Z (n : Z) :
  (0 <= n)%Z ->
  moments_of n (identity (Z.to_nat (2 * n)))
  = Ok (zeros2 (Z.to_nat n) (Z.to_nat n), zeros2 (Z.to_nat n) (Z.to_nat n)).
Proof.
  intros Hn. rewrite <- (Z2Nat.id n) at 1 2 by assumption.
  apply moments_of_identity.
Qed.

Lemma mrscale_zeros2 r d : mrscale r (zeros2 d d) = zeros2 d d.
Proof.
  unfold zeros2, mrscale. rewrite map_map_mk_mat.
  apply mk_mat_ext; intros. apply Rscal_0.
Qed.

Lemma propagators_no_steps
  (u : vec) (TD TN G dz : R) (kk ks : list R) (dk : R)
  (im ip : list (list Z)) (tf : Z) (dt : R) (n : Z) :
  (tf <= 0)%Z -> (0 <= n)%Z ->
  kerrlib.P_no_loss u TD TN dz kk ks dk im ip tf dt n
    = Ok (u, zeros2 (Z.to_nat n) (Z.to_nat n),
             zeros2 (Z.to_nat n) (Z.to_nat n))
  /\ kerrlib.P_Nico u TD TN G dz kk ks dk im ip tf dt n
    = Ok (u, zeros2 (Z.to_nat n) (Z.to_nat n),
             zeros2 (Z.to_nat n) (Z.to_nat n))
  /\ kerrlib.P_loss u TD TN G dz kk ks dk im ip tf dt n
    = Ok (u, Arr1 (repeat C0 (Z.to_nat n)), Arr1 (repeat C0 (Z.to_nat n))).
Proof.
  intros Htf Hn.
  assert (Hz : np_zeros n = Ok (repeat C0 (Z.to_nat n))).
  { unfold np_zeros. destruct (Z.ltb_spec n 0); [lia | reflexivity]. }
  assert (H0 : Z.to_nat tf = 0%nat) by lia.
  rewrite P_no_loss_accumulated, P_Nico_accumulated.
  unfold accumulated_transfer, kerrlib.P_loss.
  rewrite Hz, H0. cbn [bind engine_run iterM].
  rewrite moments_of_identity_Z by assumption. cbn [bind].
  rewrite mrscale_zeros2. repeat split; reflexivity.
Qed.

(** X12.  With a step count [tf <= 0] the loop body never runs.  For
    [0 <= n] the three propagators return the input field untouched, even an
    empty one; [P_no_loss] and [P_Nico] return [n x n] zero matrices for the
    moments, [P_loss] returns its one-dimensional [np.zeros(n)] arrays.  For
    [n < 0] all three raise ValueError whatever the step count. *)
Theorem propagators_without_steps
  (u : vec) (TD TN G dz : R) (kk ks : list R) (dk : R)
  (im ip : list (list Z)) (tf : Z) (dt : R) (n : Z) :
  ((tf <= 0)%Z -> (0 <= n)%Z ->
     kerrlib.P_no_loss u TD TN dz kk ks dk im ip tf dt n
       = Ok (u, zeros2 (Z.to_nat n) (Z.to_nat n),
                zeros2 (Z.to_nat n) (Z.to_nat n))
     /\ kerrlib.P_Nico u TD TN G dz kk ks dk im ip tf dt n
       = Ok (u, zeros2 (Z.to_nat n) (Z.to_nat n),
                zeros2 (Z.to_nat n) (Z.to_nat n))
     /\ kerrlib.P_loss u TD TN G dz kk ks dk im ip tf dt n
       = Ok (u, Arr1 (repeat C0 (Z.to_nat n)), Arr1 (repeat C0 (Z.to_nat n))))
  /\ ((n < 0)%Z ->
     kerrlib.P_no_loss u TD TN dz kk ks dk im ip tf dt n = Err ValueError
     /\ kerrlib.P_Nico u TD TN G dz kk ks dk im ip tf dt n = Err ValueError
     /\ kerrlib.P_loss u TD TN G dz kk ks dk im ip tf dt n = Err ValueError).
Proof.
  split.
  - intros Htf Hn. apply propagators_no_steps; assumption.
  - intros Hn.
    assert (Hz : np_zeros n = Err ValueError).
    { unfold np_zeros. destruct (Z.ltb_spec n 0); [reflexivity | lia]. }
    unfold kerrlib.P_no_loss, kerrlib.P_Nico, kerrlib.P_loss.
    rewrite Hz. repeat split; reflexivity.
Qed.

Lemma propagators_without_steps_witness :
  (0 <= 0)%Z /\ (0 <= 2)%Z /\
  kerrlib.P_loss [C1; C0] 1 1 1 1 [] [] 1 [] [] 0 1 2
  = Ok ([C1; C0], Arr1 [C0; C0], Arr1 [C0; C0]).
Proof.
  split; [lia|]. split; [lia|].
  apply (propagators_without_steps [C1; C0] 1 1 1 1 [] [] 1 [] [] 0 1 2); lia.
Defined.

Lemma rint_le_half x : x <= 1 / 2 -> (rint x <= 0)%Z.
Proof.
  intros Hx. unfold rint, frac_part.
  destruct (base_Int_part x) as [Hlo Hhi].
  set (f := Int_part x) in *.
  assert (Hf : (f <= 0)%Z).
  { assert (f < 1)%Z by (apply lt_IZR; lra). lia. }
  destruct (Rlt_dec (x - IZR f) (1 / 2)) as [_|H1]; [exact Hf|].
  assert (Hneg : (f <= -1)%Z \/ f = 0%Z) by lia.
  destruct Hneg as [Hneg| ->].
  - destruct (Rlt_dec (1 / 2) (x - IZR f)); [lia|].
    destruct (Z.even f); lia.
  - simpl in *. destruct (Rlt_dec (1 / 2) (x - 0)) as [H2|_]; [lra|].
    reflexivity.
Qed.

(** The driver takes no step when the rounded step count is not positive. *)
Lemma evolution_no_steps
  (self : QSS.qss) (L G T0 P0 ng b2 g : R) (u : vec) (TN TD : option R)
  (scale_factor : R) :
  Z.of_nat (length u) = QSS.n self ->
  (rint (L / (QSS.c self / ng * QSS.dz self) * scale_factor) <= 0)%Z ->
  QSS.evolution self L G T0 P0 ng b2 g u false TN TD scale_factor
  = Ok (u, Arr2 (zeros2 (length u) (length u)),
           Arr2 (zeros2 (length u) (length u)))
  /\ QSS.evolution self L G T0 P0 ng b2 g u true TN TD scale_factor
  = Ok (u, Arr1 (repeat C0 (length u)), Arr1 (repeat C0 (length u))).
Proof.
  intros Hu Htf. unfold QSS.evolution.
  rewrite Hu, Z.eqb_refl. cbn [negb].
  set (tf := rint (L / (QSS.c self / ng * QSS.dz self) * scale_factor)) in *.
  destruct (QSS.index_tables self) as [im ip].
  match goal with
  | |- context [kerrlib.P_no_loss u ?TD ?TN ?dz ?kk ?ks ?dk im ip tf ?dt ?n] =>
      destruct (propagators_no_steps u TD TN G dz kk ks dk im ip tf dt n)
        as (H1 & _ & H3)
  end; [exact Htf | lia |].
  rewrite <- Hu, Nat2Z.id in H1, H3.
  cbn [negb]. rewrite <- Hu. rewrite H1, H3. split; reflexivity.
Qed.

(** X13.  A waveguide too short for one step.  [evolution] takes
    [tf = rint(L / (v dt) * scale_factor)] steps, rounding halves to the even
    integer: when that quotient is at most [1/2], in particular for [L = 0],
    no step is taken and the call returns the user's field unchanged, with
    [n x n] zero moments when [loss] is off and with one-dimensional zero
    arrays when [loss] is on. *)
Theorem evolution_zero_length
  (self : QSS.qss) (L G T0 P0 ng b2 g : R) (u : vec) (TN TD : option R)
  (scale_factor : R) :
  Z.of_nat (length u) = QSS.n self ->
  ng <> 0 -> QSS.dz self <> 0 ->
  (TN = None -> g * P0 <> 0) -> (TD = None -> b2 <> 0) ->
  L / (QSS.c self / ng * QSS.dz self) * scale_factor <= 1 / 2 ->
  QSS.evolution self L G T0 P0 ng b2 g u false TN TD scale_factor
  = Ok (u, Arr2 (zeros2 (length u) (length u)),
           Arr2 (zeros2 (length u) (length u)))
  /\ QSS.evolution self L G T0 P0 ng b2 g u true TN TD scale_factor
  = Ok (u, Arr1 (repeat C0 (length u)), Arr1 (repeat C0 (length u)))
  /\ QSS.evolution self 0 G T0 P0 ng b2 g u false TN TD scale_factor
  = Ok (u, Arr2 (zeros2 (length u) (length u)),
           Arr2 (zeros2 (length u) (length u))).
Proof.
  intros Hu _ _ _ _ HL.
  destruct (evolution_no_steps self L G T0 P0 ng b2 g u TN TD scale_factor Hu
              (rint_le_half _ HL)) as [H1 H2].
  split; [exact H1|]. split; [exact H2|].
  apply (evolution_no_steps self 0 G T0 P0 ng b2 g u TN TD scale_factor Hu).
  apply rint_le_half. unfold Rdiv. rewrite !Rmult_0_l. lra.
Qed.

Lemma evolution_zero_length_witness :
  1 <> 0 /\
  QSS.evolution (QSS.mk_qss 1 1 2 [-1; 1] 2 [] [] 1) 0 0 1 1 1 1 1 [C1; C0]
    true (Some 1) (Some 1) 1
  = Ok ([C1; C0], Arr1 [C0; C0], Arr1 [C0; C0]).
Proof.
  split; [lra|].
  apply (evolution_zero_length (QSS.mk_qss 1 1 2 [-1; 1] 2 [] [] 1)
           0 0 1 1 1 1 1 [C1; C0] (Some 1) (Some 1) 1);
    try reflexivity; try (cbn; lra); try discriminate.
Defined.

(** ** [qss.squeezing] *)

Lemma linspace_0_PI :
  linspace 0 PI 100
  = Ok (map (fun i => INR i * ((PI - 0) / (IZR 100 - 1)) + 0) (seq 0 100)).
Proof. reflexivity. Qed.

Lemma INR_99 : INR 99 = 99.
Proof. rewrite INR_IZR_INZ. reflexivity. Qed.

Lemma Cexp_2i_PI :
  Cexp (Cmul (mkC 0 2) (RtoC (INR 99 * ((PI - 0) / (IZR 100 - 1)) + 0)))
  = Cexp (Cmul (mkC 0 2) (RtoC (INR 0 * ((PI - 0) / (IZR 100 - 1)) + 0))).
Proof.
  rewrite INR_99. unfold Cexp, Cmul. simpl Re. simpl Im.
  replace (0 * (99 * ((PI - 0) / (100 - 1)) + 0) - 2 * 0) with 0 by ring.
  replace (0 * 0 + 2 * (99 * ((PI - 0) / (100 - 1)) + 0)) with (2 * PI)
    by field.
  replace (0 * (0 * ((PI - 0) / (100 - 1)) + 0) - 2 * 0) with 0 by ring.
  replace (0 * 0 + 2 * (0 * ((PI - 0) / (100 - 1)) + 0)) with 0 by field.
  rewrite cos_2PI, sin_2PI, cos_0, sin_0. reflexivity.
Qed.

Lemma vm_ok (v : vec) (b : mat) r c :
  (0 < r)%nat -> length v = r -> is_matrix r c b ->
  vm v b = Ok (map (fun j => Csum r (fun k => nth k v C0 * entry b k j)%C)
                 (seq 0 c)).
Proof.
  intros Hr Hv Hb. unfold vm, nrows. pose proof Hb as [Hl _].
  rewrite Hv, Hl, Nat.eqb_refl, (ncols_is_matrix r c b Hr Hb). reflexivity.
Qed.

Lemma vm_zero_matrix (v : vec) r :
  (0 < r)%nat -> length v = r -> vm v (zeros2 r r) = Ok (repeat C0 r).
Proof.
  intros Hr Hv.
  rewrite (vm_ok v (zeros2 r r) r r Hr Hv (is_matrix_mk_mat _ _ _)).
  f_equal. rewrite <- (map_const_seq C0 0 r). apply map_ext_in.
  intros j Hj. apply in_seq in Hj. apply Csum_zero; intros k Hk.
  unfold zeros2. rewrite entry_mk_mat by lia. apply Cmul_0_r.
Qed.

Lemma dot_zeros_l (w : vec) :
  dot (repeat C0 (length w)) w = Ok C0.
Proof.
  unfold dot. rewrite repeat_length, Nat.eqb_refl. f_equal.
  apply Csum_zero; intros k _. rewrite nth_repeat. apply Cmul_0_l.
Qed.

Lemma np_norm_energy v : np_norm v = sqrt (energy v).
Proof. reflexivity. Qed.

Lemma energy_pos_nonempty u : 0 < energy u -> u <> [].
Proof. intros H ->. unfold energy in H. simpl in H. lra. Qed.

Lemma myfft_ok_length u dz :
  u <> [] -> exists f, kerrlib.myfft u dz = Ok f /\ length f = length u.
Proof.
  destruct u as [|x z]; [congruence|]. intros _.
  destruct (myfft_nonempty x z dz) as [k [Hk Hl]]. exists k. split; assumption.
Qed.

Lemma np_norm_myfft_pos u dz f :
  dz <> 0 -> 0 < energy u -> kerrlib.myfft u dz = Ok f -> 0 < np_norm f.
Proof.
  intros Hdz He Hf. pose proof (energy_pos_nonempty u He) as Hu.
  pose proof (nonempty_length u Hu) as Hn.
  rewrite np_norm_energy. apply sqrt_lt_R0.
  rewrite (energy_myfft _ _ _ Hf).
  assert (0 < INR (length u)) by (apply lt_0_INR; exact Hn).
  assert (0 < dz * dz) by nra.
  assert (0 < / (2 * PI)) by (apply Rinv_0_lt_compat; pose proof PI_RGT_0; lra).
  unfold Rdiv. apply Rmult_lt_0_compat; apply Rmult_lt_0_compat; assumption.
Qed.

(** X14.  The vacuum shows no squeezing.  For a field of nonzero energy on a
    grid of nonzero spacing the local oscillator is normalised by a positive
    number, and with the moments [M = N = 0] (what the propagators return
    for no steps) [squeezing] returns [0] dB at each of its 100 phases, which
    run from [0] to [pi]. *)
Theorem squeezing_of_vacuum (self : QSS.qss) (u_ev : vec) :
  QSS.dz self <> 0 -> 0 < energy u_ev ->
  exists f phi,
    kerrlib.myfft u_ev (QSS.dz self) = Ok f
    /\ 0 < np_norm f
    /\ QSS.squeezing self u_ev (zeros2 (length u_ev) (length u_ev))
         (zeros2 (length u_ev) (length u_ev))
       = Ok (phi, repeat 0 100)
    /\ length phi = 100%nat /\ nth 0 phi 0 = 0 /\ nth 99 phi 0 = PI.
Proof.
  intros Hdz He. pose proof (energy_pos_nonempty u_ev He) as Hu.
  pose proof (nonempty_length u_ev Hu) as Hn.
  destruct (myfft_ok_length u_ev (QSS.dz self) Hu) as [f [Hf Hl]].
  exists f. eexists. split; [exact Hf|].
  split; [exact (np_norm_myfft_pos _ _ _ Hdz He Hf)|].
  unfold QSS.squeezing. rewrite linspace_0_PI, Hf. cbn [bind].
  set (g := map (fun z => Cdivr z (np_norm f)) f).
  assert (Hg : length (map Cconj g) = length u_ev)
    by (unfold g; rewrite !length_map; exact Hl).
  assert (Hg' : length g = length u_ev)
    by (unfold g; rewrite length_map; exact Hl).
  rewrite (vm_zero_matrix (map Cconj g) _ Hn Hg).
  rewrite (vm_zero_matrix g _ Hn Hg').
  replace (repeat C0 (length u_ev)) with (repeat C0 (length (map Cconj g)))
    by (rewrite Hg; reflexivity).
  cbn [bind]. rewrite dot_zeros_l. cbn [bind].
  split; [|split; [|split]].
  - f_equal. f_equal. rewrite !map_map.
    rewrite <- (map_const_seq 0 0%nat 100). apply map_ext. intros i.
    match goal with
    | |- 10 * np_log10 ?x = 0 => replace x with 1 by (simpl; ring)
    end.
    unfold np_log10. rewrite ln_1. unfold Rdiv. ring.
  - rewrite length_map, length_seq. reflexivity.
  - rewrite (nth_map_seq _ 0 100 0) by lia. simpl. ring.
  - rewrite (nth_map_seq _ 0 100 99) by lia. rewrite INR_99. field.
Qed.

Lemma squeezing_of_vacuum_witness :
  1 <> 0 /\ 0 < energy [C1] /\
  exists phi,
    QSS.squeezing (QSS.mk_qss 1 1 1 [0] 1 [0] [0] 1) [C1] (zeros2 1 1)
      (zeros2 1 1) = Ok (phi, repeat 0 100).
Proof.
  assert (H1 : 1 <> 0) by lra.
  assert (H2 : 0 < energy [C1]).
  { unfold energy, Cabs. simpl.
    replace (1 * 1 + 0 * 0) with 1 by ring. rewrite sqrt_1. lra. }
  split; [exact H1|]. split; [exact H2|].
  destruct (squeezing_of_vacuum (QSS.mk_qss 1 1 1 [0] 1 [0] [0] 1) [C1] H1 H2)
    as [f [phi (_ & _ & H & _)]].
  exists phi. exact H.
Defined.

(** X15.  [squeezing] on moments of the field's size: for a field of [n]
    points with nonzero energy, a nonzero grid spacing and [n x n] arrays [M]
    and [N] it returns 100 phases and 100 values, and since the phases end at
    [pi], where [exp(2j phi)] is back at [1], the last value equals the
    first.  An empty field is refused by the transform, and a moment [M]
    whose row count is not the field's length by the matrix product. *)
Theorem squeezing_period_and_shapes (self : QSS.qss) (u_ev : vec) (M N : mat) :
  (QSS.dz self <> 0 -> 0 < energy u_ev ->
   is_matrix (length u_ev) (length u_ev) M ->
   is_matrix (length u_ev) (length u_ev) N ->
   exists phi sq,
     QSS.squeezing self u_ev M N = Ok (phi, sq)
     /\ length phi = 100%nat /\ length sq = 100%nat
     /\ nth 99 sq 0 = nth 0 sq 0)
  /\ (u_ev <> [] -> nrows M <> length u_ev ->
      QSS.squeezing self u_ev M N = Err ValueError)
  /\ QSS.squeezing self [] M N = Err ValueError.
Proof.
  split; [|split].
  - intros _ He HM HN. pose proof (energy_pos_nonempty u_ev He) as Hu.
    pose proof (nonempty_length u_ev Hu) as Hn.
    destruct (myfft_ok_length u_ev (QSS.dz self) Hu) as [f [Hf Hl]].
    unfold QSS.squeezing. rewrite linspace_0_PI, Hf. cbn [bind].
    set (g := map (fun z => Cdivr z (np_norm f)) f).
    assert (Hg : length (map Cconj g) = length u_ev)
      by (unfold g; rewrite !length_map; exact Hl).
    assert (Hg' : length g = length u_ev)
      by (unfold g; rewrite length_map; exact Hl).
    rewrite (vm_ok (map Cconj g) M _ _ Hn Hg HM).
    rewrite (vm_ok g N _ _ Hn Hg' HN). cbn [bind].
    unfold dot. rewrite !length_map, !length_seq, Hg', Nat.eqb_refl.
    cbn [bind]. do 2 eexists. split; [reflexivity|].
    split; [rewrite length_map, length_seq; reflexivity|].
    split; [rewrite !length_map, length_seq; reflexivity|].
    rewrite !map_map.
    rewrite (nth_map_seq _ 0 100 99), (nth_map_seq _ 0 100 0) by lia.
    rewrite Cexp_2i_PI. reflexivity.
  - intros Hu HM.
    destruct (myfft_ok_length u_ev (QSS.dz self) Hu) as [f [Hf Hl]].
    unfold QSS.squeezing. rewrite linspace_0_PI, Hf. cbn [bind].
    unfold vm at 1. rewrite !length_map, Hl.
    destruct (Nat.eqb_spec (length u_ev) (nrows M)); [congruence|].
    reflexivity.
  - reflexivity.
Qed.

Lemma squeezing_period_and_shapes_witness :
  1 <> 0 /\ 0 < energy [C1] /\ is_matrix 1 1 [[C1]] /\
  exists phi sq,
    QSS.squeezing (QSS.mk_qss 1 1 1 [0] 1 [0] [0] 1) [C1] [[C1]] [[C1]]
    = Ok (phi, sq) /\ nth 99 sq 0 = nth 0 sq 0.
Proof.
  assert (H0 : 1 <> 0) by lra.
  assert (H1 : 0 < energy [C1]).
  { unfold energy, Cabs. simpl.
    replace (1 * 1 + 0 * 0) with 1 by ring. rewrite sqrt_1. lra. }
  assert (H2 : is_matrix 1 1 [[C1]])
    by (split; [reflexivity | repeat constructor]).
  split; [exact H0|]. split; [exact H1|]. split; [exact H2|].
  destruct (squeezing_period_and_shapes (QSS.mk_qss 1 1 1 [0] 1 [0] [0] 1)
              [C1] [[C1]] [[C1]]) as [H _].
  destruct (H H0 H1 H2 H2) as [phi [sq (E & _ & _ & P)]].
  exists phi, sq. split; assumption.
Defined.

(** ** The pulse shapes *)

Lemma exp_le_compat x y : x <= y -> exp x <= exp y.
Proof.
  intros [H| ->]; [left; apply exp_increasing; exact H | right; reflexivity].
Qed.

Lemma exp_le_inv_compat x y : exp x <= exp y -> x <= y.
Proof.
  intros H. destruct (Rle_or_lt x y) as [|Hlt]; [assumption|].
  apply exp_increasing in Hlt. lra.
Qed.

Lemma sum_inverse_ge_2 a b : 0 < a -> 0 < b -> a * b = 1 -> 2 <= a + b.
Proof.
  intros Ha Hb Hab. pose proof (Rle_0_sqr (a - b)) as H. unfold Rsqr in H.
  destruct (Rle_or_lt 2 (a + b)) as [|Hlt]; [assumption|]. nra.
Qed.

Lemma cosh_ge_1 x : 1 <= cosh x.
Proof.
  unfold cosh. pose proof (exp_pos x) as Ha. pose proof (exp_pos (- x)) as Hb.
  assert (Hc : exp x * exp (- x) = 1)
    by (rewrite <- exp_plus, Rplus_opp_r; apply exp_0).
  pose proof (sum_inverse_ge_2 _ _ Ha Hb Hc). lra.
Qed.

Lemma cosh_even x : cosh (- x) = cosh x.
Proof. unfold cosh. rewrite Ropp_involutive. lra. Qed.

Lemma gaussian_range x : 0 < exp (- x ^ 2 / 2) <= 1.
Proof.
  split; [apply exp_pos|]. rewrite <- exp_0. apply exp_le_compat.
  pose proof (pow2_ge_0 x). lra.
Qed.

Lemma sech_range x : 0 < 1 / cosh x <= 1.
Proof.
  pose proof (cosh_ge_1 x) as H. unfold Rdiv. rewrite Rmult_1_l.
  split; [apply Rinv_0_lt_compat; lra|].
  apply Rle_trans with (/ 1); [apply Rinv_le_contravar; lra|].
  rewrite Rinv_1. lra.
Qed.

Lemma lorentzian_range x : 0 < 1 / sqrt (1 + x ^ 2) <= 1.
Proof.
  assert (Hs : 1 <= sqrt (1 + x ^ 2)).
  { rewrite <- sqrt_1 at 1. apply sqrt_le_1_alt.
    pose proof (pow2_ge_0 x). lra. }
  unfold Rdiv. rewrite Rmult_1_l.
  split; [apply Rinv_0_lt_compat; lra|].
  apply Rle_trans with (/ 1); [apply Rinv_le_contravar; lra|].
  rewrite Rinv_1. lra.
Qed.



Lemma sqrt_2ln2_sqr : sqrt (2 * ln 2) * sqrt (2 * ln 2) = 2 * ln 2.
Proof. apply sqrt_sqrt. pose proof ln_lt_2. lra. Qed.

Lemma half_maximum_gaussian x :
  Rabs x <= sqrt (2 * ln 2) <-> 1 / 2 <= exp (- x ^ 2 / 2).
Proof.
  pose proof ln_lt_2 as Hln. pose proof sqrt_2ln2_sqr as Hs.
  pose proof (sqrt_pos (2 * ln 2)) as Hp.
  assert (Hhalf : exp (- ln 2) = 1 / 2).
  { rewrite exp_Ropp, exp_ln by lra. field. }
  assert (Hx : x ^ 2 = Rabs x * Rabs x).
  { simpl. rewrite Rmult_1_r. unfold Rabs. destruct (Rcase_abs x); ring. }
  pose proof (Rabs_pos x) as Ha.
  set (s := sqrt (2 * ln 2)) in *. set (a := Rabs x) in *.
  split; intros H.
  - rewrite <- Hhalf. apply exp_le_compat. rewrite Hx.
    assert (a * a <= s * s) by nra. lra.
  - rewrite <- Hhalf in H. apply exp_le_inv_compat in H. rewrite Hx in H.
    assert (a * a <= s * s) by lra.
    destruct (Rle_or_lt a s) as [|Hlt]; [assumption|]. nra.
Qed.

(** X17.  The default width of [rect], [2 sqrt(2 ln 2)], is the full width
    at half maximum of [gaussian]: on any grid, [rect] with its default
    width is [1] exactly at the points where [gaussian] is at least [1/2]. *)
Theorem rect_default_is_gaussian_half_maximum (z : list R) (k : nat) :
  (k < length z)%nat ->
  (nth k (kerrlib.rect z kerrlib.rect_default_l) 0%Z = 1%Z
   <-> 1 / 2 <= nth k (kerrlib.gaussian z) 0).
Proof.
  intros Hk. unfold kerrlib.rect, kerrlib.gaussian, kerrlib.rect_default_l.
  rewrite (nth_map_lt _ z k 0%Z 0), (nth_map_lt _ z k 0 0) by exact Hk.
  set (x := nth k z 0).
  replace (0.5 * (2 * sqrt (2 * ln 2))) with (sqrt (2 * ln 2)) by lra.
  rewrite <- half_maximum_gaussian.
  destruct (Rle_dec (Rabs x) (sqrt (2 * ln 2))) as [H|H].
  - split; [intros _; exact H | reflexivity].
  - split; [discriminate | intros H'; contradiction].
Qed.

Lemma rect_default_is_gaussian_half_maximum_witness :
  (0 < length [0%R])%nat /\
  (nth 0 (kerrlib.rect [0] kerrlib.rect_default_l) 0%Z = 1%Z
   <-> 1 / 2 <= nth 0 (kerrlib.gaussian [0]) 0).
Proof.
  assert (H : (0 < length [0%R])%nat) by (simpl; lia).
  split; [exact H|].
  exact (rect_default_is_gaussian_half_maximum [0] 0 H).
Defined.

(** ** [expected_squeezing_g] *)

Lemma squeezing_ratio_simplified (x : R) :
  1 + 2 * x ^ 2 / sqrt 3
  - (sqrt 2 * x + 2 * sqrt 2 * x ^ 3 / 3) / sqrt (1 + 2 * x ^ 2 / 3)
  = 1 + 2 * x ^ 2 / sqrt 3 - sqrt 2 * x * sqrt (1 + 2 * x ^ 2 / 3).
Proof.
  pose proof (pow2_ge_0 x) as Hx.
  assert (Hpos : 0 < 1 + 2 * x ^ 2 / 3) by lra.
  pose proof (sqrt_lt_R0 _ Hpos) as Hs.
  pose proof (sqrt_sqrt (1 + 2 * x ^ 2 / 3) (Rlt_le _ _ Hpos)) as Hss.
  set (s := sqrt (1 + 2 * x ^ 2 / 3)) in *.
  replace (sqrt 2 * x + 2 * sqrt 2 * x ^ 3 / 3)
    with (sqrt 2 * x * (s * s)) by (rewrite Hss; simpl; field).
  assert (Ht : 0 < sqrt 3) by (apply sqrt_lt_R0; lra).
  field. repeat split; lra.
Qed.

Lemma squeezing_ratio_bounds (x : R) :
  1 - sqrt 3 / 2
  < 1 + 2 * x ^ 2 / sqrt 3 - sqrt 2 * x * sqrt (1 + 2 * x ^ 2 / 3)
  /\ 0 < 1 - sqrt 3 / 2
  /\ (0 < x ->
      1 + 2 * x ^ 2 / sqrt 3 - sqrt 2 * x * sqrt (1 + 2 * x ^ 2 / 3) < 1)
  /\ (x < 0 ->
      1 < 1 + 2 * x ^ 2 / sqrt 3 - sqrt 2 * x * sqrt (1 + 2 * x ^ 2 / 3)).
Proof.
  pose proof (pow2_ge_0 x) as Hx.
  assert (Hpos : 0 < 1 + 2 * x ^ 2 / 3) by lra.
  pose proof (sqrt_lt_R0 _ Hpos) as Hs.
  pose proof (sqrt_sqrt (1 + 2 * x ^ 2 / 3) (Rlt_le _ _ Hpos)) as Hss.
  assert (Ht : 0 < sqrt 3) by (apply sqrt_lt_R0; lra).
  assert (Htt : sqrt 3 * sqrt 3 = 3) by (apply sqrt_sqrt; lra).
  assert (Hr : 0 < sqrt 2) by (apply sqrt_lt_R0; lra).
  assert (Hrr : sqrt 2 * sqrt 2 = 2) by (apply sqrt_sqrt; lra).
  set (s := sqrt (1 + 2 * x ^ 2 / 3)) in *.
  set (t := sqrt 3) in *. set (r := sqrt 2) in *.
  assert (Hq : 2 * x ^ 2 / t = 2 * x ^ 2 * t / 3)
    by (rewrite <- Htt; field; lra).
  rewrite Hq.
  assert (Hx2 : x ^ 2 = x * x) by (simpl; ring).
  rewrite Hx2 in *.
  assert (Hrs : 0 < r * s) by (apply Rmult_lt_0_compat; assumption).
  assert (Hrs2 : (r * s) * (r * s) = 2 + 4 * (x * x) / 3)
    by (replace (r * s * (r * s)) with ((r * r) * (s * s)) by ring;
        rewrite Hrr, Hss; field).
  assert (Ht2 : t < 2) by nra.
  split; [|split; [lra|split]].
  - (* the lower bound holds for every x *)
    set (A := r * x * s). set (B := t / 2 + 2 * (x * x) * t / 3).
    assert (HB : 0 < B) by (unfold B; nra).
    assert (HAB : B * B - A * A = 3 / 4).
    { unfold A, B.
      replace (r * x * s * (r * x * s))
        with ((x * x) * ((r * s) * (r * s))) by ring.
      rewrite Hrs2.
      replace ((t / 2 + 2 * (x * x) * t / 3) * (t / 2 + 2 * (x * x) * t / 3))
        with ((t * t) * ((1 / 2 + 2 * (x * x) / 3) * (1 / 2 + 2 * (x * x) / 3)))
        by field.
      rewrite Htt. field. }
    assert (HAltB : A < B).
    { destruct (Rlt_or_le A B) as [|Hle]; [assumption|].
      assert (0 < A) by lra.
      assert (B * B <= A * A) by (apply Rmult_le_compat; lra). lra. }
    unfold A, B in *. lra.
  - intros Hxpos.
    set (D := 2 * x * t / 3).
    assert (HD : 0 < D) by (unfold D; nra).
    assert (HD2 : D * D = 4 * (x * x) / 3).
    { unfold D. replace (2 * x * t / 3 * (2 * x * t / 3))
        with ((t * t) * (4 * (x * x) / 9)) by field.
      rewrite Htt. field. }
    assert (HDrs : D < r * s).
    { destruct (Rlt_or_le D (r * s)) as [|Hle]; [assumption|].
      assert (r * s * (r * s) <= D * D) by (apply Rmult_le_compat; lra). lra. }
    assert (x * D < x * (r * s)) by (apply Rmult_lt_compat_l; assumption).
    unfold D in *. lra.
  - intros Hxneg.
    assert (0 < - x * (r * s)) by (apply Rmult_lt_0_compat; lra).
    assert (0 <= 2 * (x * x) * t / 3) by nra. nra.
Qed.

Lemma ln_10_pos : 0 < ln 10.
Proof. rewrite <- ln_1. apply ln_increasing; lra. Qed.



(** ** [FWHM] *)

Lemma crossings_cons2 h x y l :
  crossings h (x :: y :: l)
  = (Rsign (h - x) - Rsign (h - y)) :: crossings h (y :: l).
Proof. reflexivity. Qed.

Lemma crossings_repeat h v n : crossings h (repeat v (S n)) = repeat 0 n.
Proof.
  induction n as [|n IH]; [reflexivity|].
  change (repeat v (S (S n))) with (v :: v :: repeat v n).
  rewrite crossings_cons2. change (v :: repeat v n) with (repeat v (S n)).
  rewrite IH. cbn [repeat]. f_equal. ring.
Qed.

Lemma crossings_repeat_app h v n w l :
  crossings h (repeat v (S n) ++ w :: l)
  = repeat 0 n ++ (Rsign (h - v) - Rsign (h - w)) :: crossings h (w :: l).
Proof.
  induction n as [|n IH]; [reflexivity|].
  change (repeat v (S (S n)) ++ w :: l)
    with (v :: v :: (repeat v n ++ w :: l)).
  rewrite crossings_cons2.
  change (v :: (repeat v n ++ w :: l)) with (repeat v (S n) ++ w :: l).
  rewrite IH. cbn [repeat app]. f_equal. ring.
Qed.

Lemma np_where_from p d : np_where p d = where_from 0 p d.
Proof. reflexivity. Qed.

Lemma where_from_cons s p x d :
  where_from s p (x :: d)
  = if p x then Z.of_nat s :: where_from (S s) p d else where_from (S s) p d.
Proof.
  unfold where_from. cbn [length seq combine filter snd].
  destruct (p x); reflexivity.
Qed.

Lemma where_from_zeros s p n l :
  p 0 = false -> where_from s p (repeat 0 n ++ l) = where_from (s + n) p l.
Proof.
  intros Hp. revert s; induction n as [|n IH]; intros s.
  - rewrite Nat.add_0_r. reflexivity.
  - cbn [repeat app]. rewrite where_from_cons, Hp, IH. f_equal. lia.
Qed.

Lemma where_from_nil s p : where_from s p [] = [].
Proof. reflexivity. Qed.

Lemma fold_left_Rmax_ge l a : a <= fold_left Rmax l a.
Proof.
  revert a; induction l as [|x l IH]; intros a; [simpl; lra|].
  cbn [fold_left]. pose proof (IH (Rmax a x)). pose proof (Rmax_l a x). lra.
Qed.

Lemma fold_left_Rmax_le l a m :
  a <= m -> (forall x, In x l -> x <= m) -> fold_left Rmax l a <= m.
Proof.
  revert a; induction l as [|x l IH]; intros a Ha H; [exact Ha|].
  cbn [fold_left]. apply IH.
  - apply Rmax_lub; [exact Ha | apply H; left; reflexivity].
  - intros y Hy. apply H. right. exact Hy.
Qed.

Lemma fold_left_Rmax_in l a x : In x l -> x <= fold_left Rmax l a.
Proof.
  revert a; induction l as [|y l IH]; intros a; [intros []|].
  intros [->|Hin]; cbn [fold_left].
  - pose proof (fold_left_Rmax_ge l (Rmax a x)). pose proof (Rmax_r a x). lra.
  - apply IH. exact Hin.
Qed.

Lemma np_max_eq l m :
  In m l -> (forall x, In x l -> x <= m) -> np_max l = Ok m.
Proof.
  destruct l as [|a l]; [intros []|]. intros Hin Hle. unfold np_max. f_equal.
  apply Rle_antisym.
  - apply fold_left_Rmax_le; [apply Hle; left; reflexivity|].
    intros x Hx. apply Hle. right. exact Hx.
  - destruct Hin as [->|Hin];
      [apply fold_left_Rmax_ge | apply fold_left_Rmax_in; exact Hin].
Qed.

Lemma np_max_top_hat lo hi a b c :
  lo <= hi ->
  np_max (top_hat lo hi a (S b) c) = Ok hi.
Proof.
  intros Hle. apply np_max_eq; unfold top_hat.
  - rewrite !in_app_iff. right. left. left. reflexivity.
  - intros x Hx. rewrite !in_app_iff in Hx.
    destruct Hx as [Hx|[Hx|Hx]]; apply repeat_spec in Hx; subst; lra.
Qed.

Lemma Rsign_pos x : 0 < x -> Rsign x = 1.
Proof. intros H. unfold Rsign. destruct (Rlt_dec 0 x); [reflexivity | lra]. Qed.

Lemma Rsign_neg x : x < 0 -> Rsign x = -1.
Proof.
  intros H. unfold Rsign. destruct (Rlt_dec 0 x); [lra|].
  destruct (Rlt_dec x 0); [reflexivity | lra].
Qed.

Lemma crossings_top_hat h lo hi a b c :
  lo < h -> h < hi ->
  crossings h (top_hat lo hi (S a) (S b) (S c))
  = repeat 0 a ++ 2 :: repeat 0 b ++ -2 :: repeat 0 c.
Proof.
  intros Hlo Hhi. unfold top_hat.
  change (repeat hi (S b) ++ repeat lo (S c))
    with (hi :: (repeat hi b ++ repeat lo (S c))).
  rewrite crossings_repeat_app. f_equal.
  rewrite (Rsign_pos (h - lo)), (Rsign_neg (h - hi)) by lra.
  replace (1 - -1) with 2 by ring. f_equal.
  change (hi :: (repeat hi b ++ repeat lo (S c)))
    with (repeat hi (S b) ++ lo :: repeat lo c).
  rewrite crossings_repeat_app. f_equal.
  rewrite (Rsign_pos (h - lo)), (Rsign_neg (h - hi)) by lra.
  replace (-1 - 1) with (-2) by ring. f_equal.
  apply (crossings_repeat h lo c).
Qed.

(** X19.  [FWHM] of a top hat.  For a profile of [a + 1] points at a level
    [lo], then [b + 1] points at [hi > 0] with [lo < hi / 2], then [c + 1]
    points at [lo] again, the half maximum is [hi / 2], the only rise through
    it is after position [a] and the only fall after position [a + b + 1],
    and [FWHM] returns the one-entry array [X[a + b + 1] - X[a]]: the
    abscissa of the last high point minus that of the last low point before
    the hat. *)
Theorem FWHM_of_top_hat (X : list R) (lo hi : R) (a b c : nat) :
  0 < hi -> lo < hi / 2 -> (a + b + 1 < length X)%nat ->
  kerrlib.FWHM X (top_hat lo hi (S a) (S b) (S c))
  = Ok [nth (a + b + 1) X 0 - nth a X 0].
Proof.
  intros Hhi Hlo HX. unfold kerrlib.FWHM.
  rewrite np_max_top_hat by lra. cbn [bind].
  fold (crossings (hi / 2) (top_hat lo hi (S a) (S b) (S c))).
  rewrite crossings_top_hat by lra.
  assert (Hp0 : (if Rlt_dec 0 0 then true else false) = false)
    by (destruct (Rlt_dec 0 0); [lra | reflexivity]).
  rewrite !np_where_from.
  rewrite (where_from_zeros 0 (fun x => if Rlt_dec 0 x then true else false))
    by exact Hp0.
  rewrite (where_from_zeros 0 (fun x => if Rlt_dec x 0 then true else false))
    by exact Hp0.
  rewrite !where_from_cons.
  destruct (Rlt_dec 0 2) as [_|F]; [|exfalso; lra].
  destruct (Rlt_dec 2 0) as [F|_]; [exfalso; lra|].
  rewrite (where_from_zeros _ (fun x => if Rlt_dec 0 x then true else false))
    by exact Hp0.
  rewrite (where_from_zeros _ (fun x => if Rlt_dec x 0 then true else false))
    by exact Hp0.
  rewrite !where_from_cons.
  destruct (Rlt_dec 0 (-2)) as [F|_]; [exfalso; lra|].
  destruct (Rlt_dec (-2) 0) as [_|F]; [|exfalso; lra].
  rewrite <- (app_nil_r (repeat 0 c)).
  rewrite (where_from_zeros _ (fun x => if Rlt_dec 0 x then true else false))
    by exact Hp0.
  rewrite (where_from_zeros _ (fun x => if Rlt_dec x 0 then true else false))
    by exact Hp0.
  rewrite !where_from_nil. cbn [mapM].
  rewrite (index1_ok X _ 0) by lia. cbn [bind].
  rewrite (index1_ok X _ 0) by lia. cbn [bind].
  rewrite !Nat2Z.id. unfold bzip. cbn [length Nat.eqb zipM bind].
  match goal with
  | |- Ok [nth ?i X 0 - nth ?j X 0] = _ =>
      replace i with (a + b + 1)%nat by lia; replace j with a by lia
  end.
  reflexivity.
Qed.

Lemma FWHM_of_top_hat_witness :
  0 < 1 /\ 0 < 1 / 2 /\
  kerrlib.FWHM [0; 1; 2; 3] (top_hat 0 1 1 1 1) = Ok [nth 1 [0; 1; 2; 3] 0 - nth 0 [0; 1; 2; 3] 0].
Proof.
  split; [lra|]. split; [lra|].
  apply (FWHM_of_top_hat [0; 1; 2; 3] 0 1 0 0 0); [lra | lra | simpl; lia].
Defined.

(** X20.  The degenerate profiles of [FWHM].  With no ordinates [np.max]
    refuses the empty array (ValueError).  A flat profile, of any level and
    any length from one point on, never crosses its half maximum, and [FWHM]
    returns an empty array, not a width, whatever the abscissae. *)
Theorem FWHM_degenerate (X : list R) (v : R) (n : nat) :
  kerrlib.FWHM X [] = Err ValueError
  /\ kerrlib.FWHM X (repeat v (S n)) = Ok [].
Proof.
  split; [reflexivity|]. unfold kerrlib.FWHM.
  change (np_max (repeat v (S n))) with (Ok (fold_left Rmax (repeat v n) v)).
  cbn [bind].
  fold (crossings (fold_left Rmax (repeat v n) v / 2) (repeat v (S n))).
  rewrite crossings_repeat.
  assert (Hp0 : (if Rlt_dec 0 0 then true else false) = false)
    by (destruct (Rlt_dec 0 0); [lra | reflexivity]).
  rewrite !np_where_from. rewrite <- (app_nil_r (repeat 0 n)).
  rewrite (where_from_zeros 0 (fun x => if Rlt_dec 0 x then true else false))
    by exact Hp0.
  rewrite (where_from_zeros 0 (fun x => if Rlt_dec x 0 then true else false))
    by exact Hp0.
  reflexivity.
Qed.

(** ** The energy through the transforms *)

Lemma ifft_dft a :
  a <> [] -> ifft a = Ok (map (fun z => Cdivr z (INR (length a))) (dft 1 a)).
Proof.
  intros Ha. rewrite ifft_ok by exact Ha. unfold dft. rewrite map_map.
  reflexivity.
Qed.

Lemma energy_myifft k dk n z :
  kerrlib.myifft k dk n = Ok z ->
  energy z
  = (dk * IZR n) * (dk * IZR n) / (2 * PI) * (energy k / INR (length k)).
Proof.
  intros H.
  assert (Hk : k <> []) by (intro H0; subst k; discriminate).
  pose proof (nonempty_length k Hk) as Hn.
  assert (HnR : INR (length k) <> 0) by (apply not_0_INR; lia).
  unfold kerrlib.myifft in H. rewrite ifft_dft in H by exact Hk.
  cbn [bind] in H. injection H as <-.
  rewrite energy_ifftshift.
  rewrite (energy_map_scale _ ((dk * IZR n) * (dk * IZR n) / (2 * PI))).
  - rewrite (energy_map_scale _ (/ (INR (length k) * INR (length k)))).
    + rewrite energy_dft by (left; reflexivity). pose proof PI_neq0.
      field. split; assumption.
    + intros w. rewrite !Cabs_sqr. simpl. field. exact HnR.
  - intros w. rewrite !Cabs_sqr. simpl.
    pose proof sqrt_2PI_pos as Hs. pose proof sqrt_2PI_sqr as Hq.
    set (r := sqrt (2 * PI)) in *. rewrite <- Hq. field. lra.
Qed.

Lemma length_myifft k dk n z :
  kerrlib.myifft k dk n = Ok z -> length z = length k.
Proof.
  intros H. destruct k as [|x k]; [discriminate|].
  destruct (myifft_nonempty x k dk n) as [z' [Hz Hl]].
  rewrite Hz in H. injection H as <-. exact Hl.
Qed.

(** X21.  Although [myifft] after [myfft] does not give the array back, the
    round trip keeps its length and its energy: for a nonempty array on a
    grid of spacing [dz <> 0] with the reciprocal spacing
    [dk = 2 pi / (n dz)], [myifft(myfft(z, dz), dk, n)] succeeds and
    [sum |.|^2] of the result is that of [z]. *)
Theorem round_trip_keeps_energy (z : vec) (dz : R) :
  z <> [] -> dz <> 0 ->
  exists y, round_trip z dz = Ok y
            /\ length y = length z /\ energy y = energy z.
Proof.
  intros Hz Hdz. unfold round_trip.
  destruct (myfft_ok_length z dz Hz) as [a [Ha Hl]].
  rewrite Ha. cbn [bind].
  assert (Hane : a <> []).
  { intro H0. rewrite H0 in Hl. pose proof (nonempty_length z Hz).
    simpl in Hl. lia. }
  destruct a as [|x a']; [congruence|].
  match goal with
  | |- exists y, kerrlib.myifft _ ?dk ?n = Ok y /\ _ =>
      destruct (myifft_nonempty x a' dk n) as [y [Hy Hly]];
      exists y; split; [exact Hy|];
      split; [rewrite Hly; exact Hl|];
      rewrite (energy_myifft _ _ _ _ Hy), (energy_myfft _ _ _ Ha), Hl
  end.
  pose proof (nonempty_length z Hz) as Hn.
  assert (HnR : INR (length z) <> 0) by (apply not_0_INR; lia).
  rewrite <- INR_IZR_INZ. pose proof PI_neq0. field. repeat split; assumption.
Qed.

Lemma round_trip_keeps_energy_witness :
  [C1; Ci] <> [] /\ 1 <> 0 /\
  exists y, round_trip [C1; Ci] 1 = Ok y /\ energy y = energy [C1; Ci].
Proof.
  assert (H1 : [C1; Ci] <> []) by discriminate.
  assert (H2 : 1 <> 0) by lra.
  split; [exact H1|]. split; [exact H2|].
  destruct (round_trip_keeps_energy [C1; Ci] 1 H1 H2) as [y (E & _ & P)].
  exists y. split; assumption.
Defined.

(** ** Indexing by the tables *)

Lemma index1_cases {T : Type} (v : list T) k :
  (exists x, index1 v k = Ok x) \/ index1 v k = Err IndexError.
Proof.
  unfold index1.
  destruct ((0 <=? _) && _)%Z; [|right; reflexivity].
  destruct (nth_error v _); [left; eexists; reflexivity | right; reflexivity].
Qed.

Lemma index1_off {T : Type} (v : list T) k :
  (k < - Z.of_nat (length v))%Z \/ (Z.of_nat (length v) <= k)%Z ->
  index1 v k = Err IndexError.
Proof.
  intros H. unfold index1.
  destruct (Z.ltb_spec k 0).
  - destruct (Z.leb_spec 0 (k + Z.of_nat (length v))); [lia|]. reflexivity.
  - destruct (Z.leb_spec 0 k); [|lia].
    destruct (Z.ltb_spec k (Z.of_nat (length v))); [lia|]. reflexivity.
Qed.

Lemma index1_wrap {T : Type} (v : list T) k :
  (- Z.of_nat (length v) <= k)%Z ->
  index1 v (wrap_index (length v) k) = index1 v k.
Proof.
  intros H. unfold wrap_index, index1.
  destruct (Z.ltb_spec k 0); [|destruct (Z.ltb_spec k 0); [lia | reflexivity]].
  destruct (Z.ltb_spec (k + Z.of_nat (length v)) 0); [lia|]. reflexivity.
Qed.

Lemma mapM_cases {S T : Type} (f : S -> result T) e l :
  (forall x, (exists y, f x = Ok y) \/ f x = Err e) ->
  (exists r, mapM f l = Ok r) \/ mapM f l = Err e.
Proof.
  intros Hf. induction l as [|x l IH]; [left; eexists; reflexivity|].
  cbn [mapM]. destruct (Hf x) as [[y ->]| ->]; [|right; reflexivity].
  cbn [bind]. destruct IH as [[r ->]| ->];
    [left; eexists; reflexivity | right; reflexivity].
Qed.

Lemma mapM_err {S T : Type} (f : S -> result T) e l x :
  (forall x, (exists y, f x = Ok y) \/ f x = Err e) ->
  In x l -> f x = Err e -> mapM f l = Err e.
Proof.
  intros Hf Hin Hx. induction l as [|a l IH]; [destruct Hin|].
  cbn [mapM]. destruct Hin as [->|Hin]; [rewrite Hx; reflexivity|].
  destruct (Hf a) as [[y ->]| ->]; [|reflexivity].
  cbn [bind]. rewrite (IH Hin). reflexivity.
Qed.

Lemma mapM_ext_in {S T : Type} (f g : S -> result T) l :
  (forall x, In x l -> f x = g x) -> mapM f l = mapM g l.
Proof.
  induction l as [|a l IH]; intros H; [reflexivity|].
  cbn [mapM]. rewrite (H a) by (left; reflexivity).
  rewrite IH by (intros x Hx; apply H; right; exact Hx). reflexivity.
Qed.

Lemma mapM_map {S T U : Type} (f : T -> result U) (g : S -> T) l :
  mapM f (map g l) = mapM (fun x => f (g x)) l.
Proof.
  induction l as [|a l IH]; [reflexivity|].
  cbn [map mapM]. rewrite IH. reflexivity.
Qed.

Lemma gather_falls_off {T : Type} (v : list T) t :
  falls_off (length v) t -> gather v t = Err IndexError.
Proof.
  intros (row & k & Hrow & Hk & Hoff). unfold gather.
  apply (mapM_err _ IndexError t row).
  - intros r. apply mapM_cases. intros x. apply index1_cases.
  - exact Hrow.
  - apply (mapM_err _ IndexError row k).
    + intros x. apply index1_cases.
    + exact Hk.
    + apply index1_off. exact Hoff.
Qed.

Lemma gather_wrap {T : Type} (v : list T) t :
  Forall (Forall (fun k => (- Z.of_nat (length v) <= k)%Z)) t ->
  gather v (map (map (wrap_index (length v))) t) = gather v t.
Proof.
  intros H. unfold gather. rewrite mapM_map. apply mapM_ext_in.
  intros row Hrow. rewrite mapM_map. apply mapM_ext_in. intros k Hk.
  apply index1_wrap. rewrite Forall_forall in H.
  specialize (H row Hrow). rewrite Forall_forall in H. apply H. exact Hk.
Qed.

Lemma length_m_ok u TN dz :
  u <> [] -> exists mk, kerrlib.m u TN dz = Ok mk /\ length mk = length u.
Proof.
  intros Hu. rewrite m_ok by exact Hu. eexists; split; [reflexivity|].
  rewrite length_spectrum. unfold intensity. apply length_map.
Qed.

Lemma length_s_ok u TN dz :
  u <> [] -> exists sk, kerrlib.s u TN dz = Ok sk /\ length sk = length u.
Proof.
  intros Hu. rewrite s_ok by exact Hu. eexists; split; [reflexivity|].
  rewrite length_spectrum. unfold square. apply length_map.
Qed.

(** X22.  The builders do not check their index tables.  For a nonempty
    field of [n] points (and [ks] of [n] points), a table entry below [-n]
    or from [n] on makes the fancy indexing fail: [A] raises IndexError for
    such an entry of [im] and [B] for such an entry of [ip]; [Q] raises it
    for such an entry of [im], and, when [im] is an [n x n] table of valid
    indices, for such an entry of [ip]. *)
Theorem builders_refuse_indices_off_the_grid
  (u : vec) (TD TN dz : R) (ks : list R) (dk : R) (im ip : list (list Z)) :
  u <> [] -> length ks = length u ->
  (falls_off (length u) im ->
     kerrlib.A u TD TN dz ks dk im (Z.of_nat (length u)) = Err IndexError)
  /\ (falls_off (length u) ip ->
     kerrlib.B u TN dz dk ip = Err IndexError)
  /\ (falls_off (length u) im ->
     kerrlib.Q u TD TN dz ks dk im ip (Z.of_nat (length u)) = Err IndexError)
  /\ (index_table (length u) im -> falls_off (length u) ip ->
     kerrlib.Q u TD TN dz ks dk im ip (Z.of_nat (length u)) = Err IndexError).
Proof.
  intros Hu Hks. pose proof (nonempty_length u Hu) as Hn.
  destruct (length_m_ok u TN dz Hu) as [mk [Hm Hlm]].
  destruct (length_s_ok u TN dz Hu) as [sk [Hs Hls]].
  assert (HA : falls_off (length u) im ->
               kerrlib.A u TD TN dz ks dk im (Z.of_nat (length u))
               = Err IndexError).
  { intros Hoff. unfold kerrlib.A. rewrite Hm. cbn [bind].
    rewrite np_full_same by (rewrite length_map; exact Hks). cbn [bind].
    rewrite gather_falls_off by (rewrite Hlm; exact Hoff). reflexivity. }
  assert (HB : falls_off (length u) ip ->
               kerrlib.B u TN dz dk ip = Err IndexError).
  { intros Hoff. unfold kerrlib.B. rewrite Hs. cbn [bind].
    rewrite gather_falls_off by (rewrite Hls; exact Hoff). reflexivity. }
  split; [exact HA|]. split; [exact HB|]. split.
  - intros Hoff. unfold kerrlib.Q. rewrite (HA Hoff). reflexivity.
  - intros Him Hoff. unfold kerrlib.Q.
    rewrite (A_ok u TD TN dz ks dk im (length u)) by (assumption || reflexivity).
    cbn [bind]. rewrite (HB Hoff). reflexivity.
Qed.

Lemma builders_refuse_indices_off_the_grid_witness :
  [C1] <> [] /\ length [0] = length [C1] /\ falls_off 1 [[1%Z]] /\
  kerrlib.A [C1] 1 1 1 [0] 1 [[1%Z]] 1 = Err IndexError.
Proof.
  assert (H1 : [C1] <> []) by discriminate.
  assert (H2 : length [0] = length [C1]) by reflexivity.
  assert (H3 : falls_off 1 [[1%Z]]).
  { exists [1%Z], 1%Z. split; [left; reflexivity|].
    split; [left; reflexivity|]. right. simpl. lia. }
  split; [exact H1|]. split; [exact H2|]. split; [exact H3|].
  destruct (builders_refuse_indices_off_the_grid
              [C1] 1 1 1 [0] 1 [[1%Z]] [[1%Z]] H1 H2) as [HA _].
  exact (HA H3).
Defined.

(** X23.  Negative table entries are not refused either: an entry [k] with
    [-n <= k < 0] is read as [k + n], from the end of the array, as Python
    indexes.  So [A], [B] and [Q] give on such tables what they give on the
    tables with every negative entry moved up by [n]. *)
Theorem builders_wrap_negative_indices
  (u : vec) (TD TN dz : R) (ks : list R) (dk : R) (im ip : list (list Z))
  (n : Z) :
  TD <> 0 -> TN <> 0 ->
  Forall (Forall (fun k => (- Z.of_nat (length u) <= k)%Z)) im ->
  Forall (Forall (fun k => (- Z.of_nat (length u) <= k)%Z)) ip ->
  kerrlib.A u TD TN dz ks dk (map (map (wrap_index (length u))) im) n
  = kerrlib.A u TD TN dz ks dk im n
  /\ kerrlib.B u TN dz dk (map (map (wrap_index (length u))) ip)
     = kerrlib.B u TN dz dk ip
  /\ kerrlib.Q u TD TN dz ks dk (map (map (wrap_index (length u))) im)
       (map (map (wrap_index (length u))) ip) n
     = kerrlib.Q u TD TN dz ks dk im ip n.
Proof.
  intros _ _ Him Hip.
  assert (HA : kerrlib.A u TD TN dz ks dk
                 (map (map (wrap_index (length u))) im) n
               = kerrlib.A u TD TN dz ks dk im n).
  { unfold kerrlib.A. destruct u as [|x u']; [reflexivity|].
    destruct (length_m_ok (x :: u') TN dz) as [mk [Hm Hlm]]; [discriminate|].
    rewrite Hm. cbn [bind]. destruct (np_full n _); [|reflexivity].
    cbn [bind]. rewrite <- Hlm, gather_wrap by (rewrite Hlm; exact Him).
    reflexivity. }
  assert (HB : kerrlib.B u TN dz dk (map (map (wrap_index (length u))) ip)
               = kerrlib.B u TN dz dk ip).
  { unfold kerrlib.B. destruct u as [|x u']; [reflexivity|].
    destruct (length_s_ok (x :: u') TN dz) as [sk [Hs Hls]]; [discriminate|].
    rewrite Hs. cbn [bind].
    rewrite <- Hls, gather_wrap by (rewrite Hls; exact Hip).
    reflexivity. }
  split; [exact HA|]. split; [exact HB|].
  unfold kerrlib.Q. rewrite HA, HB. reflexivity.
Qed.

Lemma builders_wrap_negative_indices_witness :
  1 <> 0 /\
  kerrlib.B [C1] 1 1 1 (map (map (wrap_index (length [C1]))) [[(-1)%Z]])
  = kerrlib.B [C1] 1 1 1 [[(-1)%Z]].
Proof.
  assert (H : 1 <> 0) by lra. split; [exact H|].
  assert (Ht : Forall (Forall (fun k => (- Z.of_nat (length [C1]) <= k)%Z))
                 [[(-1)%Z]])
    by (repeat constructor; simpl; lia).
  destruct (builders_wrap_negative_indices [C1] 1 1 1 [0] 1 [[(-1)%Z]]
              [[(-1)%Z]] 1 H H Ht Ht) as (_ & HB & _).
  exact HB.
Defined.

(** ** The pump argument of [qss.evolution] *)

Lemma pump_shape_length self u T0 v T0' :
  (forall a, u <> QSS.PumpArray a) ->
  QSS.pump_shape self u T0 = Ok (v, T0') ->
  length v = length (QSS.zz self).
Proof.
  intros Hu H. destruct u as [|name|a]; [| |exfalso; apply (Hu a); reflexivity];
    unfold QSS.pump_shape in H;
    repeat match type of H with
           | (if ?b then _ else _) = _ => destruct b
           end;
    try discriminate; injection H as <- _;
    unfold kerrlib.gaussian, kerrlib.rect, kerrlib.sech, kerrlib.lorentzian;
    rewrite !length_map; reflexivity.
Qed.

(** X24.  How [evolution] reads its argument [u].  A string that is none of
    the four shape names is refused with ValueError before anything is
    computed; leaving [u] out is the same as asking for ["Gaussian"]; and
    every built-in shape is sampled on the grid [zz] of the object, so that
    on a grid with [len(zz) = n] it passes the length check: over a waveguide
    of length [0] the call returns the sampled shape itself, with zero
    moments. *)
Theorem evolution_pump_dispatch
  (self : QSS.qss) (L G T0 P0 ng b2 g : R) (loss : bool) (TN TD : option R)
  (scale_factor : R) :
  (forall name,
      name <> "Gaussian"%string -> name <> "Rect"%string ->
      name <> "Sech"%string -> name <> "Lorentzian"%string ->
      QSS.evolution_pump self L G T0 P0 ng b2 g (QSS.PumpStr name) loss TN TD
        scale_factor = Err ValueError)
  /\ QSS.evolution_pump self L G T0 P0 ng b2 g QSS.PumpNone loss TN TD
       scale_factor
     = QSS.evolution_pump self L G T0 P0 ng b2 g (QSS.PumpStr "Gaussian") loss
         TN TD scale_factor
  /\ (Z.of_nat (length (QSS.zz self)) = QSS.n self ->
      ng <> 0 -> QSS.dz self <> 0 ->
      (TN = None -> g * P0 <> 0) -> (TD = None -> b2 <> 0) ->
      forall u v T0',
        (forall a, u <> QSS.PumpArray a) ->
        QSS.pump_shape self u T0 = Ok (v, T0') ->
        length v = length (QSS.zz self)
        /\ QSS.evolution_pump self 0 G T0 P0 ng b2 g u false TN TD scale_factor
           = Ok (v, Arr2 (zeros2 (length v) (length v)),
                    Arr2 (zeros2 (length v) (length v)))).
Proof.
  split; [|split].
  - intros name H1 H2 H3 H4. unfold QSS.evolution_pump, QSS.pump_shape.
    apply String.eqb_neq in H1, H2, H3, H4. rewrite H1, H2, H3, H4.
    reflexivity.
  - reflexivity.
  - intros Hzz Hng Hdz HTN HTD u v T0' Hu Hv.
    pose proof (pump_shape_length self u T0 v T0' Hu Hv) as Hl.
    split; [exact Hl|]. unfold QSS.evolution_pump. rewrite Hv. cbn [bind].
    apply (evolution_no_steps self 0 G T0' P0 ng b2 g v TN TD scale_factor).
    + rewrite Hl. exact Hzz.
    + apply rint_le_half. unfold Rdiv. rewrite !Rmult_0_l. lra.
Qed.

Lemma evolution_pump_dispatch_witness :
  ("Square" <> "Gaussian")%string /\
  QSS.evolution_pump (QSS.mk_qss 1 1 1 [0] 1 [0] [0] 1) 1 1 1 1 1 1 1
    (QSS.PumpStr "Square") false None None 1 = Err ValueError.
Proof.
  assert (H : ("Square" <> "Gaussian")%string) by discriminate.
  split; [exact H|].
  apply (evolution_pump_dispatch (QSS.mk_qss 1 1 1 [0] 1 [0] [0] 1)
           1 1 1 1 1 1 1 false None None 1); discriminate.
Defined.

(** ** [P_mean_field] with its diagnostic switched on *)

(** X25.  In a namespace that binds [Dcheck] to ["True"], [P_mean_field]
    first takes the [FWHM] of the intensity [|u|^2] and discards it.  If
    that succeeds, the call returns what it returns with the diagnostic off;
    if it fails, the call fails with the same error before any step.  So an
    empty field is refused with ValueError even for [N = 0] steps, for which
    the call with the diagnostic off returns the empty field. *)
Theorem P_mean_field_diagnostic
  (u : vec) (TD TN G : R) (zz : list R) (dz : R) (kk : list R) (N : Z)
  (dt : R) :
  let on := ("Dcheck"%string, PyStr "True") :: kerrlib.globals in
  let off := ("Dcheck"%string, PyStr "False") :: kerrlib.globals in
  (forall w,
      kerrlib.FWHM zz (map (fun z => Cabs z ^ 2) u) = Ok w ->
      kerrlib.P_mean_field on u TD TN G zz dz kk N dt
      = kerrlib.P_mean_field off u TD TN G zz dz kk N dt)
  /\ (forall e,
        kerrlib.FWHM zz (map (fun z => Cabs z ^ 2) u) = Err e ->
        kerrlib.P_mean_field on u TD TN G zz dz kk N dt = Err e)
  /\ kerrlib.P_mean_field on [] TD TN G zz dz kk N dt = Err ValueError
  /\ kerrlib.P_mean_field off [] TD TN G zz dz kk 0 dt = Ok [].
Proof.
  intros on off. split; [|split; [|split]].
  - intros w Hw. unfold on, off, kerrlib.P_mean_field.
    cbn [app lookup_name find fst snd String.eqb Ascii.eqb Bool.eqb bind
         pyval_eqb].
    rewrite Hw. reflexivity.
  - intros e He. unfold on, kerrlib.P_mean_field.
    cbn [app lookup_name find fst snd String.eqb Ascii.eqb Bool.eqb bind
         pyval_eqb].
    rewrite He. reflexivity.
  - reflexivity.
  - reflexivity.
Qed.

Lemma P_mean_field_diagnostic_witness :
  kerrlib.FWHM [0] (map (fun z => Cabs z ^ 2) [C1]) = Ok [] /\
  kerrlib.P_mean_field (("Dcheck"%string, PyStr "True") :: kerrlib.globals)
    [C1] 1 1 0 [0] 1 [0] 0 1
  = kerrlib.P_mean_field (("Dcheck"%string, PyStr "False") :: kerrlib.globals)
    [C1] 1 1 0 [0] 1 [0] 0 1.
Proof.
  assert (H : kerrlib.FWHM [0] (map (fun z => Cabs z ^ 2) [C1]) = Ok [])
    by reflexivity.
  split; [exact H|].
  destruct (P_mean_field_diagnostic [C1] 1 1 0 [0] 1 [0] 0 1) as [Hon _].
  exact (Hon [] H).
Defined.

(** ** The first step of [P_loss], on any grid *)

Lemma mm_identity_r d E :
  (0 < d)%nat -> is_matrix d d E -> mm E (identity d) = Ok E.
Proof.
  intros Hd HE. rewrite (mm_ok d d d) by (try assumption; apply is_matrix_mk_mat).
  f_equal. apply (mat_ext d d); [apply is_matrix_mk_mat | exact HE |].
  intros i j Hi Hj. rewrite entry_mk_mat by assumption.
  rewrite (Csum_single d _ j Hj).
  - unfold identity. rewrite entry_mk_mat, Nat.eqb_refl by assumption.
    apply Cmul_1_r.
  - intros k Hk Hne. unfold identity. rewrite entry_mk_mat by assumption.
    destruct (Nat.eqb_spec k j); [contradiction | apply Cmul_0_r].
Qed.

Lemma mm_total r c d a b :
  (0 < r)%nat -> (0 < c)%nat -> is_matrix r c a -> is_matrix c d b ->
  exists m, mm a b = Ok m /\ is_matrix r d m.
Proof.
  intros Hr Hc Ha Hb. rewrite (mm_ok r c d) by assumption.
  eexists; split; [reflexivity | apply is_matrix_mk_mat].
Qed.

Lemma row_add_zeros_r row :
  bzip (fun x y => Ok (x + y)%C) row (repeat C0 (length row)) = Ok row.
Proof.
  rewrite bzip_same by (rewrite repeat_length; reflexivity).
  rewrite zipM_pure. f_equal.
  apply nth_ext with (d := C0) (d' := C0).
  - rewrite length_map2; rewrite ?repeat_length; reflexivity.
  - intros i Hi. rewrite length_map2 in Hi
      by (rewrite repeat_length; reflexivity).
    rewrite (nth_map2 Cadd _ _ i C0 C0) by (rewrite ?repeat_length; lia).
    rewrite nth_repeat. apply Cadd_0_r.
Qed.

(** A zero row added to a matrix, broadcast over its rows, leaves it. *)
Lemma madd_zero_row_r a r c :
  is_matrix r c a -> madd a [repeat C0 c] = Ok a.
Proof.
  intros [Hl Hc]. rewrite Forall_forall in Hc.
  assert (Hrows : mapM (fun row => bzip (fun x y => Ok (x + y)%C) row
                                     (repeat C0 c)) a = Ok a).
  { rewrite (mapM_ok _ (fun row => row)).
    - rewrite map_id. reflexivity.
    - intros row Hin. rewrite <- (Hc row Hin). apply row_add_zeros_r. }
  unfold madd, bzip at 1. cbn [length].
  destruct a as [|row [|row' a]].
  - reflexivity.
  - cbn [length Nat.eqb zipM]. rewrite <- (Hc row) by (left; reflexivity).
    rewrite row_add_zeros_r. reflexivity.
  - cbn [length Nat.eqb]. exact Hrows.
Qed.

(** The second assignment of the loop body of [P_loss] in its first step:
    with [N = 0] and the pair moment [M0 = U @ W.T] that the first assignment
    has just produced on its right-hand side. *)
Lemma N_next_after_M n K M0 N0 :
  (0 < n)%nat -> is_matrix (2 * n) (2 * n) K ->
  moments_of (Z.of_nat n) K = Ok (M0, N0) ->
  exists T1 T2 S N',
    (x <- mm (mconj (top_right n K)) M0 ;; mm x (transpose (top_left n K)))
    = Ok T1
    /\ (x <- mm (mconj (top_left n K)) (mconj M0) ;;
        mm x (transpose (top_right n K))) = Ok T2
    /\ madd T1 T2 = Ok S /\ madd S N0 = Ok N'
    /\ N_next (Arr2 (top_left n K)) (Arr2 (top_right n K)) (Arr2 M0)
         (Arr1 (repeat C0 n)) = Ok (Arr2 N').
Proof.
  intros Hn HK Hmom. unfold moments_of in Hmom. rewrite Nat2Z.id in Hmom.
  pose proof (is_matrix_top_left n K HK) as HU.
  pose proof (is_matrix_top_right n K HK) as HW.
  set (U := top_left n K) in *. set (W := top_right n K) in *.
  pose proof (is_matrix_transpose n n _ Hn HU) as HUt.
  pose proof (is_matrix_transpose n n _ Hn HW) as HWt.
  pose proof (is_matrix_mconj n n _ HU) as HUc.
  pose proof (is_matrix_mconj n n _ HW) as HWc.
  destruct (mm U (transpose W)) as [M'|] eqn:EM; [|discriminate].
  cbn [bind] in Hmom.
  destruct (mm (mconj W) (transpose W)) as [N'0|] eqn:EN; [|discriminate].
  injection Hmom as <- <-.
  pose proof (is_matrix_mm n n n _ _ _ Hn Hn HU HWt EM) as HM.
  pose proof (is_matrix_mm n n n _ _ _ Hn Hn HWc HWt EN) as HN.
  pose proof (is_matrix_mconj n n _ HM) as HMc.
  destruct (mm_total n n n _ _ Hn Hn HWc HM) as [x1 [Ex1 Hx1]].
  destruct (mm_total n n n _ _ Hn Hn Hx1 HUt) as [t1 [Et1 Ht1]].
  destruct (mm_total n n n _ _ Hn Hn HUc HMc) as [x2 [Ex2 Hx2]].
  destruct (mm_total n n n _ _ Hn Hn Hx2 HWt) as [t2 [Et2 Ht2]].
  assert (ES : madd t1 t2
               = Ok (mk_mat n n (fun i j => entry t1 i j + entry t2 i j)%C))
    by (apply madd_ok; assumption).
  set (S := mk_mat n n (fun i j => entry t1 i j + entry t2 i j)%C) in *.
  assert (HS : is_matrix n n S) by apply is_matrix_mk_mat.
  assert (EN' : madd S N'0
                = Ok (mk_mat n n (fun i j => entry S i j + entry N'0 i j)%C))
    by (apply madd_ok; assumption).
  exists t1, t2, S. eexists.
  split; [rewrite Ex1; cbn [bind]; exact Et1|].
  split; [rewrite Ex2; cbn [bind]; exact Et2|].
  split; [exact ES|]. split; [exact EN'|].
  unfold N_next, matmulR, addR.
  cbn [bind nd_matmul nd_T nd_conj].
  unfold vec, mat in *.
  rewrite Ex1. cbn [bind nd_matmul]. rewrite Et1. cbn [bind].
  rewrite Ex2. cbn [bind nd_matmul]. rewrite Et2. cbn [bind nd_add].
  rewrite ES. cbn [bind].
  rewrite !(mv_zeros _ n n) by assumption. cbn [bind nd_matmul].
  rewrite !(vm_zeros _ n n) by assumption. cbn [bind nd_add].
  match goal with
  | |- context [madd S ?z] =>
      replace (madd S z) with (Ok S)
        by (symmetry; apply (madd_zero_row_r S n n HS))
  end.
  cbn [bind nd_add].
  match goal with
  | |- context [madd S ?z] =>
      replace (madd S z) with (Ok S)
        by (symmetry; apply (madd_zero_row_r S n n HS))
  end.
  cbn [bind nd_add].
  rewrite EN. cbn [bind nd_add]. rewrite EN'. reflexivity.
Qed.

Lemma accumulate_from_identity dt n q K :
  (0 < n)%nat -> accumulate dt q (identity (2 * n)) = Ok K ->
  is_matrix (2 * n) (2 * n) K /\ step_transfer dt q = Ok K.
Proof.
  intros Hn H.
  pose proof (accumulate_is_matrix dt n q _ K Hn (is_matrix_mk_mat _ _ _) H)
    as HK.
  split; [exact HK|]. unfold accumulate in H.
  destruct (step_transfer dt q) as [E|] eqn:HE; [|discriminate].
  cbn [bind] in H. unfold step_transfer in HE.
  pose proof (expm_is_matrix _ _ HE) as HEm.
  destruct (mm_is_matrix E _ K H) as [Hc Hm].
  set (d := length (mscale (Ci * RtoC dt) q)) in *.
  unfold identity, nrows in Hc. rewrite length_mk_mat in Hc.
  assert (Hd : d = (2 * n)%nat).
  { destruct (Nat.eq_dec d 0) as [H0|H0].
    - destruct HEm as [HEl _]. rewrite H0 in HEl.
      destruct E; [simpl in Hc; lia | discriminate].
    - rewrite (ncols_is_matrix d d E) in Hc by (assumption || lia).
      exact Hc. }
  rewrite Hd in HEm. rewrite mm_identity_r in H by (assumption || lia).
  exact H.
Qed.


Lemma P_Nico_ex :
  kerrlib.P_Nico [C1] (-1/2) 1 0 (1/2) [1] [1] (4 * PI) [[0%Z]] [[0%Z]] 1
    (1/2) (Z.of_nat 1)
  = Ok ([C1], mrscale (exp (- 0 * (1/2) * 1)) [[mkC (-1/4) (1/2)]],
              mrscale (exp (- 0 * (1/2) * 1)) [[mkC (1/4) 0]]).
Proof.
  rewrite P_Nico_accumulated.
  change (Z.of_nat 1) with 1%Z.
  rewrite <- P_no_loss_accumulated, P_no_loss_ex. reflexivity.
Qed.


(** ** Linearity of the dispersion step and the global phase *)

Lemma dft_entry_map2 sgn (a b : C) u v k :
  length v = length u ->
  dft_entry sgn (map2 (fun x y => a * x + b * y)%C u v) k
  = (a * dft_entry sgn u k + b * dft_entry sgn v k)%C.
Proof.
  intros Hl. unfold dft_entry.
  rewrite length_map2 by (symmetry; exact Hl). rewrite Hl.
  rewrite <- !Csum_mul_l, <- Csum_add. apply Csum_ext; intros m Hm.
  rewrite (nth_map2 _ u v m C0 C0) by (try lia; symmetry; exact Hl). ring.
Qed.

Lemma dft_entry_scale sgn (c : C) u k :
  dft_entry sgn (map (Cmul c) u) k = (c * dft_entry sgn u k)%C.
Proof.
  apply (dft_entry_linear (Cmul c)); intros; ring.
Qed.

Lemma opD_total u TD G kk dt :
  u <> [] -> length kk = length u ->
  exists r, kerrlib.opD u TD G kk dt = Ok r /\ length r = length u.
Proof.
  intros Hu Hk. rewrite opD_ok by assumption.
  eexists; split; [reflexivity | apply length_tabulate].
Qed.

Lemma nonempty_of_length {T : Type} (a b : list T) :
  a <> [] -> length b = length a -> b <> [].
Proof.
  intros Ha Hl Hb. subst b. destruct a; [congruence | discriminate].
Qed.

(** X27.  [opD] is linear.  For two fields of the same nonzero length on
    the grid of [kk] and any complex weights [a], [b], the dispersion/loss
    step of [a u + b v] is [a] times that of [u] plus [b] times that of
    [v]. *)
Theorem opD_superposition (a b : C) (u v : vec) (TD G : R) (kk : list R)
  (dt : R) :
  u <> [] -> length v = length u -> length kk = length u -> TD <> 0 ->
  exists ru rv,
    kerrlib.opD u TD G kk dt = Ok ru /\ kerrlib.opD v TD G kk dt = Ok rv
    /\ kerrlib.opD (map2 (fun x y => a * x + b * y)%C u v) TD G kk dt
       = Ok (map2 (fun x y => a * x + b * y)%C ru rv).
Proof.
  intros Hu Hv Hk _.
  pose proof (nonempty_of_length u v Hu Hv) as Hvn.
  assert (Hkv : length kk = length v) by congruence.
  set (w := map2 (fun x y => a * x + b * y)%C u v).
  assert (Hw : length w = length u)
    by (unfold w; apply length_map2; symmetry; exact Hv).
  pose proof (nonempty_of_length u w Hu Hw) as Hwn.
  assert (Hkw : length kk = length w) by congruence.
  destruct (opD_total u TD G kk dt Hu Hk) as [ru [Eu Lu]].
  destruct (opD_total v TD G kk dt Hvn Hkv) as [rv [Ev Lv]].
  destruct (opD_total w TD G kk dt Hwn Hkw) as [rw [Ew Lw]].
  exists ru, rv. split; [exact Eu|]. split; [exact Ev|].
  rewrite Ew. f_equal. apply dft_injective.
  - rewrite length_map2; congruence.
  - intros k Hlt.
    rewrite (opD_spectrum w TD G kk dt rw k Hwn Hkw ltac:(congruence) Ew).
    rewrite dft_entry_map2 by congruence.
    rewrite (opD_spectrum u TD G kk dt ru k Hu Hk ltac:(congruence) Eu).
    rewrite (opD_spectrum v TD G kk dt rv k Hvn Hkv ltac:(congruence) Ev).
    unfold w. rewrite dft_entry_map2 by exact Hv.
    apply C_eq; simpl; ring.
Qed.

Lemma opD_superposition_witness :
  [C1; Ci] <> [] /\ length [Ci; C1] = length [C1; Ci]
  /\ length [0; 1] = length [C1; Ci] /\ 1 <> 0 /\
  exists ru rv,
    kerrlib.opD (map2 (fun x y => Ci * x + C1 * y)%C [C1; Ci] [Ci; C1]) 1 0
      [0; 1] 1
    = Ok (map2 (fun x y => Ci * x + C1 * y)%C ru rv).
Proof.
  assert (H1 : [C1; Ci] <> []) by discriminate.
  assert (H2 : length [Ci; C1] = length [C1; Ci]) by reflexivity.
  assert (H3 : length [0; 1] = length [C1; Ci]) by reflexivity.
  assert (H4 : 1 <> 0) by lra.
  split; [exact H1|]. split; [exact H2|]. split; [exact H3|].
  split; [exact H4|].
  destruct (opD_superposition Ci C1 [C1; Ci] [Ci; C1] 1 0 [0; 1] 1 H1 H2 H3 H4)
    as [ru [rv (_ & _ & E)]].
  exists ru, rv. exact E.
Defined.

Lemma opD_scale (c : C) u r TD G kk dt :
  u <> [] -> length kk = length u ->
  kerrlib.opD u TD G kk dt = Ok r ->
  kerrlib.opD (map (Cmul c) u) TD G kk dt = Ok (map (Cmul c) r).
Proof.
  intros Hu Hk Eu.
  pose proof (length_opD u TD G kk dt r Hu Hk Eu) as Lr.
  set (w := map (Cmul c) u).
  assert (Hw : length w = length u) by (unfold w; apply length_map).
  pose proof (nonempty_of_length u w Hu Hw) as Hwn.
  assert (Hkw : length kk = length w) by congruence.
  destruct (opD_total w TD G kk dt Hwn Hkw) as [rw [Ew Lw]].
  rewrite Ew. f_equal. apply dft_injective.
  - rewrite length_map. congruence.
  - intros k Hlt.
    rewrite (opD_spectrum w TD G kk dt rw k Hwn Hkw ltac:(congruence) Ew).
    unfold w. rewrite !dft_entry_scale.
    rewrite (opD_spectrum u TD G kk dt r k Hu Hk ltac:(congruence) Eu).
    apply C_eq; simpl; ring.
Qed.

Lemma kerr_phase_scale (c z : C) TN dt :
  (c * Cconj c)%C = C1 -> kerr_phase TN dt (c * z) = kerr_phase TN dt z.
Proof.
  intros Hc. unfold kerr_phase. rewrite (Cabs_unit_mul c z Hc). reflexivity.
Qed.

Lemma opN_scale (c : C) u ui r TN dt :
  (c * Cconj c)%C = C1 -> length ui = length u ->
  kerrlib.opN u TN ui dt = Ok r ->
  kerrlib.opN (map (Cmul c) u) TN (map (Cmul c) ui) dt = Ok (map (Cmul c) r).
Proof.
  intros Hc Hl H. rewrite opN_ok in H by exact Hl. injection H as <-.
  rewrite opN_ok by (rewrite !length_map; exact Hl).
  f_equal. rewrite map_tabulate, length_map. apply tabulate_ext.
  intros k Hk.
  rewrite (nth_map_lt (Cmul c) ui k C0 C0) by lia.
  rewrite (nth_map_lt (Cmul c) u k C0 C0) by lia.
  rewrite kerr_phase_scale by exact Hc. ring.
Qed.

Lemma field_step_total TD TN kk dt G u :
  u <> [] -> length kk = length u ->
  exists v, field_step TD TN kk dt G u = Ok v /\ length v = length u.
Proof.
  intros Hu Hk. unfold field_step.
  destruct (opD_total u TD G kk dt Hu Hk) as [u1 [E1 L1]].
  rewrite E1. cbn [bind]. rewrite opN_ok by congruence. cbn [bind].
  set (u2 := tabulate _ _).
  assert (L2 : length u2 = length u)
    by (unfold u2; rewrite length_tabulate; exact L1).
  destruct (opD_total u2 TD G kk dt (nonempty_of_length u u2 Hu L2)
              ltac:(congruence)) as [v [E3 L3]].
  exists v. split; [exact E3 | congruence].
Qed.

Lemma field_step_scale (c : C) TD TN kk dt G u v :
  (c * Cconj c)%C = C1 -> u <> [] -> length kk = length u ->
  field_step TD TN kk dt G u = Ok v ->
  field_step TD TN kk dt G (map (Cmul c) u) = Ok (map (Cmul c) v).
Proof.
  intros Hc Hu Hk H. unfold field_step in *.
  destruct (kerrlib.opD u TD G kk dt) as [u1|] eqn:E1; [|discriminate].
  cbn [bind] in H.
  pose proof (length_opD u TD G kk dt u1 Hu Hk E1) as L1.
  destruct (kerrlib.opN u1 TN u dt) as [u2|] eqn:E2; [|discriminate].
  cbn [bind] in H.
  assert (L2 : length u2 = length u).
  { rewrite opN_ok in E2 by congruence. injection E2 as <-.
    rewrite length_tabulate. exact L1. }
  rewrite (opD_scale c u u1 TD G kk dt Hu Hk E1). cbn [bind].
  rewrite (opN_scale c u1 u u2 TN dt Hc ltac:(congruence) E2). cbn [bind].
  apply opD_scale; [apply (nonempty_of_length u u2 Hu L2) | congruence | exact H].
Qed.

Lemma iterM_field_scale (c : C) TD TN kk dt G k u :
  (c * Cconj c)%C = C1 -> u <> [] -> length kk = length u ->
  exists r,
    iterM k (field_step TD TN kk dt G) u = Ok r /\ length r = length u
    /\ iterM k (field_step TD TN kk dt G) (map (Cmul c) u)
       = Ok (map (Cmul c) r).
Proof.
  intros Hc. revert u. induction k as [|k IH]; intros u Hu Hk.
  - exists u. repeat split; reflexivity.
  - destruct (field_step_total TD TN kk dt G u Hu Hk) as [v [Ev Lv]].
    destruct (IH v (nonempty_of_length u v Hu Lv) ltac:(congruence))
      as [r (Er & Lr & Es)].
    exists r. cbn [iterM]. rewrite Ev. cbn [bind].
    rewrite (field_step_scale c _ _ _ _ _ u v Hc Hu Hk Ev). cbn [bind].
    split; [exact Er|]. split; [congruence | exact Es].
Qed.

(** X28.  The mean field carries a global phase through the propagation.
    With the diagnostic off, [P_mean_field] on a nonempty field on the grid
    of [kk] always returns a field of the same length, and on the field
    multiplied by a constant phase [c], [|c| = 1], it returns that result
    multiplied by [c]: the nonlinear phase depends on [|u|^2] only and the
    dispersion step is linear. *)
Theorem mean_field_phase_covariant
  (c : C) (u : vec) (TD TN G : R) (zz : list R) (dz : R) (kk : list R)
  (N : Z) (dt : R) :
  let off := ("Dcheck"%string, PyStr "False") :: kerrlib.globals in
  (c * Cconj c)%C = C1 -> u <> [] -> length kk = length u ->
  TD <> 0 -> TN <> 0 ->
  exists r,
    kerrlib.P_mean_field off u TD TN G zz dz kk N dt = Ok r
    /\ length r = length u
    /\ kerrlib.P_mean_field off (map (Cmul c) u) TD TN G zz dz kk N dt
       = Ok (map (Cmul c) r).
Proof.
  intros off Hc Hu Hk _ _. unfold off. rewrite !P_mean_field_bound.
  apply (iterM_field_scale c TD TN kk dt G (Z.to_nat N) u Hc Hu Hk).
Qed.

Lemma mean_field_phase_covariant_witness :
  (Ci * Cconj Ci)%C = C1 /\ [C1] <> [] /\ 1 <> 0 /\
  exists r,
    kerrlib.P_mean_field (("Dcheck"%string, PyStr "False") :: kerrlib.globals)
      (map (Cmul Ci) [C1]) 1 1 0 [0] 1 [0] 2 1
    = Ok (map (Cmul Ci) r).
Proof.
  assert (H0 : (Ci * Cconj Ci)%C = C1) by (apply C_eq; simpl; ring).
  assert (H1 : [C1] <> []) by discriminate.
  assert (H2 : 1 <> 0) by lra.
  split; [exact H0|]. split; [exact H1|]. split; [exact H2|].
  destruct (mean_field_phase_covariant Ci [C1] 1 1 0 [0] 1 [0] 2 1 H0 H1
              eq_refl H2 H2) as [r (_ & _ & E)].
  exists r. exact E.
Defined.

(** ** An even number of grid points *)

Lemma Int_part_half k : Int_part (IZR k - 1 / 2) = (k - 1)%Z.
Proof. symmetry. apply Int_part_spec. rewrite minus_IZR. simpl. lra. Qed.

Lemma even_table_entry (c : nat) (m : Z) :
  (1 <= c)%nat ->
  astype_int (clip (IZR m + (IZR (Z.of_nat (2 * c)) - 1) / 2) 0
                (IZR (Z.of_nat (2 * c)) - 1))
  = clip_index_even c m.
Proof.
  intros Hc. unfold clip_index_even.
  assert (HN : IZR (Z.of_nat (2 * c)) = 2 * IZR (Z.of_nat c))
    by (rewrite Nat2Z.inj_mul, mult_IZR; reflexivity).
  assert (Hc1 : 1 <= IZR (Z.of_nat c)) by (apply IZR_le; lia).
  rewrite HN.
  replace (IZR m + (2 * IZR (Z.of_nat c) - 1) / 2)
    with (IZR (m + Z.of_nat c) - 1 / 2) by (rewrite plus_IZR; field).
  set (k := (m + Z.of_nat c)%Z).
  replace (m + Z.of_nat c - 1)%Z with (k - 1)%Z by (unfold k; lia).
  unfold clip.
  destruct (Z_le_gt_dec k 0) as [Hk|Hk].
  - (* below the grid *)
    assert (IZR k <= 0) by (apply IZR_le; exact Hk).
    rewrite Rmax_right by lra. rewrite Rmin_right by lra.
    rewrite (astype_int_IZR 0) by lia. lia.
  - assert (1 <= IZR k) by (apply IZR_le; lia).
    rewrite Rmax_left by lra.
    destruct (Z_le_gt_dec (2 * Z.of_nat c) k) as [Hhi|Hhi].
    + (* above the grid *)
      assert (2 * IZR (Z.of_nat c) <= IZR k)
        by (rewrite <- mult_IZR; apply IZR_le; exact Hhi).
      rewrite Rmin_left by lra.
      replace (2 * IZR (Z.of_nat c) - 1) with (IZR (2 * Z.of_nat c - 1))
        by (rewrite minus_IZR, mult_IZR; reflexivity).
      rewrite astype_int_IZR by lia. lia.
    + assert (IZR k <= 2 * IZR (Z.of_nat c) - 1).
      { rewrite <- mult_IZR. replace 1 with (IZR 1) by reflexivity.
        rewrite <- minus_IZR. apply IZR_le. lia. }
      rewrite Rmin_right by lra.
      unfold astype_int.
      destruct (Rle_dec 0 (IZR k - 1 / 2)) as [_|Hn]; [|exfalso; lra].
      rewrite Int_part_half. lia.
Qed.

Lemma tables_of_even_grid c self i j :
  (1 <= c)%nat -> even_grid c self ->
  (i < 2 * c)%nat -> (j < 2 * c)%nat ->
  table_get (fst (QSS.index_tables self)) i j
  = clip_index_even c (Z.of_nat j - Z.of_nat i)
  /\ table_get (snd (QSS.index_tables self)) i j
     = clip_index_even c
         ((Z.of_nat j - Z.of_nat c) + (Z.of_nat i - Z.of_nat c)).
Proof.
  intros Hc [Hn [Hl Hg]] Hi Hj. rewrite index_tables_maps. cbn [fst snd].
  unfold table_get.
  rewrite !(nth_map_lt _ (QSS.ks self) i [] 0) by lia.
  rewrite !(nth_map_lt _ (QSS.ks self) j 0%Z 0) by lia.
  rewrite !Hg by assumption. rewrite Hn.
  rewrite <- minus_IZR, <- plus_IZR, !rint_IZR.
  rewrite !even_table_entry by exact Hc.
  split; f_equal; lia.
Qed.

Lemma zhalf_even_n (c : nat) :
  (1 <= c)%nat -> ((Z.of_nat (2 * c) - 1) / 2)%Z = (Z.of_nat c - 1)%Z.
Proof. intros H. symmetry. apply (Z.div_unique _ 2 _ 1); lia. Qed.

Lemma zhalf_n_even (c : nat) : (Z.of_nat (2 * c) / 2)%Z = Z.of_nat c.
Proof. symmetry. apply (Z.div_unique _ 2 _ 0); lia. Qed.

Lemma even_half c : (2 * c / 2 = c)%nat.
Proof. symmetry. apply (Nat.div_unique _ 2 _ 0); lia. Qed.

Lemma nth_fftfreq_even (c : nat) (d : R) q :
  (1 <= c)%nat -> (q < 2 * c)%nat ->
  nth q (fftfreq (Z.of_nat (2 * c)) d) 0
  = IZR (if (q <? c)%nat then Z.of_nat q
         else (Z.of_nat q - Z.of_nat (2 * c))%Z)
    * (1 / (IZR (Z.of_nat (2 * c)) * d)).
Proof.
  intros Hc Hq. unfold fftfreq. rewrite zhalf_even_n, zhalf_n_even by exact Hc.
  replace (Z.to_nat (Z.of_nat c - 1 + 1)) with c by lia.
  rewrite Nat2Z.id.
  rewrite (nth_map_lt _ _ q 0 0%Z)
    by (rewrite length_app, !length_map, !length_seq; lia).
  f_equal. f_equal.
  destruct (Nat.ltb_spec q c).
  - rewrite app_nth1 by (rewrite length_map, length_seq; lia).
    apply (nth_map_seq Z.of_nat). lia.
  - rewrite app_nth2 by (rewrite length_map, length_seq; lia).
    rewrite length_map, length_seq.
    rewrite (nth_map_seq (fun i => (Z.of_nat i - Z.of_nat c)%Z)) by lia.
    lia.
Qed.

Lemma length_fftfreq_even (c : nat) (d : R) :
  (1 <= c)%nat -> length (fftfreq (Z.of_nat (2 * c)) d) = (2 * c)%nat.
Proof.
  intros Hc. unfold fftfreq. rewrite zhalf_even_n, zhalf_n_even by exact Hc.
  rewrite length_map, length_app, !length_map, !length_seq. lia.
Qed.

(** [qss.__init__] on an even number [2c >= 4] of points. *)
Lemma init_even (c : nat) (zf : R) :
  (2 <= c)%nat -> zf <> 0 ->
  exists self, QSS.init zf (Z.of_nat (2 * c)) = Ok self /\ even_grid c self.
Proof.
  intros Hc Hzf. unfold QSS.init, linspace.
  destruct (Z.ltb_spec (Z.of_nat (2 * c)) 0); [lia|]. cbn [bind].
  rewrite Nat2Z.id.
  set (g := fun i : nat =>
              INR i * ((zf - - zf) / (IZR (Z.of_nat (2 * c)) - 1)) + - zf).
  rewrite (index1_ok _ 1 0) by (rewrite length_map, length_seq; lia).
  cbn [bind].
  rewrite (index1_ok _ 0 0) by (rewrite length_map, length_seq; lia).
  cbn [bind]. change (Z.to_nat 1) with 1%nat. change (Z.to_nat 0) with 0%nat.
  rewrite !(nth_map_seq g) by lia.
  set (dz := g 1%nat - g 0%nat).
  assert (HN : IZR (Z.of_nat (2 * c)) = 2 * INR c).
  { rewrite <- INR_IZR_INZ, mult_INR. simpl. ring. }
  assert (Hcpos : 2 <= INR c).
  { replace 2 with (INR 2) by (simpl; ring). apply le_INR. exact Hc. }
  assert (Edz : dz = 2 * zf / (2 * INR c - 1)).
  { unfold dz, g. rewrite HN. simpl INR. field. lra. }
  assert (Hdz : dz <> 0).
  { rewrite Edz. intro H0. apply Hzf.
    apply (Rmult_eq_compat_r (2 * INR c - 1)) in H0.
    unfold Rdiv in H0.
    rewrite Rmult_assoc, Rinv_l, Rmult_1_r, Rmult_0_l in H0 by lra. lra. }
  set (kk := map (fun f => f * (2 * PI)) (fftfreq (Z.of_nat (2 * c)) dz)).
  assert (Hlen : length kk = (2 * c)%nat)
    by (unfold kk; rewrite length_map; apply length_fftfreq_even; lia).
  assert (Hkk : forall q, (q < 2 * c)%nat ->
            nth q kk 0
            = IZR (if (q <? c)%nat then Z.of_nat q
                   else (Z.of_nat q - Z.of_nat (2 * c))%Z)
              * (1 / (IZR (Z.of_nat (2 * c)) * dz)) * (2 * PI)).
  { intros q Hq. unfold kk.
    rewrite (nth_map_lt _ _ q 0 0) by (rewrite length_fftfreq_even; lia).
    rewrite nth_fftfreq_even by lia. reflexivity. }
  rewrite (index1_ok kk 1 0) by (rewrite Hlen; lia). cbn [bind].
  rewrite (index1_ok kk 0 0) by (rewrite Hlen; lia). cbn [bind].
  change (Z.to_nat 1) with 1%nat. change (Z.to_nat 0) with 0%nat.
  eexists; split; [reflexivity|]. unfold even_grid. cbn [QSS.n QSS.ks QSS.dk].
  split; [reflexivity|]. split; [rewrite length_fftshift; exact Hlen|].
  intros p Hp. rewrite nth_fftshift by (rewrite Hlen; exact Hp).
  rewrite Hlen, even_half.
  assert (Hval : IZR (Z.of_nat (2 * c)) * dz <> 0).
  { rewrite HN. apply Rmult_integral_contrapositive_currified; lra. }
  pose proof PI_neq0 as Hpi.
  rewrite (Hkk 1%nat), (Hkk 0%nat) by lia.
  destruct (Nat.ltb_spec 1 c); [|lia].
  destruct (Nat.ltb_spec 0 c); [|lia].
  destruct (Nat.ltb_spec p c).
  - rewrite Hkk by lia.
    destruct (Nat.ltb_spec (2 * c - c + p) c); [lia|].
    replace (Z.of_nat (2 * c - c + p) - Z.of_nat (2 * c))%Z
      with (Z.of_nat p - Z.of_nat c)%Z by lia.
    simpl (IZR (Z.of_nat 1)). simpl (IZR (Z.of_nat 0)). field.
    repeat split; try assumption; rewrite HN; lra.
  - rewrite Hkk by lia.
    destruct (Nat.ltb_spec (p - c) c); [|lia].
    replace (Z.of_nat (p - c)) with (Z.of_nat p - Z.of_nat c)%Z by lia.
    simpl (IZR (Z.of_nat 1)). simpl (IZR (Z.of_nat 0)). field.
    repeat split; try assumption; rewrite HN; lra.
Qed.

(** X29.  Why the number of points should be odd.  For an even number
    [n = 2c >= 4] of points and a nonzero half-width, [qss.__init__] succeeds
    and its centred frequencies are [ks[p] = (p - c) dk]: the zero frequency
    sits at position [c].  The offset [(n - 1) / 2] that [evolution] adds to
    the rounded frequency differences is then the half-integer [c - 1/2],
    which [astype(int)] truncates: the tables hold
    [clip(k + c - 1, 0, n - 1)] for the offset [k], one position to the left
    of the frequency [k dk].  In particular the diagonal of [im] is [c - 1],
    the position of the frequency [-dk], not of the zero frequency. *)
Theorem even_grid_tables_are_shifted (c : nat) (zf : R) :
  (2 <= c)%nat -> zf <> 0 ->
  exists self,
    QSS.init zf (Z.of_nat (2 * c)) = Ok self
    /\ (forall p, (p < 2 * c)%nat ->
          nth p (QSS.ks self) 0 / QSS.dk self
          = IZR (Z.of_nat p - Z.of_nat c))
    /\ (forall i j, (i < 2 * c)%nat -> (j < 2 * c)%nat ->
          table_get (fst (QSS.index_tables self)) i j
          = clip_index_even c (Z.of_nat j - Z.of_nat i)
          /\ table_get (snd (QSS.index_tables self)) i j
             = clip_index_even c
                 ((Z.of_nat j - Z.of_nat c) + (Z.of_nat i - Z.of_nat c)))
    /\ (forall i, (i < 2 * c)%nat ->
          table_get (fst (QSS.index_tables self)) i i = (Z.of_nat c - 1)%Z)
    /\ nth c (QSS.ks self) 0 / QSS.dk self = 0
    /\ nth (c - 1) (QSS.ks self) 0 / QSS.dk self = -1.
Proof.
  intros Hc Hzf. destruct (init_even c zf Hc Hzf) as [self [Hinit Hgrid]].
  exists self. split; [exact Hinit|].
  pose proof Hgrid as [Hn [Hl Hg]].
  split; [exact Hg|]. split; [|split; [|split]].
  - intros i j Hi Hj. apply tables_of_even_grid; (assumption || lia).
  - intros i Hi.
    destruct (tables_of_even_grid c self i i ltac:(lia) Hgrid Hi Hi) as [E _].
    rewrite E. unfold clip_index_even. lia.
  - rewrite Hg by lia. replace (Z.of_nat c - Z.of_nat c)%Z with 0%Z by lia.
    reflexivity.
  - rewrite Hg by lia.
    replace (Z.of_nat (c - 1) - Z.of_nat c)%Z with (-1)%Z by lia.
    reflexivity.
Qed.

Lemma even_grid_tables_are_shifted_witness :
  (2 <= 2)%nat /\ 1 <> 0 /\
  exists self,
    QSS.init 1 (Z.of_nat (2 * 2)) = Ok self
    /\ table_get (fst (QSS.index_tables self)) 0 0 = (Z.of_nat 2 - 1)%Z.
Proof.
  assert (H1 : (2 <= 2)%nat) by lia. assert (H2 : 1 <> 0) by lra.
  split; [exact H1|]. split; [exact H2|].
  destruct (even_grid_tables_are_shifted 2 1 H1 H2)
    as [self (E & _ & _ & D & _)].
  exists self. split; [exact E | apply D; lia].
Defined.
